(** * MoWebApp: the task store, the conversation generators, the task
      processors and the submission route, embedded from the TypeScript
      sources.

    What is embedded: [MemStorage] (server/storage), the local heuristic
    generator, [processTask] and [getTaskProgress] of [AgentService], their
    counterparts in [ExternalAgentService], and, from server/routes.ts, the
    submission handler with [processTaskWithUpdates].  An [async] function
    runs without interruption from one [await] to the next; a run is
    therefore a state machine over its suspension points, and an execution
    of the server is a sequence of such steps.  The pacing delays only
    appear as suspension points.

    Conventions of the embedding.
    - A JavaScript [Date] is its number of milliseconds since the epoch, a
      [Z]; every [new Date()] of the source reads the clock, which the model
      receives as an argument [now].
    - A JavaScript string is a [string] of bytes (UTF-8).  The source only
      concatenates, compares and searches strings, and lower-cases them;
      [toLowerCase] and the regular-expression classes are modelled on ASCII.
    - A JavaScript [number] that holds an id or a counter is a [Z]; the
      progress percentage, a double in the source, is the exact rational [Q]
      it approximates.
    - [Map<number, Task>] is a [gmap Z Task]; [Map<number, Message>], whose
      iteration order the source relies on, is an association list in
      insertion order.
    - The reply of the oracle is any JSON value.  The text of a message is
      a [string], as the schema declares it.  Where the source goes on with
      a value that is no string in that place (it checks no types at run
      time), or indexes a string that is not ASCII, the run is left at the
      suspension point [NotFollowed], and no statement is made about what
      follows. *)

From Stdlib Require Import ZArith QArith Qminmax Qround Lia List Sorted Permutation.
From Stdlib Require Import String Ascii DecimalString.
From stdpp Require Import gmap strings list fin_maps.

Local Open Scope string_scope.
Local Open Scope Z_scope.

(** ** JavaScript library functions used by the sources *)

Module Js.

(** [Map.prototype.set] on a map kept in insertion order: an existing key
    keeps its position and gets the new value, a new key goes last. *)
Fixpoint map_set {V : Type} (k : Z) (v : V) (m : list (Z * V)) : list (Z * V) :=
  match m with
  | [] => [(k, v)]
  | (k', v') :: m' =>
      if Z.eqb k' k then (k, v) :: m' else (k', v') :: map_set k v m'
  end.

(** [Array.from(map.values())] *)
Definition map_values {V : Type} (m : list (Z * V)) : list V := map snd m.

Definition map_keys {V : Type} (m : list (Z * V)) : list Z := map fst m.

(** [Array.prototype.sort(cmp)].  ECMAScript requires the sort to be
    stable; for a comparator that is a total preorder the result is the
    stable sorted arrangement, computed here by insertion from the right:
    an element goes before the first element it does not compare greater
    than. *)
Section Sort.
Context {A : Type} (cmp : A -> A -> Z).

Fixpoint sort_insert (x : A) (l : list A) : list A :=
  match l with
  | [] => [x]
  | y :: l' => if cmp x y <=? 0 then x :: y :: l' else y :: sort_insert x l'
  end.

Fixpoint sort (l : list A) : list A :=
  match l with
  | [] => []
  | x :: l' => sort_insert x (sort l')
  end.
End Sort.

(** [arr[arr.length - 1]]: [undefined] on the empty array. *)
Definition last_elem {A : Type} (l : list A) : option A := last l.

(** *** Strings *)

Definition nl : string := String "010"%char EmptyString.

(** The double quote character. *)
Definition dq : string := String "034"%char EmptyString.

Definition is_upper (c : ascii) : bool :=
  let n := nat_of_ascii c in (Nat.leb 65 n && Nat.leb n 90)%bool.
Definition is_lower (c : ascii) : bool :=
  let n := nat_of_ascii c in (Nat.leb 97 n && Nat.leb n 122)%bool.
Definition is_digit (c : ascii) : bool :=
  let n := nat_of_ascii c in (Nat.leb 48 n && Nat.leb n 57)%bool.
(** [\s] on ASCII: tab, line feed, vertical tab, form feed, carriage
    return, space. *)
Definition is_space (c : ascii) : bool :=
  let n := nat_of_ascii c in ((Nat.leb 9 n && Nat.leb n 13) || Nat.eqb n 32)%bool.

Definition lower_char (c : ascii) : ascii :=
  if is_upper c then ascii_of_nat (nat_of_ascii c + 32) else c.

(** [String.prototype.toLowerCase] *)
Fixpoint toLowerCase (s : string) : string :=
  match s with
  | EmptyString => EmptyString
  | String c s' => String (lower_char c) (toLowerCase s')
  end.

(** [String.prototype.includes] *)
Fixpoint includes (s sub : string) : bool :=
  (String.prefix sub s ||
   match s with
   | EmptyString => false
   | String _ s' => includes s' sub
   end)%bool.

Fixpoint drop_chars (n : nat) (s : string) : string :=
  match n, s with
  | O, _ => s
  | S n', String _ s' => drop_chars n' s'
  | S _, EmptyString => EmptyString
  end.

(** [String.prototype.substr(start, length)] for [start], [length] >= 0 *)
Definition substr (start len : nat) (s : string) : string := String.substring start len s.

(** [Array.prototype.join] *)
Fixpoint join (sep : string) (l : list string) : string :=
  match l with
  | [] => EmptyString
  | [x] => x
  | x :: l' => x +:+ sep +:+ join sep l'
  end.

(** The decimal numeral of an integer, as a template literal prints it. *)
Definition string_of_Z (z : Z) : string := NilZero.string_of_int (Z.to_int z).

(** [Array.prototype.some] *)
Definition some {A : Type} (f : A -> bool) (l : list A) : bool := existsb f l.

(** [x ? f(x) : ''] and [x || d] for a [string | null]: [null] and the
    empty string are falsy. *)
Definition if_truthy (o : option string) (f : string -> string) : string :=
  match o with
  | Some s => if String.eqb s EmptyString then EmptyString else f s
  | None => EmptyString
  end.

Definition or_else (o : option string) (d : string) : string :=
  match o with
  | Some s => if String.eqb s EmptyString then d else s
  | None => d
  end.

(** *** Regular expressions

    The fragment the sources use: literals, character classes, greedy
    [class+], sequence, alternation (left alternative first) and capturing
    groups, matched by backtracking at the leftmost position that admits a
    match, as [String.prototype.match] does for a pattern without flags.
    Captures are listed in the order their groups close. *)
Inductive regex :=
| Lit (s : string)
| Class (p : ascii -> bool)
| Plus (p : ascii -> bool)
| Seq (r1 r2 : regex)
| Alt (r1 r2 : regex)
| Group (r : regex).

Section Match.
Context {R : Type}.

Fixpoint star (p : ascii -> bool) (s : string) (k : string -> option R) : option R :=
  match s with
  | String c s' =>
      if p c then
        match star p s' k with
        | Some r => Some r
        | None => k s
        end
      else k s
  | EmptyString => k s
  end.

Definition plus (p : ascii -> bool) (s : string) (k : string -> option R) : option R :=
  match s with
  | String c s' => if p c then star p s' k else None
  | EmptyString => None
  end.

Fixpoint match_at (r : regex) (s : string) (caps : list string)
    (k : string -> list string -> option R) : option R :=
  match r with
  | Lit l =>
      if String.prefix l s then k (drop_chars (String.length l) s) caps else None
  | Class p =>
      match s with
      | String c s' => if p c then k s' caps else None
      | EmptyString => None
      end
  | Plus p => plus p s (fun s' => k s' caps)
  | Seq r1 r2 => match_at r1 s caps (fun s1 caps1 => match_at r2 s1 caps1 k)
  | Alt r1 r2 =>
      match match_at r1 s caps k with
      | Some x => Some x
      | None => match_at r2 s caps k
      end
  | Group r' =>
      match_at r' s caps
        (fun s' caps' =>
           k s' (caps' ++ [String.substring 0 (String.length s - String.length s') s])%list)
  end.
End Match.

(** [s.match(r)]: the matched text and the captures of the leftmost
    match, [None] for [null]. *)
Fixpoint re_match (r : regex) (s : string) : option (string * list string) :=
  match match_at r s []
          (fun s' caps =>
             Some (String.substring 0 (String.length s - String.length s') s, caps)) with
  | Some x => Some x
  | None =>
      match s with
      | String _ s' => re_match r s'
      | EmptyString => None
      end
  end.

End Js.

(** ** shared/schema: tasks, messages, progress snapshots *)

(** The [status] column is a text column that only ever receives the four
    literals of the schema comment ([createTask] writes ["pending"], the
    processors write the other three). *)
Inductive TaskStatus := pending | processing | completed | failed.

Global Instance TaskStatus_eq_dec : EqDecision TaskStatus.
Proof. solve_decision. Defined.

Record Task := mkTask {
  task_id : Z;
  task_prompt : string;
  task_status : TaskStatus;
  task_createdAt : Z;
  task_completedAt : option Z
}.

(** [InsertTask]: the validated body of a submission. *)
Record InsertTask := mkInsertTask { it_prompt : string }.

(** [metadata] is an opaque JSON payload; both processors always store
    [null]. *)
Record InsertMessage := mkInsertMessage {
  im_taskId : Z;
  im_agent : string;
  im_message : string;
  im_messageType : string;
  im_metadata : option string
}.

Record Message := mkMessage {
  msg_id : Z;
  msg_taskId : Z;
  msg_agent : string;
  msg_message : string;
  msg_messageType : string;
  msg_timestamp : Z;
  msg_metadata : option string
}.

Inductive AgentState := idle | active | complete.

Record AgentStatus := mkAgentStatus {
  as_supervisor : AgentState;
  as_phone : AgentState;
  as_venmo : AgentState
}.

(** [timestamp.toISOString()] is kept as the millisecond value. *)
Record CurrentMessage := mkCurrentMessage {
  cm_agent : string;
  cm_message : string;
  cm_messageType : string;
  cm_timestamp : Z
}.

Record TaskProgress := mkTaskProgress {
  tp_taskId : Z;
  tp_progress : Q;
  tp_status : TaskStatus;
  tp_agentStatus : AgentStatus;
  tp_currentMessage : option CurrentMessage
}.

(** ** server/storage: [MemStorage] *)

Module Storage.

Record MemStorage := mkStore {
  tasks : gmap Z Task;
  messages : list (Z * Message);
  currentTaskId : Z;
  currentMessageId : Z
}.

(** [new MemStorage()] *)
Definition empty : MemStorage :=
  {| tasks := ∅; messages := []; currentTaskId := 1; currentMessageId := 1 |}.

Definition createTask (insertTask : InsertTask) (now : Z) (st : MemStorage)
  : Task * MemStorage :=
  let id := currentTaskId st in
  let task := {| task_id := id;
                 task_prompt := it_prompt insertTask;
                 task_status := pending;
                 task_createdAt := now;
                 task_completedAt := None |} in
  (task, {| tasks := <[id := task]> (tasks st);
            messages := messages st;
            currentTaskId := id + 1;
            currentMessageId := currentMessageId st |}).

Definition getTask (id : Z) (st : MemStorage) : option Task := tasks st !! id.

(** [{ ...task, status, completedAt: completedAt || null }]; a [Date]
    object is always truthy. *)
Definition updateTaskStatus (id : Z) (status : TaskStatus) (completedAt : option Z)
    (st : MemStorage) : option Task * MemStorage :=
  match tasks st !! id with
  | Some task =>
      let updatedTask := {| task_id := task_id task;
                            task_prompt := task_prompt task;
                            task_status := status;
                            task_createdAt := task_createdAt task;
                            task_completedAt := completedAt |} in
      (Some updatedTask,
       {| tasks := <[id := updatedTask]> (tasks st);
          messages := messages st;
          currentTaskId := currentTaskId st;
          currentMessageId := currentMessageId st |})
  | None => (None, st)
  end.

Definition createMessage (insertMessage : InsertMessage) (now : Z) (st : MemStorage)
  : Message * MemStorage :=
  let id := currentMessageId st in
  let message := {| msg_id := id;
                    msg_taskId := im_taskId insertMessage;
                    msg_agent := im_agent insertMessage;
                    msg_message := im_message insertMessage;
                    msg_messageType := im_messageType insertMessage;
                    msg_timestamp := now;
                    msg_metadata := im_metadata insertMessage |} in
  (message, {| tasks := tasks st;
               messages := Js.map_set id message (messages st);
               currentTaskId := currentTaskId st;
               currentMessageId := id + 1 |}).

(** [(a, b) => a.timestamp.getTime() - b.timestamp.getTime()] *)
Definition by_timestamp (a b : Message) : Z := msg_timestamp a - msg_timestamp b.

Definition for_task (taskId : Z) (m : Message) : bool := msg_taskId m =? taskId.

Definition getTaskMessages (taskId : Z) (st : MemStorage) : list Message :=
  Js.sort by_timestamp
    (List.filter (for_task taskId) (Js.map_values (messages st))).

Definition getLatestMessage (taskId : Z) (st : MemStorage) : option Message :=
  Js.last_elem (getTaskMessages taskId st).

(** A history of the store: the calls that change it, in the order they
    are made, each with the clock reading it sees. *)
Inductive Op :=
| OpCreateTask (insertTask : InsertTask) (now : Z)
| OpUpdateTaskStatus (id : Z) (status : TaskStatus) (completedAt : option Z)
| OpCreateMessage (insertMessage : InsertMessage) (now : Z).

Definition apply (op : Op) (st : MemStorage) : MemStorage :=
  match op with
  | OpCreateTask insertTask now => snd (createTask insertTask now st)
  | OpUpdateTaskStatus id status completedAt => snd (updateTaskStatus id status completedAt st)
  | OpCreateMessage insertMessage now => snd (createMessage insertMessage now st)
  end.

Definition run (ops : list Op) (st : MemStorage) : MemStorage :=
  fold_left (fun st op => apply op st) ops st.

(** The messages the [createMessage] calls of a history return, in the
    order of the calls. *)
Fixpoint emitted (ops : list Op) (st : MemStorage) : list Message :=
  match ops with
  | [] => []
  | OpCreateMessage insertMessage now :: rest =>
      fst (createMessage insertMessage now st)
        :: emitted rest (snd (createMessage insertMessage now st))
  | op :: rest => emitted rest (apply op st)
  end.

(** The clock readings of the [createMessage] calls of a history. *)
Fixpoint message_clock (ops : list Op) : list Z :=
  match ops with
  | [] => []
  | OpCreateMessage _ now :: rest => now :: message_clock rest
  | _ :: rest => message_clock rest
  end.

Definition timestamp_le (a b : Message) : Prop := msg_timestamp a <= msg_timestamp b.

Definition has_timestamp (ts : Z) (m : Message) : bool := msg_timestamp m =? ts.

(** Every stored message has an id below the counter, so [createMessage]
    always adds a new key: the map lists the messages in creation order. *)
Definition keys_below (st : MemStorage) : Prop :=
  Forall (fun k => k < currentMessageId st) (Js.map_keys (messages st)).

End Storage.

(** ** server/services/agentService: the local heuristic generator *)

(** One step of a conversation flow. *)
Record Step := mkStep {
  step_agent : string;
  step_message : string;
  step_messageType : string;
  step_metadata : option string
}.

(** The draws of [Math.random()] one flow consumes: the decimal text of the
    draw behind the transaction id, and the two draws behind the phone
    number. *)
Record Random := mkRandom {
  rnd_transaction : string;
  rnd_area : Q;
  rnd_line : Q
}.

Module Generator.

Definition paymentKeywords : list string :=
  ["send"; "pay"; "transfer"; "venmo"; "$"; "money"; "payment"].

Definition callKeywords : list string :=
  ["call"; "phone"; "contact"; "speak"; "talk"; "confirm"; "ask"].

Definition containsPaymentKeywords (prompt : string) : bool :=
  Js.some (fun keyword => Js.includes (Js.toLowerCase prompt) keyword) paymentKeywords.

Definition containsCallKeywords (prompt : string) : bool :=
  Js.some (fun keyword => Js.includes (Js.toLowerCase prompt) keyword) callKeywords.

(** [/\$(\d+)/] *)
Definition amount_pattern : Js.regex :=
  Js.Seq (Js.Lit "$") (Js.Group (Js.Plus Js.is_digit)).

Definition extractAmount (prompt : string) : option string :=
  match Js.re_match amount_pattern prompt with
  | Some (whole, _) => Some whole
  | None => None
  end.

(** [[A-Z][a-z]+] *)
Definition capitalized : Js.regex := Js.Seq (Js.Class Js.is_upper) (Js.Plus Js.is_lower).

(** [/(?:to|send|pay|call)\s+([A-Z][a-z]+)/] and
    [/([A-Z][a-z]+)(?:\s+via|\s+and)/] *)
Definition recipient_patterns : list Js.regex :=
  [ Js.Seq (Js.Alt (Js.Lit "to") (Js.Alt (Js.Lit "send") (Js.Alt (Js.Lit "pay") (Js.Lit "call"))))
      (Js.Seq (Js.Plus Js.is_space) (Js.Group capitalized));
    Js.Seq (Js.Group capitalized)
      (Js.Alt (Js.Seq (Js.Plus Js.is_space) (Js.Lit "via"))
              (Js.Seq (Js.Plus Js.is_space) (Js.Lit "and"))) ].

Fixpoint first_capture (patterns : list Js.regex) (prompt : string) : option string :=
  match patterns with
  | [] => None
  | pattern :: rest =>
      match Js.re_match pattern prompt with
      | Some (_, caps) => nth_error caps 0
      | None => first_capture rest prompt
      end
  end.

Definition extractRecipient (prompt : string) : option string :=
  first_capture recipient_patterns prompt.

Definition extractSubtasks (prompt : string) (needsPayment needsCall : bool) : list string :=
  ((if needsPayment then
      let amount := extractAmount prompt in
      let recipient := extractRecipient prompt in
      ["Venmo payment " +:+ Js.if_truthy amount (fun amount => "of " +:+ amount)
         +:+ " " +:+ Js.if_truthy recipient (fun recipient => "to " +:+ recipient)]
    else [])
   ++ (if needsCall then
         let recipient := extractRecipient prompt in
         ["Phone call " +:+ Js.if_truthy recipient (fun recipient => "to " +:+ recipient)
            +:+ " for confirmation"]
       else [])
   ++ (if (Js.includes (Js.toLowerCase prompt) "dinner"
           || Js.includes (Js.toLowerCase prompt) "plans")%bool
       then ["Discuss future plans"] else []))%list.

Definition generateVenmoFlow (prompt : string) (rnd : Random) : list Step :=
  let amount := Js.or_else (extractAmount prompt) "$50" in
  let recipient := Js.or_else (extractRecipient prompt) "John" in
  [ mkStep "supervisor" "Delegating payment task to Venmo Agent..." "delegation" None;
    mkStep "venmo" ("Received payment request: " +:+ amount +:+ " to " +:+ recipient)
      "acknowledgment" None;
    mkStep "venmo"
      ("Searching for contact " +:+ Js.dq +:+ recipient +:+ Js.dq +:+ " in Venmo contacts...")
      "processing" None;
    mkStep "venmo"
      ("Contact found: " +:+ recipient +:+ " Smith (@" +:+ Js.toLowerCase recipient +:+ "smith_venmo)")
      "success" None;
    mkStep "venmo"
      ("Initiating payment of " +:+ amount +:+ " with note: " +:+ Js.dq +:+ "Payment as requested"
         +:+ Js.dq)
      "action" None;
    mkStep "venmo"
      ("✅ Payment successful! Transaction ID: VM_" +:+ Js.substr 2 9 (rnd_transaction rnd))
      "success" None ].

Definition generateCallOutcome (prompt : string) : string :=
  if Js.includes (Js.toLowerCase prompt) "dinner" then
    "Plans confirmed for dinner this Friday at 7 PM."
  else if Js.includes (Js.toLowerCase prompt) "lunch" then
    "Lunch plans confirmed for tomorrow at noon."
  else if Js.includes (Js.toLowerCase prompt) "meeting" then
    "Meeting scheduled for next week."
  else "Plans discussed and confirmed.".

(** [Math.floor(Math.random() * scale + base)] for the draw [r] *)
Definition random_int (r : Q) (scale base : Z) : Z :=
  Qfloor (r * inject_Z scale + inject_Z base)%Q.

Definition generatePhoneFlow (prompt : string) (rnd : Random) : list Step :=
  let recipient := Js.or_else (extractRecipient prompt) "John" in
  let phoneNumber :=
    "(555) " +:+ Js.string_of_Z (random_int (rnd_area rnd) 900 100) +:+ "-"
      +:+ Js.string_of_Z (random_int (rnd_line rnd) 9000 1000) in
  [ mkStep "phone"
      ("Received call request for " +:+ recipient +:+ " to confirm payment and discuss plans")
      "acknowledgment" None;
    mkStep "phone" ("Looking up contact information for " +:+ recipient +:+ "...")
      "processing" None;
    mkStep "phone" ("Found contact: " +:+ recipient +:+ " Smith - " +:+ phoneNumber)
      "success" None;
    mkStep "phone" ("Initiating call to " +:+ recipient +:+ "...") "action" None;
    mkStep "phone" "📞 Call connected. Confirming Venmo payment..." "progress" None;
    mkStep "phone"
      (recipient +:+ " confirmed payment received. "
         +:+ (if Js.includes (Js.toLowerCase prompt) "dinner"
              then "Discussing Friday dinner plans..." else "Discussing plans..."))
      "progress" None;
    mkStep "phone" ("✅ Call completed. " +:+ generateCallOutcome prompt) "success" None ].

Definition generateFinalSummary (prompt : string) (needsPayment needsCall : bool) : string :=
  let amount := Js.or_else (extractAmount prompt) "$50" in
  let recipient := Js.or_else (extractRecipient prompt) "John" in
  let summary :=
    "All tasks completed successfully!" +:+ Js.nl +:+ Js.nl +:+ "📋 Summary:" +:+ Js.nl in
  let summary :=
    if needsPayment
    then summary +:+ "• " +:+ amount +:+ " sent to " +:+ recipient +:+ " via Venmo ✅" +:+ Js.nl
    else summary in
  let summary :=
    if needsCall then summary +:+ "• Confirmation call completed ✅" +:+ Js.nl else summary in
  if Js.includes (Js.toLowerCase prompt) "dinner" then
    summary +:+ "• Dinner plans confirmed for Friday 7 PM ✅"
  else if Js.includes (Js.toLowerCase prompt) "lunch" then
    summary +:+ "• Lunch plans confirmed ✅"
  else if needsCall then
    summary +:+ "• Plans discussed and confirmed ✅"
  else summary.

(** [subtasks.map((task, i) => `${i + 1}. ${task}`)] *)
Fixpoint number_from (i : Z) (subtasks : list string) : list string :=
  match subtasks with
  | [] => []
  | task :: rest => (Js.string_of_Z (i + 1) +:+ ". " +:+ task) :: number_from (i + 1) rest
  end.

Definition generateConversationFlow (prompt : string) (rnd : Random) : list Step :=
  let needsPayment := containsPaymentKeywords prompt in
  let needsCall := containsCallKeywords prompt in
  let subtasks := extractSubtasks prompt needsPayment needsCall in
  ([ mkStep "supervisor" ("Analyzing task: " +:+ Js.dq +:+ prompt +:+ Js.dq) "analysis" None;
     mkStep "supervisor"
       ("Breaking down into subtasks:" +:+ Js.nl +:+ Js.join Js.nl (number_from 0 subtasks))
       "planning" None ]
   ++ (if needsPayment then generateVenmoFlow prompt rnd else [])
   ++ (if (needsPayment && needsCall)%bool
       then [ mkStep "supervisor"
                "Payment completed successfully. Now delegating call task to Phone Agent..."
                "coordination" None ]
       else [])
   ++ (if needsCall then generatePhoneFlow prompt rnd else [])
   ++ [ mkStep "supervisor" (generateFinalSummary prompt needsPayment needsCall)
          "completion" None ])%list.

End Generator.

(** ** The two task processors

    [AgentService] (local heuristic generator) and [ExternalAgentService]
    (external oracle) share the shape of [processTask] and of
    [getTaskProgress]; they differ in how the flow is obtained, in the
    pacing delay and in the expected number of steps. *)

Inductive Service := Local | External.

(** *** JSON values

    What [JSON.parse] and the body parser build.  An object is given by
    its own properties, keys distinct, in the order in which [Object.keys]
    and [Object.entries] list them. *)
#[warnings="-register-all"] Inductive Json :=
| JNull
| JBool (b : bool)
| JNumber (q : Q)
| JString (s : string)
| JArray (items : list Json)
| JObject (entries : list (string * Json)).

Fixpoint field (key : string) (entries : list (string * Json)) : option Json :=
  match entries with
  | [] => None
  | (k, v) :: rest => if String.eqb k key then Some v else field key rest
  end.

(** What both processors read of an element [x] of the reply: its first
    key with the value under it, [Object.keys(x)[0]] and [x[key]] in
    routes.ts, [Object.entries(x)[0]] in [parseAPIResponse].  On [null]
    both calls throw.  A number, a boolean, the empty string, [[]] and [{}]
    have no own enumerable property.  The first key of a non-empty array is
    ["0"]; so is that of a non-empty string, and the value under it is the
    first UTF-16 unit of the string: its first character when that is an
    ASCII character.  A string that starts otherwise is [OfString]: what
    the sources do with it is not followed. *)
Inductive Entry :=
| OfNull
| NoEntry
| FirstEntry (key : string) (value : Json)
| OfString (s : string).

Definition is_ascii (c : ascii) : bool := Nat.ltb (nat_of_ascii c) 128.

Definition first_entry (x : Json) : Entry :=
  match x with
  | JNull => OfNull
  | JBool _ | JNumber _ => NoEntry
  | JString EmptyString => NoEntry
  | JString (String c _ as s) =>
      if is_ascii c then FirstEntry "0" (JString (String c EmptyString)) else OfString s
  | JArray [] => NoEntry
  | JArray (value :: _) => FirstEntry "0" value
  | JObject [] => NoEntry
  | JObject ((key, value) :: _) => FirstEntry key value
  end.

(** The elements of a string, by index or by iteration: its characters,
    for a string of ASCII characters; [None] for another string, which is
    not followed. *)
Fixpoint units (s : string) : option (list Json) :=
  match s with
  | EmptyString => Some []
  | String c s' =>
      if is_ascii c then
        match units s' with
        | Some rest => Some (JString (String c EmptyString) :: rest)
        | None => None
        end
      else None
  end.

(** *** What the oracle endpoint answers

    [response.ok] is the Fetch API's: the status is in 200..299.  The body is
    represented by what [JSON.parse] makes of its text: either a
    [SyntaxError] with the engine's message, or a JSON value. *)
Inductive OracleBody :=
| NotJson (message : string)
| JsonValue (value : Json).

(** An element of a reply as the oracle is meant to give it: an object
    with one entry, the agent's key and its text; [None] stands for a
    [null] element. *)
Definition item_json (item : option (string * string)) : Json :=
  match item with
  | Some (key, message) => JObject [(key, JString message)]
  | None => JNull
  end.

(** The reply that is the array of such elements. *)
Definition JsonItems (items : list (option (string * string))) : OracleBody :=
  JsonValue (JArray (map item_json items)).

(** What is thrown while a reply is read: the [TypeError] of
    [Object.entries(null)] and [Object.keys(null)], whose message is
    [null_item_error], or another [TypeError] of the engine (a property of
    [undefined] or [null] is read, what is called is no function, what is
    iterated is not iterable), whose message is the engine's. *)
Inductive Thrown := NullToObject | EngineTypeError.

Definition null_item_error : string := "Cannot convert undefined or null to object".

Record Response := mkResponse {
  resp_status : Z;
  resp_statusText : string;
  resp_body : OracleBody
}.

Definition resp_ok (r : Response) : bool :=
  ((200 <=? resp_status r) && (resp_status r <=? 299))%bool.

(** [await fetch(...)]: rejected with an error, or fulfilled with a response *)
Inductive FetchResult :=
| FetchFailed (message : string)
| Fetched (r : Response).

(** What the environment supplies when a suspended run continues: the clock,
    the random draws, the outcome of the pending request, and the message
    the engine gives a [TypeError] it raises in this step. *)
Record Input := mkInput {
  in_now : Z;
  in_random : Random;
  in_fetch : FetchResult;
  in_typeError : string
}.

Definition thrown_message (inp : Input) (t : Thrown) : string :=
  match t with
  | NullToObject => null_item_error
  | EngineTypeError => in_typeError inp
  end.

Module ExternalGen.

Definition getMessageType (message : string) : string :=
  let lowerMessage := Js.toLowerCase message in
  if (Js.includes lowerMessage "let's go to" || Js.includes lowerMessage "delegating")%bool
  then "delegation"
  else if (Js.includes lowerMessage "transaction id"
           || Js.includes lowerMessage "sent successfully")%bool
  then "success"
  else if (Js.includes lowerMessage "send" || Js.includes lowerMessage "retrieve"
           || Js.includes lowerMessage "identify")%bool
  then "action"
  else if (Js.includes lowerMessage "contact" || Js.includes lowerMessage "email"
           || Js.includes lowerMessage "amount")%bool
  then "processing"
  else if (Js.includes lowerMessage "your" && Js.includes lowerMessage "has been")%bool
  then "completion"
  else "processing".

Definition parseItem (item : string * string) : Step :=
  let '(agentKey, message) := item in
  if String.eqb agentKey "User" then mkStep "user" message "input" None
  else if String.eqb agentKey "Supervisor"
  then mkStep "supervisor" message (getMessageType message) None
  else if String.eqb agentKey "phone_agent"
  then mkStep "phone" message (getMessageType message) None
  else if String.eqb agentKey "venmo_agent"
  then mkStep "venmo" message (getMessageType message) None
  else mkStep (Js.toLowerCase agentKey) message "processing" None.

(** The keys under which [getMessageType] is called on the value. *)
Definition agent_key (agentKey : string) : bool :=
  (String.eqb agentKey "Supervisor" || String.eqb agentKey "phone_agent"
   || String.eqb agentKey "venmo_agent")%bool.

(** One turn of the loop of [parseAPIResponse].  [Object.entries(null)]
    throws; an element without entry makes the destructuring of
    [undefined] throw; under the three keys of [agent_key] a value that is
    no string makes [message.toLowerCase()] throw.  Under any other key
    such a value is pushed as it is, as the [message] of a step, although
    it is no string: [ItemBeyond], what follows is outside the types of
    the schema and is not followed. *)
Inductive ItemResult :=
| ItemStep (step : Step)
| ItemThrows (t : Thrown)
| ItemBeyond.

Definition parseElement (item : Json) : ItemResult :=
  match first_entry item with
  | OfNull => ItemThrows NullToObject
  | NoEntry => ItemThrows EngineTypeError
  | FirstEntry agentKey (JString message) => ItemStep (parseItem (agentKey, message))
  | FirstEntry agentKey _ =>
      if agent_key agentKey then ItemThrows EngineTypeError else ItemBeyond
  | OfString _ => ItemBeyond
  end.

(** What [parseAPIResponse] comes to: the flow, or the error thrown at the
    first element that throws, or [Beyond] when no element throws and one
    of them is not followed. *)
Inductive Parsed :=
| Flow (flow : list Step)
| Threw (t : Thrown)
| Beyond.

Fixpoint parseItems (items : list Json) : Parsed :=
  match items with
  | [] => Flow []
  | item :: rest =>
      match parseElement item with
      | ItemThrows t => Threw t
      | ItemStep step =>
          match parseItems rest with
          | Flow flow => Flow (step :: flow)
          | other => other
          end
      | ItemBeyond =>
          match parseItems rest with
          | Threw t => Threw t
          | _ => Beyond
          end
      end
  end.

(** [for (const item of apiResponse)]: an array gives its elements, a
    string its characters; [null], a boolean, a number and an object are
    not iterable. *)
Definition parseAPIResponse (apiResponse : Json) : Parsed :=
  match apiResponse with
  | JArray items => parseItems items
  | JString s =>
      match units s with
      | Some items => parseItems items
      | None => Beyond
      end
  | _ => Threw EngineTypeError
  end.

(** [`API call failed: ${response.status} ${response.statusText}`] *)
Definition api_failure (r : Response) : string :=
  "API call failed: " +:+ Js.string_of_Z (resp_status r) +:+ " " +:+ resp_statusText r.

End ExternalGen.

Module Processor.

(** The state a service instance works on: the storage singleton and its
    own [activeProcessing] map. *)
Record World := mkWorld {
  store : Storage.MemStorage;
  activeProcessing : gmap Z bool
}.

Definition init : World := {| store := Storage.empty; activeProcessing := ∅ |}.

Definition with_store (f : Storage.MemStorage -> Storage.MemStorage) (w : World) : World :=
  {| store := f (store w); activeProcessing := activeProcessing w |}.

Definition set_active (taskId : Z) (b : bool) (w : World) : World :=
  {| store := store w; activeProcessing := <[taskId := b]> (activeProcessing w) |}.

(** [this.activeProcessing.get(taskId)] as a condition *)
Definition is_active (taskId : Z) (w : World) : bool :=
  match activeProcessing w !! taskId with
  | Some b => b
  | None => false
  end.

(** Where a run of [processTask] is suspended, named after the [await] it
    waits on: [storage.updateTaskStatus(taskId, "processing")]; [fetch(...)]
    and [response.text()] in [callExternalAPI] (external service only);
    [this.delay(...)] before step [i] is written; [storage.createMessage]
    of step [i]; [storage.updateTaskStatus(taskId, "completed", new Date())];
    [storage.updateTaskStatus(taskId, "failed")] in the [catch] block.
    [NotFollowed] is where a run is left that goes on with a reply read
    outside the types of the schema ([ExternalGen.Beyond]): the run is in
    flight and no input takes it further. *)
Inductive Pc :=
| AwaitProcessing
| AwaitFetch
| AwaitText (r : Response)
| AwaitDelay (flow : list Step) (i : nat) (step : Step)
| AwaitCreate (flow : list Step) (i : nat)
| AwaitCompleted
| AwaitFailed (error : string)
| NotFollowed.

Inductive Outcome :=
| Suspended (pc : Pc)
| Resolved
| Rejected (error : string).

Definition already_processing : string := "Task is already being processed".

(** The head of the [for] loop at index [i]: [conversationFlow[i]] is
    read while [i < conversationFlow.length]; after the last step the task
    is marked completed. *)
Definition loop_head (taskId : Z) (flow : list Step) (i : nat) (now : Z) (w : World)
  : World * Outcome :=
  match nth_error flow i with
  | Some step => (w, Suspended (AwaitDelay flow i step))
  | None =>
      (with_store (fun st => snd (Storage.updateTaskStatus taskId completed (Some now) st)) w,
       Suspended AwaitCompleted)
  end.

(** The [catch] block, entered with the error thrown in the [try]. *)
Definition catch (taskId : Z) (error : string) (w : World) : World * Outcome :=
  (with_store (fun st => snd (Storage.updateTaskStatus taskId failed None st)) w,
   Suspended (AwaitFailed error)).

(** [processTask(taskId, prompt)] up to its first [await]. *)
Definition processTask (taskId : Z) (prompt : string) (w : World) : World * Outcome :=
  if is_active taskId w then (w, Rejected already_processing)
  else
    let w := set_active taskId true w in
    (with_store (fun st => snd (Storage.updateTaskStatus taskId processing None st)) w,
     Suspended AwaitProcessing).

(** A suspended run continues until its next [await] or its end. *)
Definition resume (svc : Service) (inp : Input) (taskId : Z) (prompt : string) (pc : Pc)
    (w : World) : World * Outcome :=
  match pc with
  | AwaitProcessing =>
      match svc with
      | Local =>
          loop_head taskId (Generator.generateConversationFlow prompt (in_random inp)) 0
            (in_now inp) w
      | External => (w, Suspended AwaitFetch)
      end
  | AwaitFetch =>
      match in_fetch inp with
      | FetchFailed message => catch taskId message w
      | Fetched r =>
          if resp_ok r then (w, Suspended (AwaitText r))
          else catch taskId (ExternalGen.api_failure r) w
      end
  | AwaitText r =>
      match resp_body r with
      | NotJson message => catch taskId message w
      | JsonValue response =>
          match ExternalGen.parseAPIResponse response with
          | ExternalGen.Flow conversationFlow =>
              loop_head taskId conversationFlow 0 (in_now inp) w
          | ExternalGen.Threw t => catch taskId (thrown_message inp t) w
          | ExternalGen.Beyond => (w, Suspended NotFollowed)
          end
      end
  | AwaitDelay flow i step =>
      (with_store
         (fun st =>
            snd (Storage.createMessage
                   {| im_taskId := taskId;
                      im_agent := step_agent step;
                      im_message := step_message step;
                      im_messageType := step_messageType step;
                      im_metadata := step_metadata step |}
                   (in_now inp) st)) w,
       Suspended (AwaitCreate flow i))
  | AwaitCreate flow i => loop_head taskId flow (S i) (in_now inp) w
  | AwaitCompleted => (set_active taskId false w, Resolved)
  | AwaitFailed error => (set_active taskId false w, Rejected error)
  | NotFollowed => (w, Suspended NotFollowed)
  end.

(** [getTaskProgress]: the divisor is 17 in [AgentService] and 8 in
    [ExternalAgentService]. *)
Definition expectedSteps (svc : Service) : Z :=
  match svc with Local => 17 | External => 8 end.

Definition progress_of (svc : Service) (status : TaskStatus) (messages : list Message) : Q :=
  match status with
  | completed => 100
  | processing =>
      Qmin ((inject_Z (Z.of_nat (length messages)) / inject_Z (expectedSteps svc)) * 100) 95
  | _ => 0
  end%Q.

Definition agentStatus_of (status : TaskStatus) (latestMessage : option Message) : AgentStatus :=
  match status with
  | completed => mkAgentStatus complete complete complete
  | _ =>
      match latestMessage with
      | Some m =>
          if String.eqb (msg_agent m) "supervisor" then mkAgentStatus active idle idle
          else if String.eqb (msg_agent m) "phone" then mkAgentStatus idle active idle
          else if String.eqb (msg_agent m) "venmo" then mkAgentStatus idle idle active
          else mkAgentStatus idle idle idle
      | None => mkAgentStatus idle idle idle
      end
  end.

Definition getTaskProgress (svc : Service) (taskId : Z) (st : Storage.MemStorage)
  : option TaskProgress :=
  match Storage.getTask taskId st with
  | None => None
  | Some task =>
      let messages := Storage.getTaskMessages taskId st in
      let latestMessage := Js.last_elem messages in
      Some {| tp_taskId := taskId;
              tp_progress := progress_of svc (task_status task) messages;
              tp_status := task_status task;
              tp_agentStatus := agentStatus_of (task_status task) latestMessage;
              tp_currentMessage :=
                match latestMessage with
                | Some m => Some (mkCurrentMessage (msg_agent m) (msg_message m)
                                    (msg_messageType m) (msg_timestamp m))
                | None => None
                end |}
  end.

End Processor.

(** ** A service instance with its runs in flight

    Node runs one piece of code at a time; a run keeps control from one
    [await] to the next.  An execution is a sequence of events: a task is
    created, [processTask] is called, or one of the suspended runs
    continues. *)
Module System.

Record Run := mkRun {
  run_task : Z;
  run_prompt : string;
  run_pc : Processor.Pc
}.

Record State := mkState {
  world : Processor.World;
  runs : list Run
}.

Definition init : State := {| world := Processor.init; runs := [] |}.

Inductive Event :=
| CreateTask (prompt : string) (now : Z)
| Call (taskId : Z) (prompt : string)
| Resume (k : nat) (inp : Input).

Definition settle (k : nat) (r : Run) (res : Processor.World * Processor.Outcome)
    (s : State) : State :=
  match snd res with
  | Processor.Suspended pc =>
      {| world := fst res;
         runs := <[k := mkRun (run_task r) (run_prompt r) pc]> (runs s) |}
  | _ => {| world := fst res; runs := delete k (runs s) |}
  end.

Definition step (svc : Service) (ev : Event) (s : State) : State :=
  match ev with
  | CreateTask prompt now =>
      {| world := Processor.with_store
                    (fun st => snd (Storage.createTask (mkInsertTask prompt) now st))
                    (world s);
         runs := runs s |}
  | Call taskId prompt =>
      match Processor.processTask taskId prompt (world s) with
      | (w, Processor.Suspended pc) =>
          {| world := w; runs := runs s ++ [mkRun taskId prompt pc] |}
      | (w, _) => {| world := w; runs := runs s |}
      end
  | Resume k inp =>
      match runs s !! k with
      | Some r =>
          settle k r
            (Processor.resume svc inp (run_task r) (run_prompt r) (run_pc r) (world s)) s
      | None => s
      end
  end.

Definition exec (svc : Service) (evs : list Event) (s : State) : State :=
  fold_left (fun s ev => step svc ev s) evs s.

Definition reachable (svc : Service) (s : State) : Prop :=
  exists evs, s = exec svc evs init.

Definition status_of (taskId : Z) (s : State) : option TaskStatus :=
  task_status <$> Storage.getTask taskId (Processor.store (world s)).

Definition in_flight (taskId : Z) (s : State) : Prop :=
  exists r, r ∈ runs s /\ run_task r = taskId.

Definition calls (taskId : Z) (ev : Event) : bool :=
  match ev with
  | Call t _ => t =? taskId
  | _ => false
  end.

End System.

(** ** server/routes *)

Module Routes.

(** What [broadcast] is called with. *)
Inductive WsEvent :=
| TaskProgressEvent (data : TaskProgress)
| TaskCompletedEvent (data : TaskProgress)
| TaskErrorEvent (taskId : Z) (error : string).

(** The storage singleton and the log of the calls of [broadcast]; each
    call reaches the observers connected at that time. *)
Record Server := mkServer {
  store : Storage.MemStorage;
  sent : list WsEvent
}.

Definition with_store (f : Storage.MemStorage -> Storage.MemStorage) (srv : Server) : Server :=
  {| store := f (store srv); sent := sent srv |}.

Definition broadcast (ev : WsEvent) (srv : Server) : Server :=
  {| store := store srv; sent := sent srv ++ [ev] |}.

(** Where a run of [processTaskWithUpdates] is suspended: on the first
    status update, on [fetch], on [response.text()], on the
    [storage.createMessage] of step [i] (whose agent, text and type are
    kept for the broadcast that follows), on the pacing delay after step
    [i], and on the last status update, [completed] or, in the [catch]
    block, [failed].  [flow] is what the loop indexes, the elements of
    [conversationFlow].  [NotFollowed] is where a run is left that goes on
    with a value read outside the types of the schema: the run is in flight
    and no input takes it further. *)
Inductive Pc :=
| AwaitProcessing
| AwaitFetch
| AwaitText (r : Response)
| AwaitCreate (flow : list Json) (i : nat) (agentName stepMessage messageType : string)
| AwaitDelay (flow : list Json) (i : nat)
| AwaitCompleted
| AwaitFailed (error : string)
| NotFollowed.

Inductive Outcome :=
| Suspended (pc : Pc)
| Finished.

Definition agentName_of (stepKey : string) : string :=
  let agentName := Js.toLowerCase stepKey in
  let agentName := if String.eqb agentName "phone_agent" then "phone" else agentName in
  let agentName := if String.eqb agentName "venmo_agent" then "venmo" else agentName in
  agentName.

Definition messageType_of (agentName stepMessage : string) : string :=
  if (Js.includes stepMessage "Transaction ID" || Js.includes stepMessage "sent successfully")%bool
  then "success"
  else if Js.includes stepMessage "Let's go to" then "delegation"
  else if String.eqb agentName "user" then "user_input"
  else "processing".

Definition catch (taskId : Z) (error : string) (srv : Server) : Server * Outcome :=
  (with_store (fun st => snd (Storage.updateTaskStatus taskId failed None st)) srv,
   Suspended (AwaitFailed error)).

(** The head of the [for] loop at index [i]: the step is read and written
    to the store; after the last step the task is marked completed.  A
    [null] element makes [Object.keys] throw; for an element without entry
    [stepKey] is [undefined] and [stepKey.toLowerCase()] throws; a value
    that is [null], a boolean, a number or an object has no callable
    [includes], and [stepMessage.includes(...)] throws.  A value that is an
    array has one: it would be stored as the text of the message, and the
    run is not followed. *)
Definition loop_head (taskId : Z) (flow : list Json) (i : nat) (inp : Input)
    (srv : Server) : Server * Outcome :=
  match nth_error flow i with
  | Some step =>
      match first_entry step with
      | OfNull => catch taskId null_item_error srv
      | NoEntry => catch taskId (in_typeError inp) srv
      | FirstEntry stepKey (JString stepMessage) =>
          let agentName := agentName_of stepKey in
          let messageType := messageType_of agentName stepMessage in
          (with_store
             (fun st =>
                snd (Storage.createMessage
                       {| im_taskId := taskId;
                          im_agent := agentName;
                          im_message := stepMessage;
                          im_messageType := messageType;
                          im_metadata := None |} (in_now inp) st)) srv,
           Suspended (AwaitCreate flow i agentName stepMessage messageType))
      | FirstEntry _ (JArray _) => (srv, Suspended NotFollowed)
      | FirstEntry _ _ => catch taskId (in_typeError inp) srv
      | OfString _ => (srv, Suspended NotFollowed)
      end
  | None =>
      (with_store
         (fun st => snd (Storage.updateTaskStatus taskId completed (Some (in_now inp)) st)) srv,
       Suspended AwaitCompleted)
  end.

(** The loop is entered with what [JSON.parse] returned.  Of [null] the
    [length] cannot be read.  A boolean, a number and an object without a
    [length] key have none: [0 < undefined] is false and the loop is left at
    once.  A string is indexed by its characters.  An object with a
    [length] key is not followed. *)
Definition loop_enter (taskId : Z) (conversationFlow : Json) (inp : Input) (srv : Server)
  : Server * Outcome :=
  match conversationFlow with
  | JArray flow => loop_head taskId flow 0 inp srv
  | JString s =>
      match units s with
      | Some flow => loop_head taskId flow 0 inp srv
      | None => (srv, Suspended NotFollowed)
      end
  | JNull => catch taskId (in_typeError inp) srv
  | JBool _ | JNumber _ => loop_head taskId [] 0 inp srv
  | JObject entries =>
      match field "length" entries with
      | None => loop_head taskId [] 0 inp srv
      | Some _ => (srv, Suspended NotFollowed)
      end
  end.

(** [Math.min(20 + (i / conversationFlow.length) * 75, 95)] *)
Definition loop_progress (i len : nat) : Q :=
  Qmin (20 + (inject_Z (Z.of_nat i) / inject_Z (Z.of_nat len)) * 75) 95.

Definition loop_agent (agentName name : string) (i len : nat) : AgentState :=
  if String.eqb agentName name then active
  else if Nat.eqb i (len - 1) then complete else idle.

Definition initial_progress (taskId now : Z) : TaskProgress :=
  {| tp_taskId := taskId;
     tp_progress := 10;
     tp_status := processing;
     tp_agentStatus := mkAgentStatus active idle idle;
     tp_currentMessage :=
       Some (mkCurrentMessage "supervisor" "Making API call to external service..."
               "processing" now) |}.

Definition completed_progress (taskId : Z) : TaskProgress :=
  {| tp_taskId := taskId;
     tp_progress := 100;
     tp_status := completed;
     tp_agentStatus := mkAgentStatus complete complete complete;
     tp_currentMessage := None |}.

(** [processTaskWithUpdates(taskId, prompt, broadcast)] up to its first
    [await]. *)
Definition processTaskWithUpdates (taskId : Z) (prompt : string) (srv : Server)
  : Server * Outcome :=
  (with_store (fun st => snd (Storage.updateTaskStatus taskId processing None st)) srv,
   Suspended AwaitProcessing).

Definition resume (inp : Input) (taskId : Z) (prompt : string) (pc : Pc) (srv : Server)
  : Server * Outcome :=
  match pc with
  | AwaitProcessing =>
      (broadcast (TaskProgressEvent (initial_progress taskId (in_now inp))) srv,
       Suspended AwaitFetch)
  | AwaitFetch =>
      match in_fetch inp with
      | FetchFailed message => catch taskId message srv
      | Fetched r =>
          if resp_ok r then (srv, Suspended (AwaitText r))
          else catch taskId (ExternalGen.api_failure r) srv
      end
  | AwaitText r =>
      match resp_body r with
      | NotJson _ => catch taskId "Failed to parse API response" srv
      | JsonValue conversationFlow => loop_enter taskId conversationFlow inp srv
      end
  | AwaitCreate flow i agentName stepMessage messageType =>
      let len := length flow in
      (broadcast
         (TaskProgressEvent
            {| tp_taskId := taskId;
               tp_progress := loop_progress i len;
               tp_status := processing;
               tp_agentStatus :=
                 mkAgentStatus (loop_agent agentName "supervisor" i len)
                   (loop_agent agentName "phone" i len)
                   (loop_agent agentName "venmo" i len);
               tp_currentMessage :=
                 Some (mkCurrentMessage agentName stepMessage messageType (in_now inp)) |})
         srv,
       Suspended (AwaitDelay flow i))
  | AwaitDelay flow i => loop_head taskId flow (S i) inp srv
  | AwaitCompleted => (broadcast (TaskCompletedEvent (completed_progress taskId)) srv, Finished)
  | AwaitFailed error => (broadcast (TaskErrorEvent taskId error) srv, Finished)
  | NotFollowed => (srv, Suspended NotFollowed)
  end.

(** *** The submission endpoint

    [req.body] is the parsed JSON body, [None] when there is none. *)

(** zod's name for the type of a parsed value *)
Definition parsedType (v : option Json) : string :=
  match v with
  | None => "undefined"
  | Some JNull => "null"
  | Some (JBool _) => "boolean"
  | Some (JNumber _) => "number"
  | Some (JString _) => "string"
  | Some (JArray _) => "array"
  | Some (JObject _) => "object"
  end.

Record ZodIssue := mkIssue {
  issue_code : string;
  issue_expected : string;
  issue_received : string;
  issue_path : list string;
  issue_message : string
}.

Definition invalid_type (expected : string) (v : option Json) (path : list string) : ZodIssue :=
  {| issue_code := "invalid_type";
     issue_expected := expected;
     issue_received := parsedType v;
     issue_path := path;
     issue_message :=
       match v with
       | None => "Required"
       | Some _ => "Expected " +:+ expected +:+ ", received " +:+ parsedType v
       end |}.

(** [insertTaskSchema.parse(req.body)] with
    [insertTaskSchema = createInsertSchema(tasks).pick({ prompt: true })]:
    drizzle-zod turns the not-null text column [prompt] into a required
    [z.string()], with no constraint on its length; the object schema
    strips the other keys.  [inl] carries the issues of the [ZodError]. *)
Definition insertTaskSchema_parse (body : option Json) : list ZodIssue + InsertTask :=
  match body with
  | Some (JObject entries) =>
      match field "prompt" entries with
      | Some (JString prompt) => inr (mkInsertTask prompt)
      | v => inl [invalid_type "string" v ["prompt"]]
      end
  | v => inl [invalid_type "object" v []]
  end.

Inductive HttpResponse :=
| Ok (task : Task)                                           (* res.json(task) *)
| BadRequest (message : string) (errors : list ZodIssue).   (* res.status(400).json(...) *)

Record Run := mkRun {
  run_task : Z;
  run_prompt : string;
  run_pc : Pc
}.

Record State := mkState {
  server : Server;
  runs : list Run
}.

Definition init : State :=
  {| server := {| store := Storage.empty; sent := [] |}; runs := [] |}.

(** [app.post("/api/tasks", ...)]: the handler answers and then starts
    [processTaskWithUpdates] without waiting for it. *)
Definition post_tasks (body : option Json) (now : Z) (s : State) : HttpResponse * State :=
  match insertTaskSchema_parse body with
  | inr validatedData =>
      let '(task, st) := Storage.createTask validatedData now (store (server s)) in
      let srv := {| store := st; sent := sent (server s) |} in
      match processTaskWithUpdates (task_id task) (it_prompt validatedData) srv with
      | (srv', Suspended pc) =>
          (Ok task,
           {| server := srv';
              runs := runs s ++ [mkRun (task_id task) (it_prompt validatedData) pc] |})
      | (srv', Finished) => (Ok task, {| server := srv'; runs := runs s |})
      end
  | inl errors => (BadRequest "Validation error" errors, s)
  end.

Definition continue (k : nat) (inp : Input) (s : State) : State :=
  match runs s !! k with
  | Some r =>
      match resume inp (run_task r) (run_prompt r) (run_pc r) (server s) with
      | (srv, Suspended pc) =>
          {| server := srv; runs := <[k := mkRun (run_task r) (run_prompt r) pc]> (runs s) |}
      | (srv, Finished) => {| server := srv; runs := delete k (runs s) |}
      end
  | None => s
  end.

(** An execution of the server: submissions and continuations of
    suspended runs, in the order the event loop serves them. *)
Inductive Event :=
| Post (body : option Json) (now : Z)
| Continue (k : nat) (inp : Input).

Definition step (ev : Event) (s : State) : State :=
  match ev with
  | Post body now => snd (post_tasks body now s)
  | Continue k inp => continue k inp s
  end.

Definition exec (evs : list Event) (s : State) : State :=
  fold_left (fun s ev => step ev s) evs s.

Definition is_taskError (taskId : Z) (ev : WsEvent) : bool :=
  match ev with
  | TaskErrorEvent t _ => t =? taskId
  | _ => false
  end.

End Routes.

(** ** server/routes: the registry of observers and [broadcast] *)

Module Hub.

(** What [ws.send] is called with: the handshake or an event passed to
    [broadcast] ([JSON.stringify] is not modelled). *)
Inductive Frame :=
| ConnectedFrame (clientId : string)
| EventFrame (data : Routes.WsEvent).

(** A connection as the server sees it: its [readyState] (1 is OPEN),
    whether [send] raises, and the frames handed to it so far. *)
Record Socket := mkSocket {
  readyState : Z;
  send_raises : bool;
  outbox : list Frame
}.

(** [ws.send(frame)]: [None] when it raises. *)
Definition send (frame : Frame) (ws : Socket) : option Socket :=
  if send_raises ws then None
  else Some {| readyState := readyState ws;
               send_raises := send_raises ws;
               outbox := outbox ws ++ [frame] |}.

(** [clients], a [Map<string, any>] in insertion order. *)
Fixpoint map_set (k : string) (ws : Socket) (clients : list (string * Socket))
  : list (string * Socket) :=
  match clients with
  | [] => [(k, ws)]
  | (k', ws') :: rest =>
      if String.eqb k' k then (k, ws) :: rest else (k', ws') :: map_set k ws rest
  end.

Definition map_delete (k : string) (clients : list (string * Socket))
  : list (string * Socket) :=
  List.filter (fun entry => negb (String.eqb (fst entry) k)) clients.

Fixpoint map_get (k : string) (clients : list (string * Socket)) : option Socket :=
  match clients with
  | [] => None
  | (k', ws) :: rest => if String.eqb k' k then Some ws else map_get k rest
  end.

(** [wss.on('connection', ...)]: [random] is the text of
    [Math.random().toString(36)]; the client is registered, then greeted,
    and a failing greeting is only logged. *)
Definition connection (random : string) (ws : Socket) (clients : list (string * Socket))
  : list (string * Socket) :=
  let clientId := Js.drop_chars 7 random in
  match send (ConnectedFrame clientId) ws with
  | Some ws' => map_set clientId ws' clients
  | None => map_set clientId ws clients
  end.

(** The handlers of [ws.on('error')] and [ws.on('close')] of the client
    registered under [clientId]. *)
Definition closed (clientId : string) (clients : list (string * Socket))
  : list (string * Socket) :=
  map_delete clientId clients.

(** [broadcast(data)]: an open client is sent the frame; a client that is
    not open, or whose [send] raises, is deleted.  Deleting the entry being
    visited does not disturb [Map.prototype.forEach]. *)
Fixpoint broadcast (data : Routes.WsEvent) (clients : list (string * Socket))
  : list (string * Socket) :=
  match clients with
  | [] => []
  | (clientId, ws) :: rest =>
      if readyState ws =? 1 then
        match send (EventFrame data) ws with
        | Some ws' => (clientId, ws') :: broadcast data rest
        | None => broadcast data rest
        end
      else broadcast data rest
  end.

End Hub.

(** ** client/src/pages/home: the page's state and its handlers *)

(** The state hooks of [Home] that the socket handler and the mutation
    write; [prompt] and the two refs are written by neither.  [Date.now()]
    is the argument [now]; the payload of a frame is the value the server
    serialised, a frame that is not JSON is [None]. *)
Module Page.

Record State := mkState {
  currentTask : option Task;
  messages : list Message;
  progress : Q;
  agentStatus : AgentStatus;
  isProcessing : bool;
  taskCompleted : bool
}.

Definition initial : State :=
  {| currentTask := None;
     messages := [];
     progress := 0;
     agentStatus := mkAgentStatus idle idle idle;
     isProcessing := false;
     taskCompleted := false |}.

(** The updater passed to [setMessages]. *)
Definition add_message (now : Z) (progressData : TaskProgress) (currentMsg : CurrentMessage)
    (prev : list Message) : list Message :=
  let added :=
    (prev ++ [ {| msg_id := now;
                  msg_taskId := tp_taskId progressData;
                  msg_agent := cm_agent currentMsg;
                  msg_message := cm_message currentMsg;
                  msg_messageType := cm_messageType currentMsg;
                  msg_timestamp := cm_timestamp currentMsg;
                  msg_metadata := None |} ])%list in
  match nth_error prev (length prev - 1) with
  | None => added
  | Some lastMessage =>
      if (negb (String.eqb (msg_agent lastMessage) (cm_agent currentMsg))
          || negb (String.eqb (msg_message lastMessage) (cm_message currentMsg)))%bool
      then added
      else prev
  end.

(** [ws.onmessage]. *)
Definition onmessage (now : Z) (event : option Hub.Frame) (s : State) : State :=
  match event with
  | Some (Hub.EventFrame (Routes.TaskProgressEvent progressData)) =>
      {| currentTask := currentTask s;
         messages :=
           match tp_currentMessage progressData with
           | Some currentMsg => add_message now progressData currentMsg (messages s)
           | None => messages s
           end;
         progress := tp_progress progressData;
         agentStatus := tp_agentStatus progressData;
         isProcessing := isProcessing s;
         taskCompleted := taskCompleted s |}
  | Some (Hub.EventFrame (Routes.TaskCompletedEvent progressData)) =>
      {| currentTask := currentTask s;
         messages := messages s;
         progress := 100;
         agentStatus := tp_agentStatus progressData;
         isProcessing := false;
         taskCompleted := true |}
  | Some (Hub.EventFrame (Routes.TaskErrorEvent _ _)) =>
      {| currentTask := currentTask s;
         messages := messages s;
         progress := progress s;
         agentStatus := agentStatus s;
         isProcessing := false;
         taskCompleted := taskCompleted s |}
  | Some (Hub.ConnectedFrame _) => s
  | None => s
  end.

(** [onSuccess] of [createTaskMutation]. *)
Definition onSuccess (task : Task) (s : State) : State :=
  {| currentTask := Some task;
     messages := [];
     progress := 0;
     agentStatus := mkAgentStatus idle idle idle;
     isProcessing := true;
     taskCompleted := false |}.

(** [getMessageTypeClass]. *)
Definition getMessageTypeClass (messageType : string) : string :=
  if String.eqb messageType "success"
  then "border-l-4 border-green-500 bg-green-50 dark:bg-green-950"
  else if String.eqb messageType "action"
  then "border-l-4 border-blue-500 bg-blue-50 dark:bg-blue-950"
  else if String.eqb messageType "completion"
  then "border-l-4 border-green-500 bg-green-50 dark:bg-green-950"
  else if String.eqb messageType "processing"
  then "border-l-4 border-yellow-500 bg-yellow-50 dark:bg-yellow-950"
  else if String.eqb messageType "delegation"
  then "border-l-4 border-purple-500 bg-purple-50 dark:bg-purple-950"
  else if String.eqb messageType "user_input"
  then "border-l-4 border-gray-500 bg-gray-50 dark:bg-gray-900"
  else "bg-gray-50 dark:bg-gray-900".

End Page.

(** * Vocabulary of the statements *)

(** How far a status is along [pending -> processing -> completed | failed]. *)
Definition status_rank (s : TaskStatus) : Z :=
  match s with
  | pending => 0
  | processing => 1
  | completed | failed => 2
  end.

Definition terminal (s : TaskStatus) : bool :=
  match s with
  | completed | failed => true
  | _ => false
  end.

(** The suspension points reached after the terminal update of the status. *)
Definition pc_terminal (pc : Processor.Pc) : bool :=
  match pc with
  | Processor.AwaitCompleted | Processor.AwaitFailed _ => true
  | _ => false
  end.

(** What holds of every state a service instance reaches: at most one run
    is in flight per task id, the task id of a run in flight is marked
    active, a task in a terminal status has no run that could still write
    its status, and the ids of the stored tasks lie below the counter. *)
Record consistent (s : System.State) : Prop := mkConsistent {
  runs_distinct : NoDup (System.run_task <$> System.runs s);
  runs_active :
    forall r, r ∈ System.runs s ->
      Processor.is_active (System.run_task r) (System.world s) = true;
  runs_terminal :
    forall r task, r ∈ System.runs s ->
      Storage.getTask (System.run_task r) (Processor.store (System.world s)) = Some task ->
      terminal (task_status task) = true ->
      pc_terminal (System.run_pc r) = true;
  ids_below :
    forall t task,
      Storage.getTask t (Processor.store (System.world s)) = Some task ->
      t < Storage.currentTaskId (Processor.store (System.world s))
}.

(** A [processTask] call for a task that is already completed or failed. *)
Definition restarts (taskId : Z) (ev : System.Event) (s : System.State) : bool :=
  (System.calls taskId ev
   && match System.status_of taskId s with
      | Some status => terminal status
      | None => false
      end)%bool.

(** An execution in which no such call is made. *)
Fixpoint restart_free (svc : Service) (taskId : Z) (evs : list System.Event)
    (s : System.State) : bool :=
  match evs with
  | [] => true
  | ev :: rest =>
      (negb (restarts taskId ev s) && restart_free svc taskId rest (System.step svc ev s))%bool
  end.

(** What one task shows of a server state: its record, its messages, and
    the error events broadcast for it.  Runs of other tasks, served between
    two steps of a run, leave it as it is. *)
Definition undisturbed (taskId : Z) (a b : Routes.Server) : Prop :=
  Storage.getTask taskId (Routes.store b) = Storage.getTask taskId (Routes.store a)
  /\ Storage.getTaskMessages taskId (Routes.store b)
     = Storage.getTaskMessages taskId (Routes.store a)
  /\ List.filter (Routes.is_taskError taskId) (Routes.sent b)
     = List.filter (Routes.is_taskError taskId) (Routes.sent a).

(** * Sample data and executions *)

Section Samples.
Import Storage.

(** The prompt of the example of the specification. *)
Definition send_alex : string := "Send Alex $32.50".

(** A history used to exercise the statements below: one task, then four
    messages, two of them with the same clock reading. *)
Definition sample_history : list Op :=
  [ OpCreateTask (mkInsertTask "pay John $5") 5;
    OpCreateMessage (mkInsertMessage 1 "supervisor" "first" "analysis" None) 10;
    OpCreateMessage (mkInsertMessage 2 "venmo" "other task" "processing" None) 10;
    OpCreateMessage (mkInsertMessage 1 "venmo" "second" "processing" None) 10;
    OpCreateMessage (mkInsertMessage 1 "supervisor" "third" "completion" None) 12 ].

(** A history in which the clock is set back between two messages of a
    task: the readings are 20, then 10. *)
Definition backwards_history : list Op :=
  [ OpCreateTask (mkInsertTask "pay John $5") 5;
    OpCreateMessage (mkInsertMessage 1 "supervisor" "first" "analysis" None) 20;
    OpCreateMessage (mkInsertMessage 1 "venmo" "second" "processing" None) 10 ].

(** The store after a task was created at time 5 and completed at time
    1000. *)
Definition completed_store : MemStorage :=
  run [ OpCreateTask (mkInsertTask "pay John $5") 5;
        OpUpdateTaskStatus 1 completed (Some 1000) ] empty.

End Samples.

(** Executions of the server of [routes.ts]. *)

Definition no_random : Random := mkRandom "0.123456789012345" (1 # 2) (1 # 3).

Definition at_time (now : Z) : Input :=
  mkInput now no_random (FetchFailed "unused") "unused".

Definition reply_at (now : Z) (r : Response) : Input :=
  mkInput now no_random (Fetched r) "unused".

Definition sample_body : option Json :=
  Some (JObject [("prompt", JString "Send the money back to Cory")]).

(** An answer of the oracle with three steps. *)
Definition good_reply : Response :=
  mkResponse 200 "OK"
    (JsonItems [ Some ("User", "Send the money back to Cory");
                 Some ("Supervisor", "Let's go to the venmo agent");
                 Some ("venmo_agent", "Payment sent successfully") ]).

(** An answer whose second element is [null]. *)
Definition broken_reply : Response :=
  mkResponse 200 "OK" (JsonItems [ Some ("Supervisor", "Let's go to the venmo agent"); None ]).

Definition error_reply : Response := mkResponse 500 "Internal Server Error" (NotJson "unused").

(** A submission, the oracle's good answer, and the first message written. *)
Definition one_message : Routes.State :=
  Routes.exec [ Routes.Post sample_body 0;
                Routes.Continue 0 (at_time 1);
                Routes.Continue 0 (reply_at 2 good_reply);
                Routes.Continue 0 (at_time 3) ] Routes.init.

(** The same run two messages later. *)
Definition three_messages : Routes.State :=
  Routes.exec [ Routes.Continue 0 (at_time 4); Routes.Continue 0 (at_time 5);
                Routes.Continue 0 (at_time 6); Routes.Continue 0 (at_time 7);
                Routes.Continue 0 (at_time 8) ] one_message.

(** A submission answered by [broken_reply], after the first message. *)
Definition before_failure : Routes.State :=
  Routes.exec [ Routes.Post sample_body 0;
                Routes.Continue 0 (at_time 1);
                Routes.Continue 0 (reply_at 2 broken_reply);
                Routes.Continue 0 (at_time 3) ] Routes.init.

(** The same run once the [null] element has made the loop throw. *)
Definition after_failure : Routes.State :=
  Routes.exec [ Routes.Continue 0 (at_time 4); Routes.Continue 0 (at_time 5);
                Routes.Continue 0 (at_time 6) ] before_failure.

Definition store_of (s : Routes.State) : Storage.MemStorage := Routes.store (Routes.server s).

(** A complete run of [AgentService.processTask] on the prompt ["hello"],
    whose flow has three steps: the call, then the nine continuations. *)
Definition hello_created : System.State :=
  System.exec Local [System.CreateTask "hello" 0] System.init.

Definition hello_run : list System.Event :=
  System.Call 1 "hello"
    :: map (fun now => System.Resume 0 (at_time now)) [1; 2; 3; 4; 5; 6; 7; 8; 9].

Definition hello_started : System.State :=
  System.exec Local [System.Call 1 "hello"; System.Resume 0 (at_time 1)] hello_created.

Definition hello_done : System.State := System.exec Local hello_run hello_created.

(** * Vocabulary of the further properties *)

(** Every character of a string is in a class. *)
Fixpoint all_chars (p : ascii -> bool) (s : string) : bool :=
  match s with
  | EmptyString => true
  | String c s' => (p c && all_chars p s')%bool
  end.

(** What a pattern denotes: [Denotes r w caps] when the text [w] is an
    instance of [r] whose groups captured [caps], in the order they
    close. *)
Inductive Denotes : Js.regex -> string -> list string -> Prop :=
| DLit (l : string) : Denotes (Js.Lit l) l []
| DClass (p : ascii -> bool) (c : ascii) :
    p c = true -> Denotes (Js.Class p) (String c EmptyString) []
| DPlus (p : ascii -> bool) (c : ascii) (w : string) :
    p c = true -> all_chars p w = true -> Denotes (Js.Plus p) (String c w) []
| DSeq (r1 r2 : Js.regex) (w1 w2 : string) (c1 c2 : list string) :
    Denotes r1 w1 c1 -> Denotes r2 w2 c2 -> Denotes (Js.Seq r1 r2) (w1 +:+ w2) (c1 ++ c2)
| DAltL (r1 r2 : Js.regex) (w : string) (c : list string) :
    Denotes r1 w c -> Denotes (Js.Alt r1 r2) w c
| DAltR (r1 r2 : Js.regex) (w : string) (c : list string) :
    Denotes r2 w c -> Denotes (Js.Alt r1 r2) w c
| DGroup (r : Js.regex) (w : string) (c : list string) :
    Denotes r w c -> Denotes (Js.Group r) w (c ++ [w]).

(** [w] occurs in [s]. *)
Definition occurs_in (w s : string) : Prop := exists pre post, s = pre +:+ w +:+ post.

(** The text starts with a character of the class. *)
Definition begins_with (p : ascii -> bool) (s : string) : bool :=
  match s with
  | String c _ => p c
  | EmptyString => false
  end.

(** A dollar sign followed by a digit occurs in the text; the text starts
    with one. *)
Definition amount_in (s : string) : Prop :=
  exists d, Js.is_digit d = true /\ occurs_in ("$" +:+ String d EmptyString) s.

Definition starts_amount (s : string) : bool :=
  match s with
  | String c s' => (Ascii.eqb c "$" && begins_with Js.is_digit s')%bool
  | EmptyString => false
  end.

(** A capitalised word: an upper-case letter followed by at least one
    lower-case letter. *)
Definition capitalised_word (w : string) : Prop :=
  exists c c' rest,
    w = String c (String c' rest)
    /\ Js.is_upper c = true /\ Js.is_lower c' = true /\ all_chars Js.is_lower rest = true.

(** The agent and the type of each step of a flow. *)
Definition skeleton_of (flow : list Step) : list (string * string) :=
  map (fun step => (step_agent step, step_messageType step)) flow.

Definition venmo_skeleton : list (string * string) :=
  [ ("supervisor", "delegation"); ("venmo", "acknowledgment"); ("venmo", "processing");
    ("venmo", "success"); ("venmo", "action"); ("venmo", "success") ].

Definition phone_skeleton : list (string * string) :=
  [ ("phone", "acknowledgment"); ("phone", "processing"); ("phone", "success");
    ("phone", "action"); ("phone", "progress"); ("phone", "progress"); ("phone", "success") ].

(** The number of [createTask] calls of a history. *)
Fixpoint created_tasks (ops : list Storage.Op) : Z :=
  match ops with
  | [] => 0
  | Storage.OpCreateTask _ _ :: rest => 1 + created_tasks rest
  | _ :: rest => created_tasks rest
  end.

(** The [n] consecutive ids that start at [first]. *)
Fixpoint ids_from (first : Z) (n : nat) : list Z :=
  match n with
  | O => []
  | S n' => first :: ids_from (first + 1) n'
  end.

Section StoreVocabulary.
Import Storage.

(** The task ids in use are exactly those from 1 up to the counter. *)
Definition tasks_numbered (n : Z) (st : MemStorage) : Prop :=
  currentTaskId st = 1 + n
  /\ forall id,
       (is_Some (getTask id st) <-> 1 <= id <= n)
       /\ forall task, getTask id st = Some task -> task_id task = id.

(** What is known of a task once it has been created. *)
Definition holds_task (id : Z) (prompt : string) (createdAt : Z) (st : MemStorage) : Prop :=
  id < currentTaskId st
  /\ exists task,
       getTask id st = Some task
       /\ task_id task = id /\ task_prompt task = prompt /\ task_createdAt task = createdAt.

End StoreVocabulary.

(** The step types [parseAPIResponse] can assign. *)
Definition external_types : list string :=
  ["input"; "delegation"; "success"; "action"; "processing"; "completion"].

Definition is_string (v : Json) : bool :=
  match v with
  | JString _ => true
  | _ => false
  end.

(** The elements on which [parseAPIResponse] throws, with what is thrown:
    [null]; an element without entry; an element whose first entry is
    under one of the keys Supervisor, phone_agent and venmo_agent with a
    value that is no string. *)
Inductive ThrowsOn : Json -> Thrown -> Prop :=
| ThrowsOnNull (x : Json) :
    first_entry x = OfNull -> ThrowsOn x NullToObject
| ThrowsOnNoEntry (x : Json) :
    first_entry x = NoEntry -> ThrowsOn x EngineTypeError
| ThrowsOnValue (x : Json) (key : string) (value : Json) :
    first_entry x = FirstEntry key value ->
    ExternalGen.agent_key key = true -> is_string value = false ->
    ThrowsOn x EngineTypeError.

(** The JSON values [for ... of] cannot iterate. *)
Definition not_iterable (v : Json) : bool :=
  match v with
  | JArray _ | JString _ => false
  | _ => true
  end.

Global Instance AgentState_eq_dec : EqDecision AgentState.
Proof. solve_decision. Defined.

(** How many of the three agents of a snapshot are in a given state. *)
Definition agents_in (a : AgentState) (s : AgentStatus) : nat :=
  length (List.filter (fun x => if decide (x = a) then true else false)
            [as_supervisor s; as_phone s; as_venmo s]).

(** *** Runs taken to their end *)

(** A run is continued with the given inputs, one per suspension, until it
    ends or the inputs are used up. *)
Fixpoint drive (svc : Service) (inps : list Input) (taskId : Z) (prompt : string)
    (res : Processor.World * Processor.Outcome) : Processor.World * Processor.Outcome :=
  match inps, snd res with
  | inp :: rest, Processor.Suspended pc =>
      drive svc rest taskId prompt (Processor.resume svc inp taskId prompt pc (fst res))
  | _, _ => res
  end.

(** The inputs of the loop: two per step, one when the delay is over and
    one when the write is. *)
Definition interleave (pairs : list (Input * Input)) : list Input :=
  flat_map (fun ab => [fst ab; snd ab]) pairs.

(** The [createMessage] calls of the loop, each at the clock reading of
    the input that ends its delay. *)
Fixpoint writes (taskId : Z) (flow : list Step) (pairs : list (Input * Input))
  : list Storage.Op :=
  match flow, pairs with
  | step :: flow', (a, _) :: pairs' =>
      Storage.OpCreateMessage
        (mkInsertMessage taskId (step_agent step) (step_message step) (step_messageType step)
           (step_metadata step))
        (in_now a)
      :: writes taskId flow' pairs'
  | _, _ => []
  end.

(** The clock reading at which the loop is left: that of the last input
    of the loop, or of the input before the loop when the flow is empty. *)
Fixpoint end_time (now0 : Z) (pairs : list (Input * Input)) : Z :=
  match pairs with
  | [] => now0
  | (_, b) :: pairs' => end_time (in_now b) pairs'
  end.

(** What [callExternalAPI] and [parseAPIResponse] make of the outcome of
    the request, [text] being the input with which the body is read: the
    error they throw, or the flow, or a reply that is not followed. *)
Inductive Reply :=
| Fails (error : string)
| Gives (flow : list Step)
| Unfollowed.

Definition reply_flow (result : FetchResult) (text : Input) : Reply :=
  match result with
  | FetchFailed message => Fails message
  | Fetched r =>
      if resp_ok r then
        match resp_body r with
        | NotJson message => Fails message
        | JsonValue response =>
            match ExternalGen.parseAPIResponse response with
            | ExternalGen.Flow flow => Gives flow
            | ExternalGen.Threw t => Fails (thrown_message text t)
            | ExternalGen.Beyond => Unfollowed
            end
        end
      else Fails (ExternalGen.api_failure r)
  end.

(** A reply whose only element is [{}], and an input that carries the
    wording of the engine's [TypeError]. *)
Definition entryless_reply : Response := mkResponse 200 "OK" (JsonValue (JArray [JObject []])).

Definition raising_at (now : Z) (message : string) : Input :=
  mkInput now no_random (FetchFailed "unused") message.

(** Messages of the kind V8 gives the two errors an element without
    entry raises: in [parseAPIResponse], where [undefined] is destructured,
    and in routes.ts, where [stepKey] is [undefined]. *)
Definition undefined_not_iterable : string :=
  "undefined is not iterable (cannot read property Symbol(Symbol.iterator))".

Definition undefined_toLowerCase : string :=
  "Cannot read properties of undefined (reading 'toLowerCase')".

(** *** Runs of [processTaskWithUpdates] taken to their end *)

Fixpoint route_drive (inps : list Input) (taskId : Z) (prompt : string)
    (res : Routes.Server * Routes.Outcome) : Routes.Server * Routes.Outcome :=
  match inps, snd res with
  | inp :: rest, Routes.Suspended pc =>
      route_drive rest taskId prompt (Routes.resume inp taskId prompt pc (fst res))
  | _, _ => res
  end.

(** The key and the text of an element whose first entry has a string
    for its value: the elements [processTaskWithUpdates] stores, and those
    [parseAPIResponse] turns into well-typed steps. *)
Definition typed_entry (x : Json) : option (string * string) :=
  match first_entry x with
  | FirstEntry key (JString message) => Some (key, message)
  | _ => None
  end.

(** The elements before the first that is not stored. *)
Fixpoint leading (items : list (option (string * string))) : list (string * string) :=
  match items with
  | Some item :: rest => item :: leading rest
  | _ => []
  end.

Definition stored (flow : list Json) : list (string * string) := leading (map typed_entry flow).

(** How the loop is left: after the last element, or with what the first
    element that is not stored makes it throw.  [None] when that element is
    not followed (its value is an array, or it is a string that does not
    start with an ASCII character). *)
Inductive Ending :=
| Completes
| Throws (t : Thrown).

Definition stop_at (x : Json) : option Ending :=
  match first_entry x with
  | OfNull => Some (Throws NullToObject)
  | NoEntry => Some (Throws EngineTypeError)
  | FirstEntry _ (JArray _) => None
  | FirstEntry _ _ => Some (Throws EngineTypeError)
  | OfString _ => None
  end.

Fixpoint route_stop (flow : list Json) : option Ending :=
  match flow with
  | [] => Some Completes
  | x :: rest =>
      match typed_entry x with
      | Some _ => route_stop rest
      | None => stop_at x
      end
  end.

(** The last input of the loop, with which the loop is left: that of the
    last delay, or the input before the loop when nothing was stored. *)
Fixpoint end_input (inp0 : Input) (pairs : list (Input * Input)) : Input :=
  match pairs with
  | [] => inp0
  | (_, b) :: pairs' => end_input b pairs'
  end.

(** The message [processTaskWithUpdates] stores for an element. *)
Definition route_message (taskId : Z) (item : string * string) : InsertMessage :=
  let agentName := Routes.agentName_of (fst item) in
  mkInsertMessage taskId agentName (snd item) (Routes.messageType_of agentName (snd item)) None.

(** The writes of the loop: the first at the clock reading at which the
    loop is entered, each next one at the end of the delay before it. *)
Fixpoint route_writes (taskId : Z) (good : list (string * string)) (now0 : Z)
    (pairs : list (Input * Input)) : list Storage.Op :=
  match good, pairs with
  | item :: good', (_, b) :: pairs' =>
      Storage.OpCreateMessage (route_message taskId item) now0
      :: route_writes taskId good' (in_now b) pairs'
  | _, _ => []
  end.

(** The progress event broadcast after step [i] of [len] was stored. *)
Definition route_progress (taskId : Z) (len i : nat) (item : string * string) (now : Z)
  : Routes.WsEvent :=
  let m := route_message taskId item in
  Routes.TaskProgressEvent
    {| tp_taskId := taskId;
       tp_progress := Routes.loop_progress i len;
       tp_status := processing;
       tp_agentStatus :=
         mkAgentStatus (Routes.loop_agent (im_agent m) "supervisor" i len)
           (Routes.loop_agent (im_agent m) "phone" i len)
           (Routes.loop_agent (im_agent m) "venmo" i len);
       tp_currentMessage :=
         Some (mkCurrentMessage (im_agent m) (im_message m) (im_messageType m) now) |}.

Fixpoint route_events (taskId : Z) (len i : nat) (good : list (string * string))
    (pairs : list (Input * Input)) : list Routes.WsEvent :=
  match good, pairs with
  | item :: good', (a, _) :: pairs' =>
      route_progress taskId len i item (in_now a)
      :: route_events taskId len (S i) good' pairs'
  | _, _ => []
  end.

(** How the run ends: completed after the last element, failed with the
    error thrown otherwise. *)
Definition route_end_op (taskId : Z) (ending : Ending) (now : Z) : Storage.Op :=
  match ending with
  | Completes => Storage.OpUpdateTaskStatus taskId completed (Some now)
  | Throws _ => Storage.OpUpdateTaskStatus taskId failed None
  end.

Definition route_end_event (taskId : Z) (ending : Ending) (last : Input) : Routes.WsEvent :=
  match ending with
  | Completes => Routes.TaskCompletedEvent (Routes.completed_progress taskId)
  | Throws t => Routes.TaskErrorEvent taskId (thrown_message last t)
  end.

(** *** The registry of observers *)

(** A connection [broadcast] can deliver to: open, and [send] does not
    raise. *)
Definition live (entry : string * Hub.Socket) : bool :=
  ((Hub.readyState (snd entry) =? 1) && negb (Hub.send_raises (snd entry)))%bool.

(** The entry once a frame was handed to its connection. *)
Definition deliver (frame : Hub.Frame) (entry : string * Hub.Socket) : string * Hub.Socket :=
  (fst entry,
   Hub.mkSocket (Hub.readyState (snd entry)) (Hub.send_raises (snd entry))
     (Hub.outbox (snd entry) ++ [frame])).

(** The connection as [connection] registers it: greeted, unless the
    greeting raised. *)
Definition greeted (clientId : string) (ws : Hub.Socket) : Hub.Socket :=
  if Hub.send_raises ws then ws
  else Hub.mkSocket (Hub.readyState ws) (Hub.send_raises ws)
         (Hub.outbox ws ++ [Hub.ConnectedFrame clientId]).

(** *** The page *)

(** The frames the page receives, each with the page's clock reading. *)
Fixpoint feed (frames : list (Z * option Hub.Frame)) (s : Page.State) : Page.State :=
  match frames with
  | [] => s
  | (now, frame) :: rest => feed rest (Page.onmessage now frame s)
  end.

(** The page takes two messages for the same when agent and text agree. *)
Definition same_text (a b : Message) : bool :=
  (String.eqb (msg_agent a) (msg_agent b) && String.eqb (msg_message a) (msg_message b))%bool.

Fixpoint no_repeat (l : list Message) : bool :=
  match l with
  | a :: (b :: _) as rest => (negb (same_text a b) && no_repeat rest)%bool
  | _ => true
  end.

(** The page shows a message of this agent and text. *)
Definition shows (agent message : string) (s : Page.State) : Prop :=
  exists m, In m (Page.messages s) /\ msg_agent m = agent /\ msg_message m = message.


(** The class [getMessageTypeClass] falls back to. *)
Definition default_class : string := "bg-gray-50 dark:bg-gray-900".

(** * Properties *)

(** ** The stable sort *)

Section SortFacts.
Context {A : Type} (key : A -> Z).

Let cmp (a b : A) : Z := key a - key b.
Let le (a b : A) : Prop := key a <= key b.

Lemma sort_insert_perm (x : A) (l : list A) :
  Permutation (x :: l) (Js.sort_insert cmp x l).
Proof.
  induction l as [|y l IH]; simpl; [reflexivity|].
  destruct (cmp x y <=? 0); [reflexivity|].
  rewrite perm_swap. now apply perm_skip.
Qed.

Lemma sort_perm (l : list A) : Permutation l (Js.sort cmp l).
Proof.
  induction l as [|x l IH]; simpl; [reflexivity|].
  rewrite <- sort_insert_perm. now apply perm_skip.
Qed.

Lemma sort_insert_sorted (x : A) (l : list A) :
  StronglySorted le l -> StronglySorted le (Js.sort_insert cmp x l).
Proof.
  induction 1 as [|y l Hl IH Hy]; simpl.
  - repeat constructor.
  - destruct (Z.leb_spec (cmp x y) 0) as [Hxy|Hxy]; unfold cmp in Hxy.
    + constructor; [now constructor|].
      constructor; [unfold le; lia|].
      eapply Forall_impl; [exact Hy|]. unfold le. intros z Hz. simpl in Hz. lia.
    + constructor; [exact IH|].
      rewrite <- sort_insert_perm. constructor; [unfold le; lia|exact Hy].
Qed.

Lemma sort_sorted (l : list A) : StronglySorted le (Js.sort cmp l).
Proof.
  induction l as [|x l IH]; simpl; [constructor|]. now apply sort_insert_sorted.
Qed.

(** An element that is not greater than any element of a sorted list is
    inserted at the front. *)
Lemma sort_insert_front (x : A) (l : list A) :
  Forall (le x) l -> Js.sort_insert cmp x l = x :: l.
Proof.
  destruct 1 as [|y l Hy _]; simpl; [reflexivity|].
  unfold le in Hy. destruct (Z.leb_spec (cmp x y) 0) as [_|Hxy]; [reflexivity|].
  unfold cmp in Hxy. lia.
Qed.

(** A list that is already in order is left as it is. *)
Lemma sort_sorted_id (l : list A) : StronglySorted le l -> Js.sort cmp l = l.
Proof.
  induction 1 as [|x l Hl IH Hx]; simpl; [reflexivity|].
  rewrite IH. now apply sort_insert_front.
Qed.

(** Stability: elements with equal keys keep their relative order. *)
Lemma sort_insert_stable (k : Z) (x : A) (l : list A) :
  StronglySorted le l ->
  List.filter (fun a => key a =? k) (Js.sort_insert cmp x l)
  = List.filter (fun a => key a =? k) (x :: l).
Proof.
  induction 1 as [|y l Hl IH Hy]; [reflexivity|].
  cbn [Js.sort_insert].
  destruct (Z.leb_spec (cmp x y) 0) as [Hxy|Hxy]; [reflexivity|].
  unfold cmp in Hxy.
  cbn [List.filter] in *. rewrite IH.
  destruct (Z.eqb_spec (key y) k) as [Hyk|Hyk], (Z.eqb_spec (key x) k) as [Hxk|Hxk];
    try reflexivity.
  lia.
Qed.

Lemma sort_stable (k : Z) (l : list A) :
  List.filter (fun a => key a =? k) (Js.sort cmp l) = List.filter (fun a => key a =? k) l.
Proof.
  induction l as [|x l IH]; [reflexivity|].
  cbn [Js.sort]. rewrite sort_insert_stable by apply sort_sorted.
  cbn [List.filter]. now rewrite IH.
Qed.

End SortFacts.

(** ** The task store *)

Section StorageFacts.
Import Storage.

Lemma map_set_fresh {V : Type} (k : Z) (v : V) (m : list (Z * V)) :
  Forall (fun k' => k' < k) (Js.map_keys m) -> Js.map_set k v m = (m ++ [(k, v)])%list.
Proof.
  induction m as [|[k' v'] m IH]; simpl; intros H; [reflexivity|].
  inversion H as [|? ? Hk Hm]; subst.
  destruct (Z.eqb_spec k' k) as [->|_]; [lia|].
  now rewrite IH.
Qed.

Lemma keys_below_empty : keys_below empty.
Proof. constructor. Qed.

Lemma createMessage_messages (im : InsertMessage) (now : Z) (st : MemStorage) :
  keys_below st ->
  Js.map_values (messages (snd (createMessage im now st)))
  = (Js.map_values (messages st) ++ [fst (createMessage im now st)])%list.
Proof.
  intros H. cbn [createMessage snd fst messages].
  rewrite map_set_fresh by exact H.
  unfold Js.map_values. now rewrite map_app.
Qed.

Lemma updateTaskStatus_messages (id : Z) (status : TaskStatus) (c : option Z) (st : MemStorage) :
  messages (snd (updateTaskStatus id status c st)) = messages st
  /\ currentMessageId (snd (updateTaskStatus id status c st)) = currentMessageId st.
Proof. unfold updateTaskStatus. destruct (tasks st !! id); auto. Qed.

(** The update writes one task record and nothing else. *)
Lemma updateTaskStatus_found (id : Z) (status : TaskStatus) (c : option Z) (st : MemStorage)
    (task : Task) :
  getTask id st = Some task ->
  let updated := mkTask (task_id task) (task_prompt task) status (task_createdAt task) c in
  fst (updateTaskStatus id status c st) = Some updated
  /\ getTask id (snd (updateTaskStatus id status c st)) = Some updated.
Proof.
  unfold getTask, updateTaskStatus. intros ->. cbn [fst snd tasks].
  split; [reflexivity|apply lookup_insert_eq].
Qed.

Lemma updateTaskStatus_missing (id : Z) (status : TaskStatus) (c : option Z) (st : MemStorage) :
  getTask id st = None -> updateTaskStatus id status c st = (None, st).
Proof. unfold getTask, updateTaskStatus. now intros ->. Qed.

Lemma updateTaskStatus_other_task (id id' : Z) (status : TaskStatus) (c : option Z)
    (st : MemStorage) :
  id' <> id -> getTask id' (snd (updateTaskStatus id status c st)) = getTask id' st.
Proof.
  intros Hne. unfold getTask, updateTaskStatus.
  destruct (tasks st !! id); [|reflexivity].
  cbn [snd tasks]. now apply lookup_insert_ne.
Qed.

Lemma updateTaskStatus_currentTaskId (id : Z) (status : TaskStatus) (c : option Z)
    (st : MemStorage) :
  currentTaskId (snd (updateTaskStatus id status c st)) = currentTaskId st.
Proof. unfold updateTaskStatus. now destruct (tasks st !! id). Qed.

Lemma keys_below_apply (op : Op) (st : MemStorage) : keys_below st -> keys_below (apply op st).
Proof.
  unfold keys_below. intros H. destruct op as [it now|id status c|im now].
  - exact H.
  - cbn [apply]. destruct (updateTaskStatus_messages id status c st) as [-> ->]. exact H.
  - cbn [apply createMessage snd messages currentMessageId].
    rewrite map_set_fresh by exact H.
    unfold Js.map_keys. rewrite map_app. apply Forall_app. split.
    + eapply Forall_impl; [exact H|]. intros k Hk. simpl in Hk. lia.
    + repeat constructor. simpl. lia.
Qed.

Lemma messages_run (ops : list Op) (st : MemStorage) :
  keys_below st ->
  Js.map_values (messages (run ops st)) = (Js.map_values (messages st) ++ emitted ops st)%list.
Proof.
  revert st. induction ops as [|op ops IH]; intros st H.
  - simpl. now rewrite app_nil_r.
  - change (run (op :: ops) st) with (run ops (apply op st)).
    rewrite IH by now apply keys_below_apply.
    destruct op as [it now|id status c|im now]; cbn [emitted].
    + reflexivity.
    + cbn [apply]. now destruct (updateTaskStatus_messages id status c st) as [-> _].
    + cbn [apply]. rewrite createMessage_messages by exact H.
      now rewrite <- app_assoc.
Qed.

Lemma emitted_timestamps (ops : list Op) (st : MemStorage) :
  map msg_timestamp (emitted ops st) = message_clock ops.
Proof.
  revert st. induction ops as [|op ops IH]; intros st; [reflexivity|].
  destruct op; cbn [emitted message_clock]; try apply IH.
  cbn [map]. now rewrite IH.
Qed.

Lemma StronglySorted_of_map (l : list Message) :
  StronglySorted Z.le (map msg_timestamp l) -> StronglySorted timestamp_le l.
Proof.
  induction l as [|m l IH]; intros H; [constructor|].
  cbn [map] in H. apply StronglySorted_inv in H as [Hl Hm].
  constructor; [now apply IH|].
  apply List.Forall_forall. intros m' Hm'.
  rewrite List.Forall_forall in Hm. apply Hm. now apply in_map.
Qed.

Lemma StronglySorted_filter (f : Message -> bool) (l : list Message) :
  StronglySorted timestamp_le l -> StronglySorted timestamp_le (List.filter f l).
Proof.
  induction 1 as [|m l Hl IH Hm]; simpl; [constructor|].
  destruct (f m); [|exact IH].
  constructor; [exact IH|].
  apply List.Forall_forall. intros m' Hm'. apply filter_In in Hm' as [Hm' _].
  rewrite List.Forall_forall in Hm. now apply Hm.
Qed.

(** [getTaskMessages] always answers in timestamp order. *)
Lemma getTaskMessages_sorted (taskId : Z) (st : MemStorage) :
  StronglySorted timestamp_le (getTaskMessages taskId st).
Proof. apply (sort_sorted msg_timestamp). Qed.

(** Messages with the same timestamp are answered in the order the map
    holds them. *)
Lemma getTaskMessages_stable (taskId ts : Z) (st : MemStorage) :
  List.filter (has_timestamp ts) (getTaskMessages taskId st)
  = List.filter (has_timestamp ts)
      (List.filter (for_task taskId) (Js.map_values (messages st))).
Proof. apply (sort_stable msg_timestamp). Qed.

Lemma getTaskMessages_permutation (taskId : Z) (st : MemStorage) :
  Permutation (List.filter (for_task taskId) (Js.map_values (messages st)))
    (getTaskMessages taskId st).
Proof. apply (sort_perm msg_timestamp). Qed.

End StorageFacts.

Section StoreClaims.
Import Storage.

(** C7, as the code has it.  Along every history of the store, started
    from [new MemStorage()], the sequence [getTaskMessages] returns for a
    task holds exactly the messages created for that task, is
    non-decreasing by timestamp, and keeps messages of equal timestamp in
    the order of their creation.  It is the sequence of these messages in
    the order of their creation exactly when their timestamps do not
    decrease in that order, as is the case when the clock read by
    [createMessage] does not run backwards. *)
Theorem getTaskMessages_timestamp_order (ops : list Op) (taskId : Z) :
  let created := List.filter (for_task taskId) (emitted ops empty) in
  StronglySorted timestamp_le (getTaskMessages taskId (run ops empty))
  /\ Permutation created (getTaskMessages taskId (run ops empty))
  /\ (forall ts,
        List.filter (has_timestamp ts) (getTaskMessages taskId (run ops empty))
        = List.filter (has_timestamp ts) created)
  /\ (getTaskMessages taskId (run ops empty) = created
      <-> StronglySorted timestamp_le created)
  /\ (StronglySorted Z.le (message_clock ops) -> StronglySorted timestamp_le created).
Proof.
  cbn zeta.
  assert (Hvalues : Js.map_values (messages (run ops empty)) = emitted ops empty)
    by (rewrite messages_run by apply keys_below_empty; reflexivity).
  split; [apply getTaskMessages_sorted|]. split; [|split; [|split]].
  - rewrite <- Hvalues. apply getTaskMessages_permutation.
  - intros ts. rewrite getTaskMessages_stable. now rewrite Hvalues.
  - split.
    + intros <-. apply getTaskMessages_sorted.
    + intros Hsorted. unfold getTaskMessages. rewrite Hvalues.
      now apply (sort_sorted_id msg_timestamp).
  - intros Hclock. apply StronglySorted_filter, StronglySorted_of_map.
    now rewrite emitted_timestamps.
Qed.

Lemma getTaskMessages_timestamp_order_witness :
  getTaskMessages 1 (run sample_history empty)
  = [ mkMessage 1 1 "supervisor" "first" "analysis" 10 None;
      mkMessage 3 1 "venmo" "second" "processing" 10 None;
      mkMessage 4 1 "supervisor" "third" "completion" 12 None ].
Proof.
  destruct (getTaskMessages_timestamp_order sample_history 1) as (_ & _ & _ & Hiff & Hclock).
  rewrite (proj2 Hiff); [reflexivity|].
  apply Hclock.
  repeat first [ apply SSorted_nil | apply SSorted_cons
               | apply List.Forall_nil | apply List.Forall_cons | discriminate ].
Defined.

(** C7 as stated fails: when the clock is set back between two
    [createMessage] calls for a task, the message created last is listed
    first. *)
Lemma getTaskMessages_not_emission_order :
  map msg_message (List.filter (for_task 1) (emitted backwards_history empty))
  = ["first"; "second"]
  /\ map msg_message (getTaskMessages 1 (run backwards_history empty)) = ["second"; "first"]
  /\ getTaskMessages 1 (run backwards_history empty)
     <> List.filter (for_task 1) (emitted backwards_history empty).
Proof.
  split; [reflexivity|]. split; [reflexivity|]. vm_compute. discriminate.
Qed.

(** C6, as the code has it.  [updateTaskStatus(id, status, completedAt?)]
    on a stored task replaces its status and overwrites [completedAt] with
    the date passed, or with [null] when none is passed, whatever the status
    is; [id], [prompt] and [createdAt] are kept, no other task, no message
    and no counter changes, and the updated task is returned.  On an unknown
    id it returns not-found and leaves the store as it is. *)
Theorem updateTaskStatus_frame (id : Z) (status : TaskStatus) (completedAt : option Z)
    (st : MemStorage) :
  match getTask id st with
  | Some task =>
      let updated := mkTask (task_id task) (task_prompt task) status (task_createdAt task)
                       completedAt in
      fst (updateTaskStatus id status completedAt st) = Some updated
      /\ getTask id (snd (updateTaskStatus id status completedAt st)) = Some updated
  | None =>
      updateTaskStatus id status completedAt st = (None, st)
  end
  /\ (forall id', id' <> id ->
        getTask id' (snd (updateTaskStatus id status completedAt st)) = getTask id' st)
  /\ messages (snd (updateTaskStatus id status completedAt st)) = messages st
  /\ currentTaskId (snd (updateTaskStatus id status completedAt st)) = currentTaskId st
  /\ currentMessageId (snd (updateTaskStatus id status completedAt st)) = currentMessageId st.
Proof.
  split.
  - destruct (getTask id st) as [task|] eqn:Htask.
    + now apply updateTaskStatus_found.
    + now apply updateTaskStatus_missing.
  - split; [intros id' Hne; now apply updateTaskStatus_other_task|].
    destruct (updateTaskStatus_messages id status completedAt st) as [Hm Hc].
    split; [exact Hm|]. split; [apply updateTaskStatus_currentTaskId|exact Hc].
Qed.

Lemma updateTaskStatus_frame_witness :
  getTask 1 (snd (updateTaskStatus 1 failed None completed_store))
  = Some (mkTask 1 "pay John $5" failed 5 None)
  /\ getTask 2 (snd (updateTaskStatus 1 failed None completed_store))
     = getTask 2 completed_store
  /\ updateTaskStatus 7 failed None completed_store = (None, completed_store).
Proof.
  destruct (updateTaskStatus_frame 1 failed None completed_store) as (Hfound & Hother & _).
  destruct (updateTaskStatus_frame 7 failed None completed_store) as (Hmissing & _).
  assert (E1 : getTask 1 completed_store = Some (mkTask 1 "pay John $5" completed 5 (Some 1000)))
    by reflexivity.
  assert (E7 : getTask 7 completed_store = None) by reflexivity.
  rewrite E1 in Hfound. rewrite E7 in Hmissing. cbn zeta in Hfound.
  split; [exact (proj2 Hfound)|].
  split; [apply Hother; discriminate|exact Hmissing].
Defined.

(** C6 as stated fails: an update to the non-terminal status
    [processing] does not keep the stored [completedAt], it resets it to
    [null]. *)
Lemma updateTaskStatus_resets_completedAt :
  task_completedAt <$> getTask 1 completed_store = Some (Some 1000)
  /\ task_completedAt <$> getTask 1 (snd (updateTaskStatus 1 processing None completed_store))
     = Some None.
Proof. split; vm_compute; reflexivity. Qed.

End StoreClaims.

(** ** Progress snapshots *)

Section ProgressFacts.
Import Storage Processor.

Lemma scaled_nonneg (svc : Service) (n : nat) :
  (0 <= inject_Z (Z.of_nat n) / inject_Z (expectedSteps svc) * 100)%Q.
Proof.
  apply Qmult_le_0_compat; [|discriminate].
  apply Qmult_le_0_compat.
  - change 0%Q with (inject_Z 0). rewrite <- Zle_Qle. lia.
  - destruct svc; discriminate.
Qed.

Lemma scaled_mono (svc : Service) (n1 n2 : nat) :
  (n1 <= n2)%nat ->
  (inject_Z (Z.of_nat n1) / inject_Z (expectedSteps svc) * 100
   <= inject_Z (Z.of_nat n2) / inject_Z (expectedSteps svc) * 100)%Q.
Proof.
  intros H.
  apply Qmult_le_compat_r; [|discriminate].
  apply Qmult_le_compat_r; [|destruct svc; discriminate].
  rewrite <- Zle_Qle. lia.
Qed.

Lemma progress_of_nonneg (svc : Service) (status : TaskStatus) (msgs : list Message) :
  (0 <= progress_of svc status msgs)%Q.
Proof.
  destruct status; try discriminate.
  apply Q.min_glb; [apply scaled_nonneg|discriminate].
Qed.

Lemma progress_of_le_100 (svc : Service) (status : TaskStatus) (msgs : list Message) :
  (progress_of svc status msgs <= 100)%Q.
Proof.
  destruct status; try discriminate.
  eapply Qle_trans; [apply Q.le_min_r|discriminate].
Qed.

Lemma getTaskProgress_Some (svc : Service) (taskId : Z) (st : MemStorage) (tp : TaskProgress) :
  getTaskProgress svc taskId st = Some tp ->
  exists task,
    getTask taskId st = Some task
    /\ tp_status tp = task_status task
    /\ tp_progress tp = progress_of svc (task_status task) (getTaskMessages taskId st).
Proof.
  unfold getTaskProgress. destruct (getTask taskId st) as [task|]; [|discriminate].
  intros [= <-]. now exists task.
Qed.

(** C8.  Between two snapshots of a task, the second taken when at least
    as many messages are stored for it and its status has not moved
    backwards, progress does not decrease as long as the task has not
    failed; a [processing] snapshot reports at most 95 and a [completed]
    snapshot exactly 100. *)
Theorem progress_monotone (svc : Service) (taskId : Z) (st1 st2 : MemStorage)
    (tp1 tp2 : TaskProgress) :
  getTaskProgress svc taskId st1 = Some tp1 ->
  getTaskProgress svc taskId st2 = Some tp2 ->
  (length (getTaskMessages taskId st1) <= length (getTaskMessages taskId st2))%nat ->
  status_rank (tp_status tp1) <= status_rank (tp_status tp2) ->
  tp_status tp2 <> failed ->
  (tp_progress tp1 <= tp_progress tp2)%Q
  /\ (tp_status tp2 = processing -> (tp_progress tp2 <= 95)%Q)
  /\ (tp_status tp2 = completed -> tp_progress tp2 = 100%Q).
Proof.
  intros H1 H2 Hlen Hrank Hfailed.
  apply getTaskProgress_Some in H1 as (task1 & _ & Hs1 & ->).
  apply getTaskProgress_Some in H2 as (task2 & _ & Hs2 & ->).
  rewrite Hs1, Hs2 in *. clear Hs1 Hs2.
  split; [|split].
  - destruct (task_status task2) eqn:E2; [| | |congruence].
    + destruct (task_status task1); simpl in Hrank; try lia. apply Qle_refl.
    + destruct (task_status task1); simpl in Hrank; try lia.
      * apply progress_of_nonneg.
      * apply Q.min_le_compat_r. now apply scaled_mono.
    + apply progress_of_le_100.
  - intros ->. apply Q.le_min_r.
  - now intros ->.
Qed.

(** C10.  [getTaskProgress] answers [null] exactly for the ids [getTask]
    does not find; for a stored task that has no message and is not
    completed, the snapshot has the three agents idle and no
    [currentMessage]. *)
Theorem getTaskProgress_found_idle (svc : Service) (taskId : Z) (st : MemStorage) :
  (getTaskProgress svc taskId st = None <-> getTask taskId st = None)
  /\ (forall task,
        getTask taskId st = Some task ->
        getTaskMessages taskId st = [] ->
        task_status task <> completed ->
        exists tp,
          getTaskProgress svc taskId st = Some tp
          /\ tp_agentStatus tp = mkAgentStatus idle idle idle
          /\ tp_currentMessage tp = None).
Proof.
  unfold getTaskProgress. split.
  - destruct (getTask taskId st); split; congruence.
  - intros task -> -> Hstatus. eexists. split; [reflexivity|].
    cbn. split; [|reflexivity].
    destruct (task_status task); first [reflexivity | congruence].
Qed.

(** C2, as the code has it.  A task whose status is [failed] or [pending]
    has progress 0 in its snapshot: progress is recomputed from the status
    and the number of messages at every call, and nothing computed while the
    task was processing is kept. *)
Theorem failed_progress_zero (svc : Service) (taskId : Z) (st : MemStorage) (task : Task) :
  getTask taskId st = Some task ->
  task_status task = failed \/ task_status task = pending ->
  exists tp,
    getTaskProgress svc taskId st = Some tp
    /\ tp_status tp = task_status task
    /\ tp_progress tp = 0%Q.
Proof.
  intros Htask Hstatus. unfold getTaskProgress. rewrite Htask.
  eexists. split; [reflexivity|]. cbn. split; [reflexivity|].
  now destruct Hstatus as [-> | ->].
Qed.

End ProgressFacts.

Section ProgressSamples.
Import Storage Processor.

Lemma progress_monotone_witness :
  exists tp1 tp2,
    getTaskProgress External 1 (store_of one_message) = Some tp1
    /\ getTaskProgress External 1 (store_of three_messages) = Some tp2
    /\ tp_status tp1 = processing /\ tp_status tp2 = processing
    /\ (tp_progress tp1 <= tp_progress tp2)%Q
    /\ (tp_progress tp2 <= 95)%Q.
Proof.
  eexists _, _.
  split; [vm_compute; reflexivity|].
  split; [vm_compute; reflexivity|].
  split; [reflexivity|]. split; [reflexivity|].
  pose proof (progress_monotone External 1 (store_of one_message) (store_of three_messages)
                _ _ eq_refl eq_refl) as H.
  destruct H as (Hle & Hbound & _).
  - vm_compute. lia.
  - vm_compute. discriminate.
  - discriminate.
  - split; [exact Hle|]. now apply Hbound.
Defined.

Lemma getTaskProgress_found_idle_witness :
  exists tp,
    getTaskProgress External 1 (store_of (Routes.exec [Routes.Post sample_body 0] Routes.init))
    = Some tp
    /\ tp_status tp = processing
    /\ tp_agentStatus tp = mkAgentStatus idle idle idle
    /\ tp_currentMessage tp = None.
Proof.
  destruct (getTaskProgress_found_idle External 1
              (store_of (Routes.exec [Routes.Post sample_body 0] Routes.init)))
    as [_ H].
  destruct (H (mkTask 1 "Send the money back to Cory" processing 0 None))
    as (tp & Htp & Hidle & Hnone).
  - reflexivity.
  - reflexivity.
  - discriminate.
  - exists tp. repeat split; try assumption.
    vm_compute in Htp. now injection Htp as <-.
Defined.

Lemma failed_progress_zero_witness :
  exists tp,
    getTaskProgress External 1 (store_of after_failure) = Some tp
    /\ tp_status tp = failed
    /\ tp_progress tp = 0%Q.
Proof.
  destruct (failed_progress_zero External 1 (store_of after_failure)
              (mkTask 1 "Send the money back to Cory" failed 0 None))
    as (tp & Htp & Hstatus & Hzero).
  - reflexivity.
  - now left.
  - now exists tp.
Defined.

(** C2 as stated fails.  In the run answered by [broken_reply] the
    snapshot taken after the first message reports 12.5; once the run has
    failed the snapshot reports 0, not that last value, although the task is
    not pending. *)
Lemma failed_progress_is_reset :
  tp_status <$> getTaskProgress External 1 (store_of before_failure) = Some processing
  /\ tp_progress <$> getTaskProgress External 1 (store_of before_failure) = Some (100 # 8)
  /\ tp_status <$> getTaskProgress External 1 (store_of after_failure) = Some failed
  /\ tp_progress <$> getTaskProgress External 1 (store_of after_failure) = Some 0%Q
  /\ ~ (0 == 100 # 8)%Q.
Proof. repeat split; try (vm_compute; reflexivity). discriminate. Qed.

End ProgressSamples.

(** ** The local heuristic generator *)

Section GeneratorClaims.
Import Generator.

(** C1 as stated fails.  On ["Send Alex $32.50"] the amount pattern
    [\$(\d+)] stops at the decimal point and extracts ["$32"]; neither
    recipient pattern matches (the verb is capitalised), so the placeholder
    name is used; the summary does not contain
    ["$32.50 sent to Alex via Venmo ✅"]. *)
Lemma send_alex_not_as_stated :
  extractAmount send_alex = Some "$32"
  /\ extractRecipient send_alex = None
  /\ Js.or_else (extractRecipient send_alex) "John" = "John"
  /\ generateFinalSummary send_alex true false
     = "All tasks completed successfully!" +:+ Js.nl +:+ Js.nl +:+ "📋 Summary:" +:+ Js.nl
         +:+ "• $32 sent to John via Venmo ✅" +:+ Js.nl
  /\ Js.includes (generateFinalSummary send_alex true false)
       "$32.50 sent to Alex via Venmo ✅" = false.
Proof. repeat split; vm_compute; reflexivity. Qed.

(** With the verb in lower case the first recipient pattern applies. *)
Example lowercase_send_finds_recipient :
  extractRecipient "please send Alex $32.50" = Some "Alex"
  /\ extractAmount "please send Alex $32.50" = Some "$32".
Proof. split; vm_compute; reflexivity. Qed.

(** C1, as the code has it.  On ["Send Alex $32.50"] the generator detects
    payment intent only and produces exactly nine steps: the supervisor's
    analysis, planning and delegation steps, five venmo steps and the
    supervisor's completion summary.  The extracted amount is ["$32"], the
    digits after the dollar sign; the venmo steps and the summary name the
    same recipient, and the summary contains
    ["$32 sent to <recipient> via Venmo ✅"]. *)
Theorem send_alex_flow (rnd : Random) :
  containsPaymentKeywords send_alex = true
  /\ containsCallKeywords send_alex = false
  /\ extractAmount send_alex = Some "$32"
  /\ exists recipient planning summary,
       generateConversationFlow send_alex rnd
       = [ mkStep "supervisor" ("Analyzing task: " +:+ Js.dq +:+ send_alex +:+ Js.dq)
             "analysis" None;
           mkStep "supervisor" planning "planning" None;
           mkStep "supervisor" "Delegating payment task to Venmo Agent..." "delegation" None;
           mkStep "venmo" ("Received payment request: $32 to " +:+ recipient)
             "acknowledgment" None;
           mkStep "venmo"
             ("Searching for contact " +:+ Js.dq +:+ recipient +:+ Js.dq
                +:+ " in Venmo contacts...")
             "processing" None;
           mkStep "venmo"
             ("Contact found: " +:+ recipient +:+ " Smith (@" +:+ Js.toLowerCase recipient
                +:+ "smith_venmo)")
             "success" None;
           mkStep "venmo"
             ("Initiating payment of $32 with note: " +:+ Js.dq +:+ "Payment as requested"
                +:+ Js.dq)
             "action" None;
           mkStep "venmo"
             ("✅ Payment successful! Transaction ID: VM_"
                +:+ Js.substr 2 9 (rnd_transaction rnd))
             "success" None;
           mkStep "supervisor" summary "completion" None ]
       /\ Js.includes summary ("$32 sent to " +:+ recipient +:+ " via Venmo ✅") = true.
Proof.
  split; [vm_compute; reflexivity|].
  split; [vm_compute; reflexivity|].
  split; [vm_compute; reflexivity|].
  exists (Js.or_else (extractRecipient send_alex) "John"),
    ("Breaking down into subtasks:" +:+ Js.nl
       +:+ Js.join Js.nl (number_from 0 (extractSubtasks send_alex true false))),
    (generateFinalSummary send_alex true false).
  split; vm_compute; reflexivity.
Qed.

End GeneratorClaims.

(** ** The submission endpoint *)

Section SubmissionClaims.
Import Storage Routes.

(** C9, as the code has it.  The endpoint checks that the body is an
    object whose [prompt] is a string, of any length.  Such a body is
    answered with the created task, with the next id, the prompt, status
    ["pending"] and [completedAt] null, and the task is stored and its run
    started.  Any other body is answered with the validation error and its
    list of issues, and nothing changes: no task is created. *)
Theorem post_tasks_validation (now : Z) (s : State) :
  (forall entries prompt,
      field "prompt" entries = Some (JString prompt) ->
      let task := mkTask (currentTaskId (store (server s))) prompt pending now None in
      fst (post_tasks (Some (JObject entries)) now s) = Ok task
      /\ getTask (task_id task) (store (server (snd (post_tasks (Some (JObject entries)) now s))))
         = Some (mkTask (task_id task) prompt processing now None)
      /\ runs (snd (post_tasks (Some (JObject entries)) now s))
         = (runs s ++ [mkRun (task_id task) prompt AwaitProcessing])%list)
  /\ (forall entries,
        (forall prompt, field "prompt" entries <> Some (JString prompt)) ->
        exists issue,
          post_tasks (Some (JObject entries)) now s
          = (BadRequest "Validation error" [issue], s)
          /\ issue_path issue = ["prompt"] /\ issue_expected issue = "string")
  /\ (forall body,
        (forall entries, body <> Some (JObject entries)) ->
        exists issue,
          post_tasks body now s = (BadRequest "Validation error" [issue], s)
          /\ issue_path issue = [] /\ issue_expected issue = "object").
Proof.
  split; [|split].
  - intros entries prompt Hfield. unfold post_tasks, insertTaskSchema_parse.
    rewrite Hfield.
    unfold processTaskWithUpdates, with_store, createTask, updateTaskStatus, getTask.
    cbn [fst snd store sent server runs tasks task_id it_prompt].
    rewrite lookup_insert_eq.
    cbn [fst snd store sent server runs tasks task_id it_prompt task_prompt task_createdAt].
    rewrite lookup_insert_eq. auto.
  - intros entries Hfield. unfold post_tasks, insertTaskSchema_parse.
    destruct (field "prompt" entries) as [[| | |prompt| |]|] eqn:E;
      try (eexists; split; [reflexivity|split; reflexivity]).
    now destruct (Hfield prompt).
  - intros body Hbody. unfold post_tasks, insertTaskSchema_parse.
    destruct body as [[| | | | |entries]|];
      try (eexists; split; [reflexivity|split; reflexivity]).
    now destruct (Hbody entries).
Qed.

Lemma post_tasks_validation_witness :
  fst (post_tasks sample_body 0 init)
  = Ok (mkTask 1 "Send the money back to Cory" pending 0 None)
  /\ exists issue,
       post_tasks (Some (JObject [("text", JString "hello")])) 0 init
       = (BadRequest "Validation error" [issue], init)
       /\ issue_message issue = "Required".
Proof.
  destruct (post_tasks_validation 0 init) as (Hok & Hmissing & _).
  split.
  - destruct (Hok [("prompt", JString "Send the money back to Cory")]
                "Send the money back to Cory" eq_refl) as (H & _).
    exact H.
  - destruct (Hmissing [("text", JString "hello")]) as (issue & Hpost & _).
    + intros prompt. discriminate.
    + exists issue. split; [exact Hpost|].
      vm_compute in Hpost. now injection Hpost as <-.
Defined.

(** C9 as stated fails: a body whose prompt is the empty string passes the
    validation; the task is created and its run started. *)
Lemma empty_prompt_accepted :
  fst (post_tasks (Some (JObject [("prompt", JString EmptyString)])) 7 init)
  = Ok (mkTask 1 EmptyString pending 7 None)
  /\ getTask 1 (store (server (snd (post_tasks (Some (JObject [("prompt", JString EmptyString)]))
                                      7 init))))
     = Some (mkTask 1 EmptyString processing 7 None).
Proof. split; vm_compute; reflexivity. Qed.

End SubmissionClaims.

(** ** A failing oracle call *)

Section OracleFailure.
Import Storage Routes.

Lemma undisturbed_refl (taskId : Z) (a : Server) : undisturbed taskId a a.
Proof. now repeat split. Qed.

Lemma set_status_found (taskId : Z) (status : TaskStatus) (c : option Z) (st : MemStorage)
    (task : Task) :
  getTask taskId st = Some task ->
  getTask taskId (snd (updateTaskStatus taskId status c st))
  = Some (mkTask (task_id task) (task_prompt task) status (task_createdAt task) c)
  /\ messages (snd (updateTaskStatus taskId status c st)) = messages st.
Proof.
  intros H. split.
  - now apply updateTaskStatus_found.
  - apply updateTaskStatus_messages.
Qed.

Lemma getTaskMessages_ext (taskId : Z) (st st' : MemStorage) :
  messages st' = messages st -> getTaskMessages taskId st' = getTaskMessages taskId st.
Proof. unfold getTaskMessages. now intros ->. Qed.

Lemma filter_taskError_progress (taskId : Z) (l : list WsEvent) (data : TaskProgress) :
  List.filter (is_taskError taskId) (l ++ [TaskProgressEvent data])
  = List.filter (is_taskError taskId) l.
Proof. rewrite List.filter_app. cbn. apply app_nil_r. Qed.

Lemma filter_taskError_error (taskId : Z) (l : list WsEvent) (error : string) :
  List.filter (is_taskError taskId) (l ++ [TaskErrorEvent taskId error])
  = (List.filter (is_taskError taskId) l ++ [TaskErrorEvent taskId error])%list.
Proof. rewrite List.filter_app. cbn. now rewrite Z.eqb_refl. Qed.

(** C5.  When the oracle answers with a status outside 200..299, the run
    of [processTaskWithUpdates] leaves the [try] before its loop: it
    suspends three times and finishes, the task ends [failed], the messages
    stored for the task are those stored before the run, and the run
    broadcasts exactly one [taskError], which carries the task id and the
    text ["API call failed: <status> <statusText>"].  [srv1], [srv2] and
    [srv3] are the states the run finds when it continues, after whatever
    the runs of other tasks did in between. *)
Theorem oracle_error_aborts (taskId : Z) (prompt : string) (task : Task) (r : Response)
    (i1 i2 i3 : Input) (srv0 srv1 srv2 srv3 : Server) :
  getTask taskId (store srv0) = Some task ->
  in_fetch i2 = Fetched r ->
  resp_ok r = false ->
  undisturbed taskId (fst (processTaskWithUpdates taskId prompt srv0)) srv1 ->
  undisturbed taskId (fst (resume i1 taskId prompt AwaitProcessing srv1)) srv2 ->
  undisturbed taskId (fst (resume i2 taskId prompt AwaitFetch srv2)) srv3 ->
  snd (processTaskWithUpdates taskId prompt srv0) = Suspended AwaitProcessing
  /\ snd (resume i1 taskId prompt AwaitProcessing srv1) = Suspended AwaitFetch
  /\ snd (resume i2 taskId prompt AwaitFetch srv2)
     = Suspended (AwaitFailed (ExternalGen.api_failure r))
  /\ snd (resume i3 taskId prompt (AwaitFailed (ExternalGen.api_failure r)) srv3) = Finished
  /\ let final := fst (resume i3 taskId prompt (AwaitFailed (ExternalGen.api_failure r)) srv3) in
     task_status <$> getTask taskId (store final) = Some failed
     /\ getTaskMessages taskId (store final) = getTaskMessages taskId (store srv0)
     /\ List.filter (is_taskError taskId) (sent final)
        = (List.filter (is_taskError taskId) (sent srv0)
             ++ [TaskErrorEvent taskId (ExternalGen.api_failure r)])%list.
Proof.
  intros Htask Hfetch Hok (T1 & M1 & E1) (T2 & M2 & E2) (T3 & M3 & E3).
  cbn [resume processTaskWithUpdates fst snd] in *.
  rewrite Hfetch, Hok in *. unfold catch in *. cbn [fst snd] in *.
  repeat (split; [reflexivity|]). cbn zeta.
  unfold broadcast, with_store in *. cbn [store sent] in *.
  destruct (set_status_found taskId processing None _ _ Htask) as [Hp Hpm].
  rewrite Hp in T1. rewrite T1 in T2.
  destruct (set_status_found taskId failed None _ _ T2) as [Hf Hfm].
  rewrite Hf in T3. split; [now rewrite T3|]. split.
  - rewrite M3, (getTaskMessages_ext _ _ _ Hfm), M2, M1.
    now apply getTaskMessages_ext.
  - rewrite filter_taskError_error, E3, E2, filter_taskError_progress, E1. reflexivity.
Qed.

Lemma oracle_error_aborts_witness :
  let s := Routes.exec [ Post sample_body 0;
                         Continue 0 (at_time 1);
                         Continue 0 (reply_at 2 error_reply);
                         Continue 0 (at_time 3) ] Routes.init in
  task_status <$> getTask 1 (store (server s)) = Some failed
  /\ getTaskMessages 1 (store (server s)) = []
  /\ List.filter (is_taskError 1) (sent (server s))
     = [TaskErrorEvent 1 "API call failed: 500 Internal Server Error"]
  /\ runs s = [].
Proof.
  pose (srv0 := mkServer (snd (createTask (mkInsertTask "Send the money back to Cory") 0
                                 Storage.empty)) []).
  destruct (oracle_error_aborts 1 "Send the money back to Cory"
              (mkTask 1 "Send the money back to Cory" pending 0 None) error_reply
              (at_time 1) (reply_at 2 error_reply) (at_time 3)
              srv0 _ _ _
              eq_refl eq_refl eq_refl
              (undisturbed_refl 1 _) (undisturbed_refl 1 _) (undisturbed_refl 1 _))
    as (_ & _ & _ & _ & Hstatus & Hmessages & Herrors).
  split; [exact Hstatus|].
  split; [exact Hmessages|].
  split; [exact Herrors|reflexivity].
Defined.

End OracleFailure.

Section Interference.
Import Storage Routes.

Lemma createMessage_other (taskId : Z) (im : InsertMessage) (now : Z) (st : MemStorage) :
  keys_below st ->
  im_taskId im <> taskId ->
  getTaskMessages taskId (snd (createMessage im now st)) = getTaskMessages taskId st.
Proof.
  intros Hkeys Hne. unfold getTaskMessages.
  rewrite createMessage_messages by exact Hkeys.
  rewrite List.filter_app. cbn [List.filter fst createMessage].
  unfold for_task at 2. cbn [msg_taskId].
  destruct (Z.eqb_spec (im_taskId im) taskId) as [?|_]; [contradiction|].
  now rewrite app_nil_r.
Qed.

Lemma updateTaskStatus_other (taskId id : Z) (status : TaskStatus) (c : option Z)
    (st : MemStorage) :
  id <> taskId ->
  getTask taskId (snd (updateTaskStatus id status c st)) = getTask taskId st
  /\ getTaskMessages taskId (snd (updateTaskStatus id status c st)) = getTaskMessages taskId st.
Proof.
  intros Hne. split; [apply updateTaskStatus_other_task; congruence|].
  apply getTaskMessages_ext, updateTaskStatus_messages.
Qed.

(** A step of the run of another task leaves the task undisturbed. *)
Lemma other_run_undisturbed (taskId other : Z) (prompt : string) (pc : Pc) (inp : Input)
    (srv : Server) :
  other <> taskId ->
  keys_below (store srv) ->
  undisturbed taskId srv (fst (resume inp other prompt pc srv)).
Proof.
  intros Hne Hkeys.
  assert (Hcatch : forall error, undisturbed taskId srv (fst (catch other error srv))).
  { intros error. unfold catch, with_store, undisturbed. cbn [fst store sent].
    destruct (updateTaskStatus_other taskId other failed None (store srv) Hne) as [-> ->].
    auto. }
  assert (Hloop : forall flow i, undisturbed taskId srv (fst (loop_head other flow i inp srv))).
  { intros flow i. unfold loop_head.
    destruct (nth_error flow i) as [step|].
    - destruct (first_entry step) as [| |stepKey [| | |stepMessage| |]|];
        try apply Hcatch; try apply undisturbed_refl.
      unfold with_store, undisturbed. cbn [fst store sent].
      rewrite createMessage_other by assumption. auto.
    - unfold with_store, undisturbed. cbn [fst store sent].
      destruct (updateTaskStatus_other taskId other completed (Some (in_now inp)) (store srv)
                  Hne) as [-> ->].
      auto. }
  destruct pc; cbn [resume]; try apply undisturbed_refl.
  - unfold undisturbed, broadcast. cbn [fst store sent].
    rewrite filter_taskError_progress. auto.
  - destruct (in_fetch inp) as [message|r]; [apply Hcatch|].
    destruct (resp_ok r); [apply undisturbed_refl|apply Hcatch].
  - destruct (resp_body r) as [message|conversationFlow]; [apply Hcatch|].
    unfold loop_enter.
    destruct conversationFlow as [| | |text|flow|entries];
      try apply Hcatch; try apply Hloop.
    + destruct (units text); [apply Hloop|apply undisturbed_refl].
    + destruct (field "length" entries); [apply undisturbed_refl|apply Hloop].
  - unfold undisturbed, broadcast. cbn [fst store sent].
    rewrite filter_taskError_progress. auto.
  - apply Hloop.
  - unfold undisturbed, broadcast. cbn [fst store sent].
    rewrite List.filter_app. cbn. rewrite app_nil_r. auto.
  - unfold undisturbed, broadcast. cbn [fst store sent].
    rewrite List.filter_app. cbn [List.filter is_taskError].
    destruct (Z.eqb_spec other taskId) as [?|_]; [contradiction|].
    rewrite app_nil_r. auto.
Qed.

(** So does a submission: the task it creates has a new id. *)
Lemma post_undisturbed (taskId : Z) (body : option Json) (now : Z) (s : State) :
  taskId < currentTaskId (store (server s)) ->
  undisturbed taskId (server s) (server (snd (post_tasks body now s))).
Proof.
  intros Hlt. unfold post_tasks.
  destruct (insertTaskSchema_parse body) as [errors|validated]; [apply undisturbed_refl|].
  unfold processTaskWithUpdates, with_store, createTask.
  cbn [fst snd store sent server task_id].
  unfold undisturbed. cbn [store sent].
  destruct (updateTaskStatus_other taskId (currentTaskId (store (server s))) processing None
              {| tasks := <[currentTaskId (store (server s)) :=
                              mkTask (currentTaskId (store (server s))) (it_prompt validated)
                                pending now None]> (tasks (store (server s)));
                 messages := messages (store (server s));
                 currentTaskId := currentTaskId (store (server s)) + 1;
                 currentMessageId := currentMessageId (store (server s)) |})
    as [-> ->]; [lia|].
  split; [|split; [|reflexivity]].
  - unfold getTask. cbn [tasks]. apply lookup_insert_ne. lia.
  - now apply getTaskMessages_ext.
Qed.

End Interference.

(** ** The task processors: the re-entrancy guard and the life cycle *)

Section ProcessorFacts.
Import Storage Processor System.

Lemma lookup_split {A : Type} (l : list A) (k : nat) (x : A) :
  l !! k = Some x ->
  exists l1 l2,
    l = (l1 ++ x :: l2)%list
    /\ delete k l = (l1 ++ l2)%list
    /\ forall y, <[k := y]> l = (l1 ++ y :: l2)%list.
Proof.
  intros H. exists (take k l), (drop (S k) l). split; [|split].
  - symmetry. now apply take_drop_middle.
  - apply delete_take_drop.
  - intros y. apply insert_take_drop. eapply lookup_lt_Some, H.
Qed.

(** The three shapes of a step of a run: it stays among the non-terminal
    suspension points and leaves the task records alone; or it writes a
    terminal status for its own task and suspends on that write; or it was
    suspended on such a write and ends, clearing its active flag. *)
Lemma resume_cases (svc : Service) (inp : Input) (t : Z) (prompt : string) (pc : Pc)
    (w : World) :
  (exists pc',
      snd (resume svc inp t prompt pc w) = Suspended pc'
      /\ pc_terminal pc = false /\ pc_terminal pc' = false
      /\ tasks (store (fst (resume svc inp t prompt pc w))) = tasks (store w)
      /\ currentTaskId (store (fst (resume svc inp t prompt pc w))) = currentTaskId (store w)
      /\ activeProcessing (fst (resume svc inp t prompt pc w)) = activeProcessing w)
  \/ (exists pc' status c,
        snd (resume svc inp t prompt pc w) = Suspended pc'
        /\ pc_terminal pc = false /\ pc_terminal pc' = true /\ terminal status = true
        /\ store (fst (resume svc inp t prompt pc w))
           = snd (updateTaskStatus t status c (store w))
        /\ activeProcessing (fst (resume svc inp t prompt pc w)) = activeProcessing w)
  \/ ((forall pc', snd (resume svc inp t prompt pc w) <> Suspended pc')
      /\ pc_terminal pc = true
      /\ fst (resume svc inp t prompt pc w) = set_active t false w).
Proof.
  assert (Hcatch : forall error,
             exists pc' status c,
               snd (catch t error w) = Suspended pc'
               /\ pc_terminal pc' = true /\ terminal status = true
               /\ store (fst (catch t error w)) = snd (updateTaskStatus t status c (store w))
               /\ activeProcessing (fst (catch t error w)) = activeProcessing w).
  { intros error. exists (AwaitFailed error), failed, None. now repeat split. }
  assert (Hloop : forall flow i now,
             (exists pc',
                 snd (loop_head t flow i now w) = Suspended pc'
                 /\ pc_terminal pc' = false /\ fst (loop_head t flow i now w) = w)
             \/ (exists pc' status c,
                   snd (loop_head t flow i now w) = Suspended pc'
                   /\ pc_terminal pc' = true /\ terminal status = true
                   /\ store (fst (loop_head t flow i now w))
                      = snd (updateTaskStatus t status c (store w))
                   /\ activeProcessing (fst (loop_head t flow i now w)) = activeProcessing w)).
  { intros flow i now. unfold loop_head. destruct (nth_error flow i) as [step|].
    - left. eexists. now repeat split.
    - right. exists AwaitCompleted, completed, (Some now). now repeat split. }
  assert (Hloop' : forall flow i now,
             (exists pc',
                 snd (loop_head t flow i now w) = Suspended pc'
                 /\ pc_terminal pc' = false
                 /\ tasks (store (fst (loop_head t flow i now w))) = tasks (store w)
                 /\ currentTaskId (store (fst (loop_head t flow i now w)))
                    = currentTaskId (store w)
                 /\ activeProcessing (fst (loop_head t flow i now w)) = activeProcessing w)
             \/ (exists pc' status c,
                   snd (loop_head t flow i now w) = Suspended pc'
                   /\ pc_terminal pc' = true /\ terminal status = true
                   /\ store (fst (loop_head t flow i now w))
                      = snd (updateTaskStatus t status c (store w))
                   /\ activeProcessing (fst (loop_head t flow i now w)) = activeProcessing w)).
  { intros flow i now. destruct (Hloop flow i now) as [(pc' & Ho & Hpc & ->)|H]; [left|now right].
    exists pc'. now repeat split. }
  destruct pc; cbn [resume].
  - destruct svc.
    + destruct (Hloop' (Generator.generateConversationFlow prompt (in_random inp)) 0%nat
                  (in_now inp)) as [(pc' & H)|(pc' & status & c & H)].
      * left. exists pc'. tauto.
      * right. left. exists pc', status, c. tauto.
    + left. exists AwaitFetch. now repeat split.
  - destruct (in_fetch inp) as [message|r].
    + right. left. destruct (Hcatch message) as (pc' & status & c & H).
      exists pc', status, c. tauto.
    + destruct (resp_ok r).
      * left. exists (AwaitText r). now repeat split.
      * right. left. destruct (Hcatch (ExternalGen.api_failure r)) as (pc' & status & c & H).
        exists pc', status, c. tauto.
  - destruct (resp_body r) as [message|items].
    + right. left. destruct (Hcatch message) as (pc' & status & c & H).
      exists pc', status, c. tauto.
    + destruct (ExternalGen.parseAPIResponse items) as [flow|thrown|].
      * destruct (Hloop' flow 0%nat (in_now inp)) as [(pc' & H)|(pc' & status & c & H)].
        -- left. exists pc'. tauto.
        -- right. left. exists pc', status, c. tauto.
      * right. left. destruct (Hcatch (thrown_message inp thrown)) as (pc' & status & c & H).
        exists pc', status, c. tauto.
      * left. exists NotFollowed. now repeat split.
  - left. exists (AwaitCreate flow i). now repeat split.
  - destruct (Hloop' flow (S i) (in_now inp)) as [(pc' & H)|(pc' & status & c & H)].
    + left. exists pc'. tauto.
    + right. left. exists pc', status, c. tauto.
  - right. right. now repeat split.
  - right. right. now repeat split.
  - left. exists NotFollowed. now repeat split.
Qed.

End ProcessorFacts.

Section Invariant.
Import Storage Processor System.

Lemma distinct_split {A : Type} (f : A -> Z) (l1 l2 : list A) (x : A) :
  NoDup (f <$> (l1 ++ x :: l2)%list) ->
  NoDup (f <$> (l1 ++ l2)%list) /\ forall y, y ∈ (l1 ++ l2)%list -> f y <> f x.
Proof.
  rewrite !fmap_app, fmap_cons. intros H.
  apply NoDup_app in H as (H1 & H12 & H2).
  apply NoDup_cons in H2 as (Hx & H2).
  split.
  - apply NoDup_app. split; [exact H1|]. split; [|exact H2].
    intros z Hz Hz'. apply (H12 z Hz). now right.
  - intros y Hy Heq. apply elem_of_app in Hy as [Hy|Hy].
    + apply (H12 (f x)); [|now left]. rewrite <- Heq. now apply list_elem_of_fmap_2.
    + apply Hx. rewrite <- Heq. now apply list_elem_of_fmap_2.
Qed.

Lemma is_active_set_eq (t : Z) (b : bool) (w : World) : is_active t (set_active t b w) = b.
Proof. unfold is_active, set_active. cbn. now rewrite lookup_insert_eq. Qed.

Lemma is_active_set_ne (t t' : Z) (b : bool) (w : World) :
  t' <> t -> is_active t' (set_active t b w) = is_active t' w.
Proof. intros H. unfold is_active, set_active. cbn. now rewrite lookup_insert_ne. Qed.

Lemma is_active_ext (t : Z) (w w' : World) :
  activeProcessing w' = activeProcessing w -> is_active t w' = is_active t w.
Proof. unfold is_active. now intros ->. Qed.

Lemma getTask_ext (t : Z) (st st' : MemStorage) :
  tasks st' = tasks st -> getTask t st' = getTask t st.
Proof. unfold getTask. now intros ->. Qed.

Lemma updateTaskStatus_same (id : Z) (status : TaskStatus) (c : option Z) (st : MemStorage)
    (task' : Task) :
  getTask id (snd (updateTaskStatus id status c st)) = Some task' ->
  task_status task' = status /\ exists task, getTask id st = Some task.
Proof.
  destruct (getTask id st) as [task|] eqn:E.
  - destruct (updateTaskStatus_found id status c st task E) as [_ ->].
    intros [= <-]. eauto.
  - rewrite (updateTaskStatus_missing id status c st E). cbn [snd]. congruence.
Qed.

Lemma updateTaskStatus_ids (id : Z) (status : TaskStatus) (c : option Z) (st : MemStorage) :
  (forall t task, getTask t st = Some task -> t < currentTaskId st) ->
  forall t task,
    getTask t (snd (updateTaskStatus id status c st)) = Some task ->
    t < currentTaskId (snd (updateTaskStatus id status c st)).
Proof.
  intros Hids t task Ht.
  rewrite updateTaskStatus_currentTaskId.
  destruct (Z.eq_dec t id) as [->|Hne].
  - apply updateTaskStatus_same in Ht as (_ & task0 & Ht). eauto.
  - rewrite updateTaskStatus_other_task in Ht by exact Hne. eauto.
Qed.

Lemma consistent_init : consistent System.init.
Proof.
  split; cbn.
  - constructor.
  - intros r Hr. now apply not_elem_of_nil in Hr.
  - intros r task Hr. now apply not_elem_of_nil in Hr.
  - intros t task. unfold getTask. cbn. now rewrite lookup_empty.
Qed.

Lemma consistent_createTask (prompt : string) (now : Z) (s : State) :
  consistent s -> consistent (step Local (CreateTask prompt now) s).
Proof.
  intros [Hd Ha Ht Hi]. split; cbn [step world runs].
  - exact Hd.
  - intros r Hr. rewrite <- (Ha r Hr). now apply is_active_ext.
  - intros r task Hr. unfold with_store, createTask, getTask. cbn [store snd tasks].
    rewrite lookup_insert. case_decide as E.
    + intros [= <-]. discriminate.
    + now apply Ht.
  - intros t task. unfold with_store, createTask, getTask.
    cbn [store snd tasks currentTaskId].
    rewrite lookup_insert. case_decide as E.
    + intros _. lia.
    + intros H. apply Hi in H. lia.
Qed.

Lemma consistent_call (t : Z) (prompt : string) (s : State) :
  consistent s -> consistent (step Local (Call t prompt) s).
Proof.
  intros [Hd Ha Ht Hi]. cbn [step]. unfold processTask.
  destruct (is_active t (world s)) eqn:Hact; [now split|].
  assert (Hfresh : forall r, r ∈ runs s -> run_task r <> t).
  { intros r Hr Heq. specialize (Ha r Hr). rewrite Heq in Ha. congruence. }
  split; cbn [world runs].
  - rewrite fmap_app. apply NoDup_app. split; [exact Hd|]. split; [|apply NoDup_singleton].
    intros z Hz Hz'. apply list_elem_of_singleton in Hz'. subst z.
    apply list_elem_of_fmap in Hz as (r & Heq & Hr). now apply (Hfresh r).
  - intros r Hr.
    rewrite (is_active_ext _ (set_active t true (world s))) by reflexivity.
    apply elem_of_app in Hr as [Hr|Hr].
    + rewrite is_active_set_ne by now apply Hfresh. now apply Ha.
    + apply list_elem_of_singleton in Hr. subst r. apply is_active_set_eq.
  - intros r task Hr. unfold with_store, set_active. cbn [store].
    apply elem_of_app in Hr as [Hr|Hr].
    + rewrite updateTaskStatus_other_task by now apply Hfresh. now apply Ht.
    + apply list_elem_of_singleton in Hr. subst r. cbn [run_task run_pc].
      intros Htask. apply updateTaskStatus_same in Htask as (-> & _). discriminate.
  - unfold with_store, set_active. cbn [store]. now apply updateTaskStatus_ids.
Qed.

Lemma consistent_resume (svc : Service) (k : nat) (inp : Input) (s : State) :
  consistent s -> consistent (step svc (Resume k inp) s).
Proof.
  intros [Hd Ha Ht Hi]. cbn [step].
  destruct (runs s !! k) as [r|] eqn:Hk; [|now split].
  destruct (lookup_split _ _ _ Hk) as (l1 & l2 & Hruns & Hdel & Hins).
  rewrite Hruns in Hd. destruct (distinct_split _ _ _ _ Hd) as (Hd' & Hne).
  assert (Hin : forall x r', r' ∈ (l1 ++ x :: l2)%list -> r' = x \/ r' ∈ (l1 ++ l2)%list).
  { intros x r' H. rewrite elem_of_app, elem_of_cons in H. rewrite elem_of_app. tauto. }
  assert (Hold : forall r', r' ∈ (l1 ++ l2)%list -> r' ∈ runs s).
  { intros r' H. rewrite Hruns. rewrite elem_of_app in H. rewrite elem_of_app, elem_of_cons.
    tauto. }
  assert (Hr : r ∈ runs s) by (rewrite Hruns, elem_of_app, elem_of_cons; tauto).
  unfold settle.
  destruct (resume_cases svc inp (run_task r) (run_prompt r) (run_pc r) (world s))
    as [(pc' & Ho & Hpc & Hpc' & Htasks & Hcid & Hact)
       |[(pc' & status & c & Ho & Hpc & Hpc' & Hterm & Hstore & Hact)
        |(Ho & Hpc & Hw)]].
  - rewrite Ho. split; cbn [world runs]; rewrite ?Hins.
    + now rewrite fmap_app, fmap_cons in *.
    + intros r' Hr'. rewrite (is_active_ext _ _ _ Hact).
      apply Hin in Hr' as [->|Hr']; [exact (Ha r Hr)|now apply Ha, Hold].
    + intros r' task Hr'. rewrite (getTask_ext _ _ _ Htasks).
      apply Hin in Hr' as [->|Hr']; cbn [run_task run_pc].
      * intros Htask Hterminal. specialize (Ht r task Hr Htask Hterminal). congruence.
      * now apply Ht, Hold.
    + intros t task. rewrite (getTask_ext _ _ _ Htasks), Hcid. apply Hi.
  - rewrite Ho. split; cbn [world runs]; rewrite ?Hins.
    + now rewrite fmap_app, fmap_cons in *.
    + intros r' Hr'. rewrite (is_active_ext _ _ _ Hact).
      apply Hin in Hr' as [->|Hr']; [exact (Ha r Hr)|now apply Ha, Hold].
    + intros r' task Hr'. rewrite Hstore.
      apply Hin in Hr' as [->|Hr']; cbn [run_task run_pc]; [now intros|].
      rewrite updateTaskStatus_other_task by now apply Hne. now apply Ht, Hold.
    + rewrite Hstore. now apply updateTaskStatus_ids.
  - destruct (snd (resume svc inp (run_task r) (run_prompt r) (run_pc r) (world s)))
      as [pc'| |error] eqn:Ho'; [now destruct (Ho pc')| |];
      (split; cbn [world runs]; rewrite ?Hw, ?Hdel;
       [ exact Hd'
       | intros r' Hr'; rewrite is_active_set_ne by (now apply Hne);
         now apply Ha, Hold
       | intros r' task Hr'; now apply Ht, Hold
       | exact Hi ]).
Qed.

Lemma consistent_step (svc : Service) (ev : Event) (s : State) :
  consistent s -> consistent (step svc ev s).
Proof.
  destruct ev as [prompt now|t prompt|k inp].
  - apply consistent_createTask.
  - apply consistent_call.
  - apply consistent_resume.
Qed.

Lemma consistent_exec (svc : Service) (evs : list Event) (s : State) :
  consistent s -> consistent (exec svc evs s).
Proof.
  revert s. induction evs as [|ev evs IH]; intros s H; [exact H|].
  apply IH. now apply consistent_step.
Qed.

Lemma reachable_consistent (svc : Service) (s : State) : reachable svc s -> consistent s.
Proof. intros [evs ->]. apply consistent_exec, consistent_init. Qed.

End Invariant.

Section LifeCycle.
Import Storage Processor System.

Lemma state_eta (s : State) : {| world := world s; runs := runs s |} = s.
Proof. now destruct s. Qed.

(** C4.  While a run for a task id is in flight, a further
    [processTask(taskId, prompt)] on the same service instance is rejected
    with the error ["Task is already being processed"] and changes
    nothing: the store (status, [completedAt] and messages of the task
    included), the active flags and the runs in flight are as before. *)
Theorem processTask_rejects_reentry (svc : Service) (s : State) (taskId : Z) (prompt : string) :
  reachable svc s ->
  in_flight taskId s ->
  processTask taskId prompt (world s) = (world s, Rejected already_processing)
  /\ step svc (Call taskId prompt) s = s
  /\ getTask taskId (store (fst (processTask taskId prompt (world s))))
     = getTask taskId (store (world s))
  /\ getTaskMessages taskId (store (fst (processTask taskId prompt (world s))))
     = getTaskMessages taskId (store (world s)).
Proof.
  intros Hreach (r & Hr & <-).
  apply reachable_consistent in Hreach.
  pose proof (runs_active _ Hreach r Hr) as Hactive.
  assert (H : processTask (run_task r) prompt (world s) = (world s, Rejected already_processing))
    by (unfold processTask; now rewrite Hactive).
  split; [exact H|]. split.
  - cbn [step]. rewrite H. apply state_eta.
  - now rewrite H.
Qed.

Lemma processTask_rejects_reentry_witness :
  reachable Local hello_started
  /\ in_flight 1 hello_started
  /\ step Local (Call 1 "hello again") hello_started = hello_started.
Proof.
  assert (Hreach : reachable Local hello_started).
  { exists [CreateTask "hello" 0; Call 1 "hello"; Resume 0 (at_time 1)]. reflexivity. }
  assert (Hflight : in_flight 1 hello_started).
  { eexists. split; [apply list_elem_of_here|reflexivity]. }
  split; [exact Hreach|]. split; [exact Hflight|].
  exact (proj1 (proj2 (processTask_rejects_reentry Local hello_started 1 "hello again"
                         Hreach Hflight))).
Defined.

Lemma status_step (svc : Service) (taskId : Z) (s : State) (status : TaskStatus) (ev : Event) :
  consistent s ->
  status_of taskId s = Some status ->
  restarts taskId ev s = false ->
  exists status',
    status_of taskId (step svc ev s) = Some status'
    /\ status_rank status <= status_rank status'
    /\ (terminal status = true -> status' = status).
Proof.
  intros [Hd Ha Ht Hi] Hstatus Hrestart.
  assert (Hsame : forall s', getTask taskId (store (world s')) = getTask taskId (store (world s)) ->
            exists status',
              status_of taskId s' = Some status'
              /\ status_rank status <= status_rank status'
              /\ (terminal status = true -> status' = status)).
  { intros s' H. exists status. unfold status_of in *. rewrite H. split; [exact Hstatus|].
    split; [lia|auto]. }
  unfold restarts in Hrestart. rewrite Hstatus in Hrestart.
  unfold status_of in Hstatus.
  destruct (getTask taskId (store (world s))) as [task|] eqn:Htask; [|discriminate].
  cbn in Hstatus. injection Hstatus as <-.
  destruct ev as [prompt now|t prompt|k inp]; cbn [step].
  - apply Hsame. unfold with_store, createTask, getTask. cbn [world store snd tasks].
    rewrite lookup_insert_ne; [exact Htask|]. apply Hi in Htask. lia.
  - unfold processTask. destruct (is_active t (world s)); [now apply Hsame|].
    destruct (Z.eq_dec t taskId) as [->|Hne].
    + cbn [calls] in Hrestart. rewrite Z.eqb_refl in Hrestart. cbn in Hrestart.
      destruct (set_status_found taskId processing None _ _ Htask) as [Hnew _].
      exists processing. unfold status_of, with_store, set_active. cbn [world store].
      rewrite Hnew. split; [reflexivity|].
      destruct (task_status task); try discriminate; cbn; split; (lia || discriminate).
    + apply Hsame. unfold with_store, set_active. cbn [world store].
      rewrite updateTaskStatus_other_task by congruence. exact Htask.
  - destruct (runs s !! k) as [r|] eqn:Hk; [|now apply Hsame].
    assert (Hr : r ∈ runs s) by (eapply list_elem_of_lookup_2, Hk).
    assert (Hworld : forall res, world (settle k r res s) = fst res).
    { intros res. unfold settle. now destruct (snd res). }
    destruct (resume_cases svc inp (run_task r) (run_prompt r) (run_pc r) (world s))
      as [(pc' & _ & _ & _ & Htasks & _)
         |[(pc' & st' & c & _ & Hpc & _ & Hterm & Hstore & _)
          |(_ & _ & Hw)]].
    + apply Hsame. rewrite Hworld. rewrite (getTask_ext _ _ _ Htasks). exact Htask.
    + destruct (Z.eq_dec (run_task r) taskId) as [Heq|Hne].
      * exists st'. unfold status_of. rewrite Hworld, Hstore, Heq.
        destruct (set_status_found taskId st' c _ _ Htask) as [-> _].
        split; [reflexivity|].
        destruct (terminal (task_status task)) eqn:Hold.
        -- assert (pc_terminal (run_pc r) = true)
             by (apply (Ht r task Hr); [now rewrite Heq|exact Hold]).
           congruence.
        -- split; [|discriminate].
           destruct (task_status task), st'; cbn in *; (lia || discriminate).
      * apply Hsame. rewrite Hworld, Hstore.
        rewrite updateTaskStatus_other_task by congruence. exact Htask.
    + apply Hsame. rewrite Hworld, Hw. exact Htask.
Qed.

(** C3, as the code has it.  In every execution of a service instance in
    which [processTask] is not called for a task that is already completed
    or failed, the status of a task never moves to an earlier state, and
    once it is [completed] or [failed] it stays what it is: creating tasks,
    runs of other tasks, the rest of its own run and rejected calls leave
    it alone. *)
Theorem status_never_regresses (svc : Service) (taskId : Z) (evs : list Event) (s : State)
    (status : TaskStatus) :
  reachable svc s ->
  status_of taskId s = Some status ->
  restart_free svc taskId evs s = true ->
  exists status',
    status_of taskId (exec svc evs s) = Some status'
    /\ status_rank status <= status_rank status'
    /\ (terminal status = true -> status' = status).
Proof.
  intros Hreach. apply reachable_consistent in Hreach.
  revert s status Hreach. induction evs as [|ev evs IH]; intros s status Hcons Hstatus Hfree.
  - exists status. split; [exact Hstatus|]. split; [lia|auto].
  - cbn [restart_free] in Hfree. apply andb_prop in Hfree as [Hev Hfree].
    apply negb_true_iff in Hev.
    destruct (status_step svc taskId s status ev Hcons Hstatus Hev) as (st1 & H1 & Hr1 & Ht1).
    destruct (IH (step svc ev s) st1 (consistent_step svc ev s Hcons) H1 Hfree)
      as (st2 & H2 & Hr2 & Ht2).
    exists st2. split; [exact H2|]. split; [lia|].
    intros Hterm. pose proof (Ht1 Hterm) as Heq. subst st1. now apply Ht2.
Qed.

Lemma status_never_regresses_witness :
  status_of 1 hello_created = Some pending
  /\ exists status',
       status_of 1 hello_done = Some status'
       /\ status_rank pending <= status_rank status'.
Proof.
  split; [reflexivity|].
  assert (Hreach : reachable Local hello_created).
  { exists [CreateTask "hello" 0]. reflexivity. }
  destruct (status_never_regresses Local 1 hello_run hello_created pending Hreach eq_refl)
    as (status' & Hstatus & Hrank & _).
  - vm_compute. reflexivity.
  - exists status'. split; [exact Hstatus|exact Hrank].
Defined.

(** C3 as stated fails.  After a complete run the task is [completed] and
    no run is in flight; a second [processTask] call for the same id is
    accepted and puts the task back to [processing], with [completedAt]
    reset. *)
Lemma completed_task_restarts :
  status_of 1 hello_done = Some completed
  /\ runs hello_done = []
  /\ status_of 1 (step Local (Call 1 "hello") hello_done) = Some processing
  /\ task_completedAt <$> getTask 1 (store (world (step Local (Call 1 "hello") hello_done)))
     = Some None.
Proof. repeat split; vm_compute; reflexivity. Qed.

End LifeCycle.

Section ServiceFailure.
Import Storage Processor.

(** The same failure seen by [ExternalAgentService.processTask]: the run
    is rejected with the error of [callExternalAPI], the task is [failed],
    no message was written and the active flag is cleared. *)
Lemma processTask_oracle_error (taskId : Z) (prompt : string) (task : Task) (r : Response)
    (i1 i2 i3 : Input) (w : World) :
  getTask taskId (store w) = Some task ->
  is_active taskId w = false ->
  in_fetch i2 = Fetched r ->
  resp_ok r = false ->
  let w1 := fst (processTask taskId prompt w) in
  let w2 := fst (resume External i1 taskId prompt AwaitProcessing w1) in
  let w3 := fst (resume External i2 taskId prompt AwaitFetch w2) in
  let error := ExternalGen.api_failure r in
  snd (processTask taskId prompt w) = Suspended AwaitProcessing
  /\ snd (resume External i1 taskId prompt AwaitProcessing w1) = Suspended AwaitFetch
  /\ snd (resume External i2 taskId prompt AwaitFetch w2) = Suspended (AwaitFailed error)
  /\ resume External i3 taskId prompt (AwaitFailed error) w3
     = (set_active taskId false w3, Rejected error)
  /\ task_status <$> getTask taskId (store w3) = Some failed
  /\ messages (store w3) = messages (store w).
Proof.
  intros Htask Hactive Hfetch Hok. unfold processTask. rewrite Hactive.
  cbn [resume fst snd]. rewrite Hfetch, Hok. unfold catch, with_store, set_active.
  cbn [fst snd store].
  repeat (split; [reflexivity|]).
  destruct (set_status_found taskId processing None _ _ Htask) as [Hp Hpm].
  destruct (set_status_found taskId failed None _ _ Hp) as [Hf Hfm].
  split; [now rewrite Hf|]. now rewrite Hfm, Hpm.
Qed.

End ServiceFailure.

(** * Further properties *)

(** ** The pattern matcher against what patterns denote *)

Section MatcherFacts.

Lemma append_nil (b : string) : EmptyString +:+ b = b.
Proof. reflexivity. Qed.

Lemma append_cons (x : ascii) (a b : string) : String x a +:+ b = String x (a +:+ b).
Proof. reflexivity. Qed.

Lemma append_assoc (a b c : string) : (a +:+ b) +:+ c = a +:+ (b +:+ c).
Proof.
  induction a as [|x a IH]; [reflexivity|]. rewrite !append_cons. now rewrite IH.
Qed.

Lemma append_empty_r (a : string) : a +:+ EmptyString = a.
Proof.
  induction a as [|x a IH]; [reflexivity|]. rewrite append_cons. now rewrite IH.
Qed.

Lemma length_append (a b : string) :
  String.length (a +:+ b) = (String.length a + String.length b)%nat.
Proof.
  induction a as [|x a IH]; [reflexivity|]. rewrite append_cons. cbn. now rewrite IH.
Qed.

Lemma prefix_append (l s : string) :
  String.prefix l s = true -> s = l +:+ Js.drop_chars (String.length l) s.
Proof.
  revert s. induction l as [|x l IH]; intros s H; [reflexivity|].
  destruct s as [|y s]; [discriminate|]. cbn in H.
  destruct (ascii_dec x y) as [->|]; [|discriminate].
  cbn [String.length Js.drop_chars]. rewrite append_cons. f_equal. now apply IH.
Qed.

Lemma prefix_of_append (l s : string) : String.prefix l (l +:+ s) = true.
Proof.
  induction l as [|x l IH]; [now destruct s|].
  rewrite append_cons. cbn. destruct (ascii_dec x x); [exact IH|contradiction].
Qed.

Lemma drop_chars_append (l s : string) : Js.drop_chars (String.length l) (l +:+ s) = s.
Proof. induction l as [|x l IH]; [reflexivity|]. rewrite append_cons. exact IH. Qed.

Lemma substring_consumed (w s : string) :
  String.substring 0 (String.length (w +:+ s) - String.length s) (w +:+ s) = w.
Proof.
  rewrite length_append.
  replace (String.length w + String.length s - String.length s)%nat with (String.length w)
    by lia.
  induction w as [|x w IH]; [now destruct s|].
  rewrite append_cons. cbn. now rewrite IH.
Qed.

Section Engine.
Context {R : Type}.

Lemma star_sound (p : ascii -> bool) (s : string) (k : string -> option R) (x : R) :
  Js.star p s k = Some x ->
  exists w s', s = w +:+ s' /\ all_chars p w = true /\ k s' = Some x.
Proof.
  induction s as [|c s IH]; cbn; intros H.
  - exists EmptyString, EmptyString. auto.
  - destruct (p c) eqn:Hc; [|exists EmptyString, (String c s); auto].
    destruct (Js.star p s k) as [y|] eqn:Hs.
    + injection H as ->. destruct (IH eq_refl) as (w & s' & -> & Hw & Hk).
      exists (String c w), s'. cbn. rewrite Hc. auto.
    + exists EmptyString, (String c s). auto.
Qed.

Lemma star_fallback (p : ascii -> bool) (s : string) (k : string -> option R) :
  k s <> None -> Js.star p s k <> None.
Proof.
  intros Hk. destruct s as [|c s]; cbn; [exact Hk|].
  destruct (p c); [|exact Hk]. now destruct (Js.star p s k).
Qed.

Lemma star_complete (p : ascii -> bool) (w s' : string) (k : string -> option R) :
  all_chars p w = true -> k s' <> None -> Js.star p (w +:+ s') k <> None.
Proof.
  induction w as [|c w IH]; intros Hw Hk; [now apply star_fallback|].
  cbn in Hw. apply andb_prop in Hw as [Hc Hw].
  rewrite append_cons. cbn. rewrite Hc.
  specialize (IH Hw Hk). now destruct (Js.star p (w +:+ s') k).
Qed.

(** Soundness: an answer of the matcher comes from an instance of the
    pattern at the front of the input. *)
Lemma match_at_sound (r : Js.regex) :
  forall (s : string) (caps : list string) (k : string -> list string -> option R) (x : R),
    Js.match_at r s caps k = Some x ->
    exists w s' c, s = w +:+ s' /\ Denotes r w c /\ k s' (caps ++ c)%list = Some x.
Proof.
  induction r as [l|p|p|r1 IH1 r2 IH2|r1 IH1 r2 IH2|r IH]; intros s caps k x H; cbn in H.
  - destruct (String.prefix l s) eqn:Hl; [|discriminate].
    exists l, (Js.drop_chars (String.length l) s), []. rewrite app_nil_r.
    split; [now apply prefix_append|]. split; [constructor|exact H].
  - destruct s as [|c s]; [discriminate|]. destruct (p c) eqn:Hc; [|discriminate].
    exists (String c EmptyString), s, []. rewrite app_nil_r.
    split; [reflexivity|]. split; [now constructor|exact H].
  - unfold Js.plus in H. destruct s as [|c s]; [discriminate|].
    destruct (p c) eqn:Hc; [|discriminate].
    apply star_sound in H as (w & s' & -> & Hw & Hk).
    exists (String c w), s', []. rewrite app_nil_r.
    split; [reflexivity|]. split; [now constructor|exact Hk].
  - apply IH1 in H as (w1 & s1 & c1 & -> & D1 & H).
    apply IH2 in H as (w2 & s2 & c2 & -> & D2 & H).
    exists (w1 +:+ w2), s2, (c1 ++ c2)%list.
    split; [now rewrite append_assoc|]. split; [now constructor|].
    now rewrite app_assoc.
  - destruct (Js.match_at r1 s caps k) as [y|] eqn:H1.
    + injection H as ->. apply IH1 in H1 as (w & s' & c & -> & D & H).
      exists w, s', c. split; [reflexivity|]. split; [now apply DAltL|exact H].
    + apply IH2 in H as (w & s' & c & -> & D & H).
      exists w, s', c. split; [reflexivity|]. split; [now apply DAltR|exact H].
  - apply IH in H as (w & s' & c & -> & D & H).
    rewrite substring_consumed in H.
    exists w, s', (c ++ [w])%list. split; [reflexivity|]. split; [now constructor|].
    now rewrite app_assoc.
Qed.

(** Completeness: when an instance of the pattern is at the front of the
    input and the continuation accepts what follows it, the matcher
    answers. *)
Lemma match_at_complete (r : Js.regex) (w : string) (c : list string) :
  Denotes r w c ->
  forall (s' : string) (caps : list string) (k : string -> list string -> option R),
    k s' (caps ++ c)%list <> None -> Js.match_at r (w +:+ s') caps k <> None.
Proof.
  induction 1 as [l|p ch Hp|p ch w Hp Hw|r1 r2 w1 w2 c1 c2 D1 IH1 D2 IH2
                 |r1 r2 w c D IH|r1 r2 w c D IH|r w c D IH]; intros s' caps k Hk; cbn.
  - rewrite prefix_of_append, drop_chars_append. now rewrite app_nil_r in Hk.
  - rewrite append_cons, append_nil. cbn. rewrite Hp. now rewrite app_nil_r in Hk.
  - rewrite append_cons. cbn. rewrite Hp. rewrite app_nil_r in Hk. now apply star_complete.
  - rewrite append_assoc. apply IH1. apply IH2. now rewrite <- app_assoc.
  - specialize (IH s' caps k Hk). now destruct (Js.match_at r1 (w +:+ s') caps k).
  - destruct (Js.match_at r1 (w +:+ s') caps k); [discriminate|]. now apply IH.
  - apply IH. rewrite substring_consumed. now rewrite <- app_assoc.
Qed.

End Engine.

Lemma match_top_sound (r : Js.regex) (s : string) (x : string * list string) :
  Js.match_at r s []
    (fun s' caps => Some (String.substring 0 (String.length s - String.length s') s, caps))
  = Some x ->
  (exists post, s = fst x +:+ post) /\ Denotes r (fst x) (snd x).
Proof.
  intros H. apply match_at_sound in H as (w & s' & c & -> & D & Hk).
  rewrite substring_consumed in Hk. injection Hk as <-.
  split; [now exists s'|exact D].
Qed.

Lemma re_match_sound (r : Js.regex) (s whole : string) (caps : list string) :
  Js.re_match r s = Some (whole, caps) -> occurs_in whole s /\ Denotes r whole caps.
Proof.
  induction s as [|ch s IH]; cbn [Js.re_match]; intros H.
  - destruct (Js.match_at r EmptyString [] _) as [y|] eqn:Hm; [|discriminate].
    injection H as ->. apply match_top_sound in Hm as [(post & Hs) D].
    split; [now exists EmptyString, post|exact D].
  - destruct (Js.match_at r (String ch s) [] _) as [y|] eqn:Hm.
    + injection H as ->. apply match_top_sound in Hm as [(post & Hs) D].
      split; [now exists EmptyString, post|exact D].
    + destruct (IH H) as [(pre & post & ->) D].
      split; [now exists (String ch pre), post|exact D].
Qed.

Lemma re_match_here (r : Js.regex) (s : string) :
  Js.match_at r s []
    (fun s' caps => Some (String.substring 0 (String.length s - String.length s') s, caps))
  <> None ->
  Js.re_match r s <> None.
Proof.
  intros H. destruct s as [|ch s]; cbn [Js.re_match];
    destruct (Js.match_at r _ [] _); congruence.
Qed.

Lemma re_match_later (r : Js.regex) (ch : ascii) (s : string) :
  Js.re_match r s <> None -> Js.re_match r (String ch s) <> None.
Proof.
  intros H. cbn [Js.re_match]. destruct (Js.match_at r (String ch s) [] _); congruence.
Qed.

Lemma re_match_complete (r : Js.regex) (s w : string) (c : list string) :
  occurs_in w s -> Denotes r w c -> Js.re_match r s <> None.
Proof.
  intros (pre & post & ->) D. induction pre as [|ch pre IH].
  - rewrite append_nil. apply re_match_here.
    apply (match_at_complete r w c D). discriminate.
  - rewrite append_cons. now apply re_match_later.
Qed.

End MatcherFacts.

(** ** What the extraction heuristics return *)

Section ExtractionFacts.
Import Generator.

Lemma occurs_in_trans (a b c : string) : occurs_in a b -> occurs_in b c -> occurs_in a c.
Proof.
  intros (p1 & q1 & ->) (p2 & q2 & ->). exists (p2 +:+ p1), (q1 +:+ q2).
  now rewrite !append_assoc.
Qed.

Lemma occurs_in_left (a b : string) : occurs_in a (a +:+ b).
Proof. now exists EmptyString, b. Qed.

Lemma occurs_in_right (a b : string) : occurs_in b (a +:+ b).
Proof. exists a, EmptyString. now rewrite append_empty_r. Qed.

Ltac invert_denotes :=
  repeat match goal with
         | H : Denotes (Js.Lit _) _ _ |- _ => inversion H; subst; clear H
         | H : Denotes (Js.Class _) _ _ |- _ => inversion H; subst; clear H
         | H : Denotes (Js.Plus _) _ _ |- _ => inversion H; subst; clear H
         | H : Denotes (Js.Seq _ _) _ _ |- _ => inversion H; subst; clear H
         | H : Denotes (Js.Alt _ _) _ _ |- _ => inversion H; subst; clear H
         | H : Denotes (Js.Group _) _ _ |- _ => inversion H; subst; clear H
         end.

Lemma denotes_amount (w : string) (c : list string) :
  Denotes amount_pattern w c ->
  exists d ds,
    w = "$" +:+ String d ds /\ Js.is_digit d = true /\ all_chars Js.is_digit ds = true.
Proof. unfold amount_pattern. intros H. invert_denotes. eauto. Qed.

Lemma denotes_capitalized (w : string) (c : list string) :
  Denotes capitalized w c -> c = [] /\ capitalised_word w.
Proof.
  unfold capitalized. intros H. invert_denotes. split; [reflexivity|].
  unfold capitalised_word. eauto 10.
Qed.

Lemma denotes_recipient (r : Js.regex) (w : string) (c : list string) :
  r ∈ recipient_patterns ->
  Denotes r w c ->
  exists name, c = [name] /\ capitalised_word name /\ occurs_in name w.
Proof.
  unfold recipient_patterns. intros Hr H.
  apply elem_of_cons in Hr as [->|Hr]; [|apply list_elem_of_singleton in Hr as ->].
  - inversion H as [| | |? ? v rest cv crest Hv Hrest| | |]; subst.
    inversion Hrest as [| | |? ? sp name csp cname Hsp Hname| | |]; subst.
    inversion Hname as [| | | | | |? ? ? Hcap]; subst.
    apply denotes_capitalized in Hcap as [-> Hcap].
    assert (cv = []) as -> by (clear -Hv; invert_denotes; reflexivity).
    assert (csp = []) as -> by (clear -Hsp; invert_denotes; reflexivity).
    exists name. split; [reflexivity|]. split; [exact Hcap|].
    eapply occurs_in_trans; [apply occurs_in_right|apply occurs_in_right].
  - inversion H as [| | |? ? name rest cname crest Hname Hrest| | |]; subst.
    inversion Hname as [| | | | | |? ? ? Hcap]; subst.
    apply denotes_capitalized in Hcap as [-> Hcap].
    assert (crest = []) as -> by (clear -Hrest; invert_denotes; reflexivity).
    exists name. split; [reflexivity|]. split; [exact Hcap|apply occurs_in_left].
Qed.

Lemma first_capture_sound (patterns : list Js.regex) (prompt name : string) :
  (forall r, r ∈ patterns -> r ∈ recipient_patterns) ->
  first_capture patterns prompt = Some name ->
  capitalised_word name /\ occurs_in name prompt.
Proof.
  induction patterns as [|r rest IH]; intros Hsub H; [discriminate|].
  cbn [first_capture] in H.
  destruct (Js.re_match r prompt) as [[whole caps]|] eqn:Hm.
  - apply re_match_sound in Hm as [Hocc D].
    destruct (denotes_recipient r whole caps (Hsub r (list_elem_of_here _ _)) D)
      as (name' & -> & Hcap & Hin).
    cbn in H. injection H as <-.
    split; [exact Hcap|]. now apply (occurs_in_trans _ whole).
  - apply IH; [|exact H]. intros r' Hr'. apply Hsub. now apply list_elem_of_further.
Qed.

Lemma extractAmount_sound (prompt amount : string) :
  extractAmount prompt = Some amount ->
  occurs_in amount prompt
  /\ exists d ds,
       amount = "$" +:+ String d ds
       /\ Js.is_digit d = true /\ all_chars Js.is_digit ds = true.
Proof.
  unfold extractAmount. destruct (Js.re_match amount_pattern prompt) as [[whole caps]|] eqn:Hm;
    [|discriminate].
  intros [= <-]. apply re_match_sound in Hm as [Hocc D].
  split; [exact Hocc|]. now apply denotes_amount in D.
Qed.

Lemma extractAmount_complete (prompt : string) (d : ascii) :
  Js.is_digit d = true ->
  occurs_in ("$" +:+ String d EmptyString) prompt ->
  extractAmount prompt <> None.
Proof.
  intros Hd Hocc. unfold extractAmount.
  assert (D : Denotes amount_pattern ("$" +:+ String d EmptyString)
                ([] ++ ([] ++ [String d EmptyString]))%list).
  { unfold amount_pattern. repeat constructor. exact Hd. }
  pose proof (re_match_complete _ _ _ _ Hocc D) as H.
  now destruct (Js.re_match amount_pattern prompt) as [[whole caps]|].
Qed.

Lemma star_greedy {R : Type} (p : ascii -> bool) (ds post : string)
    (k : string -> option R) (x : R) :
  all_chars p ds = true -> begins_with p post = false -> k post = Some x ->
  Js.star p (ds +:+ post) k = Some x.
Proof.
  intros Hds Hpost Hk. induction ds as [|c ds IH].
  - rewrite append_nil. destruct post as [|c s]; cbn [Js.star]; [exact Hk|].
    cbn in Hpost. now rewrite Hpost.
  - cbn in Hds. apply andb_prop in Hds as [Hc Hds].
    rewrite append_cons. cbn [Js.star]. rewrite Hc. now rewrite (IH Hds).
Qed.

Lemma amount_match {R : Type} (d : ascii) (ds post : string)
    (k : string -> list string -> option R) (x : R) :
  Js.is_digit d = true -> all_chars Js.is_digit ds = true ->
  begins_with Js.is_digit post = false ->
  k post [String d ds] = Some x ->
  Js.match_at amount_pattern ("$" +:+ String d ds +:+ post) [] k = Some x.
Proof.
  intros Hd Hds Hpost Hk. unfold amount_pattern. cbn [Js.match_at].
  rewrite prefix_of_append, drop_chars_append.
  rewrite append_cons. cbn [Js.plus]. rewrite Hd.
  apply star_greedy; [exact Hds|exact Hpost|].
  change (String d (ds +:+ post)) with (String d ds +:+ post).
  rewrite substring_consumed. exact Hk.
Qed.

Lemma amount_no_match {R : Type} (s : string) (k : string -> list string -> option R) :
  starts_amount s = false -> Js.match_at amount_pattern s [] k = None.
Proof.
  intros H. unfold amount_pattern. cbn [Js.match_at].
  destruct s as [|c s]; [reflexivity|]. cbn [starts_amount] in H.
  cbn [String.prefix]. destruct (ascii_dec "$" c) as [<-|Hc]; [|reflexivity].
  cbn in H. destruct s as [|c' s]; cbn; [reflexivity|].
  cbn in H. now rewrite H.
Qed.

Lemma amount_at_front (d : ascii) (ds post : string) :
  Js.is_digit d = true -> all_chars Js.is_digit ds = true ->
  begins_with Js.is_digit post = false ->
  Js.re_match amount_pattern ("$" +:+ String d ds +:+ post)
  = Some ("$" +:+ String d ds, [String d ds]).
Proof.
  intros Hd Hds Hpost.
  assert (Hm : Js.match_at amount_pattern ("$" +:+ String d ds +:+ post) []
                 (fun s' caps =>
                    Some (String.substring 0
                            (String.length ("$" +:+ String d ds +:+ post) - String.length s')
                            ("$" +:+ String d ds +:+ post), caps))
               = Some ("$" +:+ String d ds, [String d ds])).
  { apply amount_match; try assumption.
    rewrite <- append_assoc, substring_consumed. reflexivity. }
  change ("$" +:+ String d ds +:+ post) with (String "$" (String d ds +:+ post)) in *.
  cbn [Js.re_match]. now rewrite Hm.
Qed.

Lemma starts_amount_occurs (s : string) :
  starts_amount s = true -> amount_in s.
Proof.
  destruct s as [|c [|d s]]; cbn [starts_amount begins_with]; try discriminate.
  - now rewrite andb_false_r.
  - intros H. apply andb_prop in H as [Hc Hd]. apply Ascii.eqb_eq in Hc as ->.
    exists d. split; [exact Hd|]. exists EmptyString, s. reflexivity.
Qed.

Lemma amount_in_cons (c : ascii) (s : string) :
  amount_in (String c s) <-> starts_amount (String c s) = true \/ amount_in s.
Proof.
  split.
  - intros (d & Hd & pre & post & E). destruct pre as [|c' pre].
    + left. change (String c s = String "$" (String d post)) in E.
      injection E as -> ->. cbn [starts_amount begins_with]. now rewrite Ascii.eqb_refl, Hd.
    + right. rewrite append_cons in E. injection E as -> ->.
      exists d. split; [exact Hd|]. now exists pre, post.
  - intros [H|(d & Hd & pre & post & ->)]; [now apply starts_amount_occurs|].
    exists d. split; [exact Hd|]. exists (String c pre), post. now rewrite append_cons.
Qed.

(** Before the first amount the matcher finds nothing. *)
Lemma amount_first (pre rest : string) (x : string * list string) :
  ~ amount_in pre -> starts_amount rest = true ->
  Js.re_match amount_pattern rest = Some x ->
  Js.re_match amount_pattern (pre +:+ rest) = Some x.
Proof.
  intros Hpre Hrest Hm. induction pre as [|c pre IH]; [now rewrite append_nil|].
  rewrite append_cons. cbn [Js.re_match].
  rewrite amount_no_match.
  - apply IH. intros H. apply Hpre. apply amount_in_cons. now right.
  - destruct (starts_amount (String c (pre +:+ rest))) eqn:E; [|reflexivity].
    exfalso. cbn [starts_amount] in E. apply andb_prop in E as [Hc Hd].
    destruct pre as [|d pre].
    + rewrite append_nil in Hd. destruct rest as [|c' rest']; [discriminate|].
      cbn [starts_amount] in Hrest. apply andb_prop in Hrest as [Hc' _].
      apply Ascii.eqb_eq in Hc' as ->. cbn in Hd. discriminate.
    + apply Hpre. apply amount_in_cons. left. cbn [starts_amount]. rewrite Hc.
      rewrite append_cons in Hd. exact Hd.
Qed.

Lemma digit_span (s : string) :
  exists ds post,
    s = ds +:+ post /\ all_chars Js.is_digit ds = true /\ begins_with Js.is_digit post = false.
Proof.
  induction s as [|c s (ds & post & -> & Hds & Hpost)].
  - now exists EmptyString, EmptyString.
  - destruct (Js.is_digit c) eqn:Hc.
    + exists (String c ds), post. rewrite append_cons. cbn. rewrite Hc. auto.
    + exists EmptyString, (String c (ds +:+ post)). rewrite append_nil. cbn. auto.
Qed.

Lemma first_amount (s : string) :
  amount_in s ->
  exists pre d ds post,
    s = pre +:+ "$" +:+ String d ds +:+ post
    /\ Js.is_digit d = true /\ all_chars Js.is_digit ds = true
    /\ begins_with Js.is_digit post = false
    /\ ~ amount_in pre.
Proof.
  induction s as [|c s IH]; intros H.
  - destruct H as (d & _ & [|c pre] & post & E); discriminate.
  - destruct (starts_amount (String c s)) eqn:E.
    + destruct s as [|d s]; cbn in E; [now rewrite andb_false_r in E|].
      apply andb_prop in E as [Hc Hd]. apply Ascii.eqb_eq in Hc as ->.
      destruct (digit_span s) as (ds & post & -> & Hds & Hpost).
      exists EmptyString, d, ds, post. rewrite append_nil.
      split; [reflexivity|]. split; [exact Hd|]. split; [exact Hds|]. split; [exact Hpost|].
      intros (d' & _ & [|c pre] & post' & E'); discriminate.
    + apply amount_in_cons in H as [H|H]; [congruence|].
      destruct (IH H) as (pre & d & ds & post & -> & Hd & Hds & Hpost & Hpre).
      exists (String c pre), d, ds, post. rewrite append_cons.
      split; [reflexivity|]. split; [exact Hd|]. split; [exact Hds|]. split; [exact Hpost|].
      intros H'. apply amount_in_cons in H' as [H'|H']; [|now apply Hpre].
      cbn [starts_amount] in E, H'. apply andb_prop in H' as [Hc H'].
      rewrite Hc in E. cbn [andb] in E.
      destruct pre as [|d' pre]; [discriminate|].
      rewrite append_cons in E. cbn in E, H'. congruence.
Qed.

Lemma extractAmount_first (pre post ds : string) (d : ascii) :
  Js.is_digit d = true -> all_chars Js.is_digit ds = true ->
  begins_with Js.is_digit post = false -> ~ amount_in pre ->
  extractAmount (pre +:+ "$" +:+ String d ds +:+ post) = Some ("$" +:+ String d ds).
Proof.
  intros Hd Hds Hpost Hpre. unfold extractAmount.
  rewrite (amount_first pre _ ("$" +:+ String d ds, [String d ds]) Hpre).
  - reflexivity.
  - change ("$" +:+ String d ds +:+ post) with (String "$" (String d (ds +:+ post))).
    cbn. exact Hd.
  - now apply amount_at_front.
Qed.

(** X1.  [extractAmount] returns the first dollar sign of the prompt that
    is followed by a digit, together with the whole run of digits after it:
    no dollar sign followed by a digit comes before it, and what follows
    the amount does not start with a digit.  It returns [null] exactly when
    no dollar sign of the prompt is followed by a digit. *)
Theorem extractAmount_spec (prompt : string) :
  (forall amount,
      extractAmount prompt = Some amount <->
      exists pre d ds post,
        prompt = pre +:+ "$" +:+ String d ds +:+ post
        /\ amount = "$" +:+ String d ds
        /\ Js.is_digit d = true /\ all_chars Js.is_digit ds = true
        /\ begins_with Js.is_digit post = false
        /\ ~ amount_in pre)
  /\ (extractAmount prompt = None <-> ~ amount_in prompt).
Proof.
  assert (Hin : forall amount, extractAmount prompt = Some amount -> amount_in prompt).
  { intros amount E. apply extractAmount_sound in E as [Hocc (d & ds & -> & Hd & _)].
    exists d. split; [exact Hd|]. eapply occurs_in_trans; [|exact Hocc].
    exists EmptyString, ds. reflexivity. }
  split.
  - intros amount. split.
    + intros E. destruct (first_amount prompt (Hin amount E))
        as (pre & d & ds & post & -> & Hd & Hds & Hpost & Hpre).
      rewrite extractAmount_first in E by assumption. injection E as <-.
      exists pre, d, ds, post. auto 10.
    + intros (pre & d & ds & post & -> & -> & Hd & Hds & Hpost & Hpre).
      now apply extractAmount_first.
  - split.
    + intros Hnone (d & Hd & Hocc). now apply (extractAmount_complete prompt d Hd Hocc).
    + intros Hno. destruct (extractAmount prompt) as [amount|] eqn:E; [|reflexivity].
      destruct Hno. now apply (Hin amount).
Qed.

Lemma extractAmount_spec_witness :
  extractAmount "Send Alex $ 5 and $32.50 or $7" = Some "$32".
Proof.
  apply (extractAmount_spec "Send Alex $ 5 and $32.50 or $7").
  exists "Send Alex $ 5 and ", "3"%char, "2", ".50 or $7".
  split; [reflexivity|]. split; [reflexivity|]. split; [reflexivity|].
  split; [reflexivity|]. split; [reflexivity|].
  intros H. repeat (apply amount_in_cons in H as [H|H]; [discriminate|]).
  destruct H as (d & _ & [|c pre] & post & E); discriminate.
Defined.

(** X2.  What [extractRecipient] returns is a capitalised word (an
    upper-case letter followed by at least one lower-case letter) taken
    from the prompt. *)
Theorem extractRecipient_capitalised (prompt name : string) :
  extractRecipient prompt = Some name ->
  capitalised_word name /\ occurs_in name prompt.
Proof.
  unfold extractRecipient. apply first_capture_sound. auto.
Qed.

Lemma extractRecipient_capitalised_witness :
  capitalised_word "Maria" /\ occurs_in "Maria" "give it to  Maria via venmo".
Proof. exact (extractRecipient_capitalised "give it to  Maria via venmo" "Maria" eq_refl). Defined.

End ExtractionFacts.

(** ** Keyword detection and the shape of the generated flow *)

Section GeneratorFacts.
Import Generator.

Lemma includes_occurs (s sub : string) : Js.includes s sub = true <-> occurs_in sub s.
Proof.
  split.
  - induction s as [|c s IH]; cbn [Js.includes]; intros H.
    + rewrite orb_false_r in H. apply prefix_append in H.
      exists EmptyString, (Js.drop_chars (String.length sub) EmptyString). exact H.
    + apply orb_prop in H as [H|H].
      * apply prefix_append in H. now exists EmptyString, (Js.drop_chars (String.length sub) (String c s)).
      * destruct (IH H) as (pre & post & ->). now exists (String c pre), post.
  - intros (pre & post & ->). induction pre as [|c pre IH].
    + rewrite append_nil.
      destruct (sub +:+ post) as [|c rest] eqn:E; cbn [Js.includes];
        rewrite <- E, prefix_of_append; reflexivity.
    + rewrite append_cons. cbn [Js.includes]. rewrite IH. apply orb_true_r.
Qed.

Lemma toLowerCase_append (a b : string) :
  Js.toLowerCase (a +:+ b) = Js.toLowerCase a +:+ Js.toLowerCase b.
Proof.
  induction a as [|c a IH]; [reflexivity|].
  rewrite append_cons. cbn [Js.toLowerCase]. rewrite append_cons. now rewrite IH.
Qed.

Lemma toLowerCase_occurs (w s : string) :
  occurs_in w s -> occurs_in (Js.toLowerCase w) (Js.toLowerCase s).
Proof.
  intros (pre & post & ->). exists (Js.toLowerCase pre), (Js.toLowerCase post).
  now rewrite !toLowerCase_append.
Qed.

(** X3.  A prompt from which [extractAmount] extracts an amount always has
    payment intent: the dollar sign is itself a payment keyword, so an
    extracted amount is never left unused. *)
Theorem amount_implies_payment (prompt amount : string) :
  extractAmount prompt = Some amount -> containsPaymentKeywords prompt = true.
Proof.
  intros H. apply extractAmount_sound in H as [Hocc (d & ds & -> & _)].
  unfold containsPaymentKeywords, Js.some, paymentKeywords.
  apply existsb_exists. exists "$". split; [cbn; tauto|].
  apply includes_occurs. apply toLowerCase_occurs in Hocc.
  eapply occurs_in_trans; [|exact Hocc].
  change (Js.toLowerCase ("$" +:+ String d ds))
    with ("$" +:+ Js.toLowerCase (String d ds)).
  apply occurs_in_left.
Qed.

Lemma amount_implies_payment_witness :
  containsPaymentKeywords "I owe Alex $20" = true.
Proof. exact (amount_implies_payment "I owe Alex $20" "$20" eq_refl). Defined.

(** X4.  Whatever the prompt and the random draws, the agents and step
    types of the generated flow are fixed by the two intents alone:
    analysis and planning, then the six payment steps if payment is
    needed, a coordination step if both are, the seven call steps if a
    call is needed, and the completion summary.  The flow therefore has 3,
    9, 10 or 17 steps, never more than the 17 [getTaskProgress] divides
    by. *)
Theorem flow_skeleton (prompt : string) (rnd : Random) :
  skeleton_of (generateConversationFlow prompt rnd)
  = ([("supervisor", "analysis"); ("supervisor", "planning")]
       ++ (if containsPaymentKeywords prompt then venmo_skeleton else [])
       ++ (if (containsPaymentKeywords prompt && containsCallKeywords prompt)%bool
           then [("supervisor", "coordination")] else [])
       ++ (if containsCallKeywords prompt then phone_skeleton else [])
       ++ [("supervisor", "completion")])%list
  /\ length (generateConversationFlow prompt rnd)
     = (3 + (if containsPaymentKeywords prompt then 6 else 0)
          + (if (containsPaymentKeywords prompt && containsCallKeywords prompt)%bool
             then 1 else 0)
          + (if containsCallKeywords prompt then 7 else 0))%nat
  /\ Z.of_nat (length (generateConversationFlow prompt rnd)) <= Processor.expectedSteps Local.
Proof.
  unfold generateConversationFlow, skeleton_of.
  destruct (containsPaymentKeywords prompt), (containsCallKeywords prompt);
    (split; [reflexivity|split; [reflexivity|cbn; lia]]).
Qed.

End GeneratorFacts.

(** ** The task store along its histories *)

Section StoreHistories.
Import Storage.

Lemma run_app (ops1 ops2 : list Op) (st : MemStorage) :
  run (ops1 ++ ops2) st = run ops2 (run ops1 st).
Proof. unfold run. apply fold_left_app. Qed.

Lemma run_cons (op : Op) (ops : list Op) (st : MemStorage) :
  run (op :: ops) st = run ops (apply op st).
Proof. reflexivity. Qed.

Lemma tasks_numbered_empty : tasks_numbered 0 empty.
Proof.
  split; [reflexivity|]. intros id. unfold getTask. cbn. rewrite lookup_empty.
  split; [|discriminate]. split; [intros [x Hx]; discriminate|lia].
Qed.

Lemma updateTaskStatus_is_Some (id id' : Z) (status : TaskStatus) (c : option Z)
    (st : MemStorage) :
  is_Some (getTask id' (snd (updateTaskStatus id status c st))) <-> is_Some (getTask id' st).
Proof.
  destruct (Z.eq_dec id' id) as [->|Hne].
  - destruct (getTask id st) as [task|] eqn:E.
    + destruct (updateTaskStatus_found id status c st task E) as [_ ->].
      split; intros _; eexists; reflexivity.
    + rewrite (updateTaskStatus_missing id status c st E). cbn [snd]. now rewrite E.
  - now rewrite updateTaskStatus_other_task.
Qed.

Lemma tasks_numbered_apply (op : Op) (n : Z) (st : MemStorage) :
  0 <= n ->
  tasks_numbered n st ->
  tasks_numbered (created_tasks [op] + n) (apply op st).
Proof.
  intros Hn [Hc Hids]. destruct op as [it now|id status c|im now]; cbn [created_tasks apply].
  - split; [cbn; lia|]. intros id. unfold createTask, getTask. cbn [snd tasks].
    rewrite lookup_insert. case_decide as E.
    + subst id. split; [split; [lia|eauto]|]. now intros task [= <-].
    + destruct (Hids id) as [Hsome Hid]. unfold getTask in *.
      split; [|exact Hid]. rewrite Hsome. lia.
  - split; [now rewrite updateTaskStatus_currentTaskId|]. intros id'.
    destruct (Hids id') as [Hsome Hid].
    split; [now rewrite updateTaskStatus_is_Some|].
    intros task Htask. destruct (Z.eq_dec id' id) as [->|Hne].
    + destruct (getTask id st) as [task0|] eqn:E.
      * destruct (updateTaskStatus_found id status c st task0 E) as [_ Hnew].
        rewrite Hnew in Htask. injection Htask as <-. cbn. now apply Hid.
      * rewrite (updateTaskStatus_missing id status c st E) in Htask. cbn in Htask. congruence.
    + rewrite updateTaskStatus_other_task in Htask by exact Hne. now apply Hid.
  - split; [exact Hc|]. intros id. apply Hids.
Qed.

Lemma created_tasks_nonneg (ops : list Op) : 0 <= created_tasks ops.
Proof. induction ops as [|[] ops IH]; cbn [created_tasks]; lia. Qed.

Lemma created_tasks_app (ops1 ops2 : list Op) :
  created_tasks (ops1 ++ ops2) = created_tasks ops1 + created_tasks ops2.
Proof. induction ops1 as [|[] ops1 IH]; cbn [created_tasks app]; lia. Qed.

Lemma tasks_numbered_run (ops : list Op) (n : Z) (st : MemStorage) :
  0 <= n -> tasks_numbered n st -> tasks_numbered (n + created_tasks ops) (run ops st).
Proof.
  revert n st. induction ops as [|op ops IH]; intros n st Hn H.
  - cbn. now rewrite Z.add_0_r.
  - rewrite run_cons.
    replace (n + created_tasks (op :: ops))
      with ((created_tasks [op] + n) + created_tasks ops)
      by (change (op :: ops) with ([op] ++ ops)%list; rewrite created_tasks_app; lia).
    apply IH; [pose proof (created_tasks_nonneg [op]); lia|].
    now apply tasks_numbered_apply.
Qed.

Lemma task_ids_sequential_aux (ops : list Op) :
  currentTaskId (run ops empty) = 1 + created_tasks ops
  /\ forall id, is_Some (getTask id (run ops empty)) <-> 1 <= id <= created_tasks ops.
Proof.
  destruct (tasks_numbered_run ops 0 empty (Z.le_refl 0) tasks_numbered_empty) as [Hc Hids].
  rewrite Z.add_0_l in *. split; [exact Hc|]. intros id. apply Hids.
Qed.

(** X5.  Along every history of the store, the task ids in use are exactly
    1, 2, ..., up to the number of tasks created so far: ids are handed out
    in sequence, a task is never removed, and each task is stored under its
    own id. *)
Theorem task_ids_sequential (ops : list Op) (id : Z) :
  currentTaskId (run ops empty) = 1 + created_tasks ops
  /\ (is_Some (getTask id (run ops empty)) <-> 1 <= id <= created_tasks ops)
  /\ forall task, getTask id (run ops empty) = Some task -> task_id task = id.
Proof.
  destruct (tasks_numbered_run ops 0 empty (Z.le_refl 0) tasks_numbered_empty) as [Hc Hids].
  rewrite Z.add_0_l in *. split; [exact Hc|]. apply Hids.
Qed.

Lemma holds_task_apply (op : Op) (id : Z) (prompt : string) (createdAt : Z) (st : MemStorage) :
  holds_task id prompt createdAt st -> holds_task id prompt createdAt (apply op st).
Proof.
  intros (Hlt & task & Htask & Hid & Hp & Hc).
  destruct op as [it now|id' status c|im now]; cbn [apply].
  - split; [cbn; lia|]. exists task. unfold createTask, getTask. cbn [snd tasks].
    rewrite lookup_insert_ne by lia. auto.
  - split; [now rewrite updateTaskStatus_currentTaskId|].
    destruct (Z.eq_dec id id') as [<-|Hne].
    + destruct (updateTaskStatus_found id status c st task Htask) as [_ Hnew].
      eexists. split; [exact Hnew|]. cbn. auto.
    + exists task. rewrite updateTaskStatus_other_task by exact Hne. auto.
  - split; [exact Hlt|]. now exists task.
Qed.

Lemma holds_task_run (ops : list Op) (id : Z) (prompt : string) (createdAt : Z)
    (st : MemStorage) :
  holds_task id prompt createdAt st -> holds_task id prompt createdAt (run ops st).
Proof.
  revert st. induction ops as [|op ops IH]; intros st H; [exact H|].
  rewrite run_cons. apply IH. now apply holds_task_apply.
Qed.

(** X6.  A task, once created, stays in the store with the id, the prompt
    and the creation time it was given, whatever calls follow: no later
    [createTask] reuses its id, and [updateTaskStatus] changes its status
    and completion time only. *)
Theorem task_is_permanent (before after : list Op) (insertTask : InsertTask) (now : Z) :
  let id := currentTaskId (run before empty) in
  getTask id (run before empty) = None
  /\ fst (createTask insertTask now (run before empty))
     = mkTask id (it_prompt insertTask) pending now None
  /\ exists task,
       getTask id (run (before ++ OpCreateTask insertTask now :: after) empty) = Some task
       /\ task_id task = id
       /\ task_prompt task = it_prompt insertTask
       /\ task_createdAt task = now.
Proof.
  cbn zeta. split; [|split; [reflexivity|]].
  - destruct (task_ids_sequential_aux before) as [Hc Hids].
    destruct (getTask _ _) as [task|] eqn:E; [|reflexivity].
    assert (Hsome : is_Some (getTask (currentTaskId (run before empty)) (run before empty)))
      by eauto.
    apply Hids in Hsome. lia.
  - rewrite run_app, run_cons.
    assert (Hnew : holds_task (currentTaskId (run before empty)) (it_prompt insertTask) now
                     (apply (OpCreateTask insertTask now) (run before empty))).
    { split; [cbn; lia|]. eexists. split.
      - unfold getTask. cbn. apply lookup_insert_eq.
      - cbn. auto. }
    destruct (holds_task_run after _ _ _ _ Hnew) as (_ & task & H). now exists task.
Qed.

End StoreHistories.

Section StoreMessages.
Import Storage.

Lemma task_ids_sequential_witness :
  is_Some (getTask 1 (run sample_history empty))
  /\ ~ is_Some (getTask 2 (run sample_history empty))
  /\ task_id <$> getTask 1 (run sample_history empty) = Some 1.
Proof.
  destruct (task_ids_sequential sample_history 1) as (_ & Hsome & Hid).
  destruct (task_ids_sequential sample_history 2) as (_ & Hnone & _).
  split; [apply Hsome; cbn; lia|]. split.
  - intros H. apply Hnone in H. cbn in H. lia.
  - destruct (getTask 1 (run sample_history empty)) as [task|] eqn:E; [|discriminate].
    cbn. f_equal. now apply Hid.
Defined.

Lemma emitted_ids (ops : list Op) (st : MemStorage) :
  map msg_id (emitted ops st) = ids_from (currentMessageId st) (length (emitted ops st)).
Proof.
  revert st. induction ops as [|op ops IH]; intros st; [reflexivity|].
  destruct op as [it now|id status c|im now]; cbn [emitted].
  - apply (IH (apply (OpCreateTask it now) st)).
  - rewrite (IH (apply (OpUpdateTaskStatus id status c) st)). cbn [apply].
    now destruct (updateTaskStatus_messages id status c st) as [_ ->].
  - cbn [map length ids_from]. f_equal. apply IH.
Qed.

Lemma keys_are_ids (st : MemStorage) (ops : list Op) :
  keys_below st ->
  Js.map_keys (messages st) = map msg_id (Js.map_values (messages st)) ->
  Js.map_keys (messages (run ops st)) = map msg_id (Js.map_values (messages (run ops st))).
Proof.
  revert st. induction ops as [|op ops IH]; intros st Hk H; [exact H|].
  rewrite run_cons. apply IH; [now apply keys_below_apply|].
  destruct op as [it now|id status c|im now]; cbn [apply].
  - exact H.
  - now destruct (updateTaskStatus_messages id status c st) as [-> _].
  - cbn [createMessage snd messages]. rewrite map_set_fresh by exact Hk.
    unfold Js.map_keys, Js.map_values in *. rewrite !map_app, H. reflexivity.
Qed.

Lemma ids_from_lt (first : Z) (n : nat) (k : nat) (id : Z) :
  ids_from first n !! k = Some id -> id = first + Z.of_nat k.
Proof.
  revert first k. induction n as [|n IH]; intros first k H; [destruct k; discriminate|].
  destruct k as [|k]; cbn [ids_from] in H.
  - change (Some first = Some id) in H. injection H as <-. lia.
  - change (ids_from (first + 1) n !! k = Some id) in H. apply IH in H. lia.
Qed.

Lemma ids_from_NoDup (first : Z) (n : nat) : NoDup (ids_from first n).
Proof.
  apply NoDup_alt. intros i j id Hi Hj.
  apply ids_from_lt in Hi, Hj. lia.
Qed.

Lemma currentMessageId_run (ops : list Op) (st : MemStorage) :
  currentMessageId (run ops st)
  = currentMessageId st + Z.of_nat (length (emitted ops st)).
Proof.
  revert st. induction ops as [|op ops IH]; intros st; [cbn; lia|].
  rewrite run_cons, IH. destruct op as [it now|id status c|im now]; cbn [emitted apply].
  - reflexivity.
  - now destruct (updateTaskStatus_messages id status c st) as [_ ->].
  - cbn [createMessage snd currentMessageId length]. lia.
Qed.

(** X7.  Along every history of the store, the stored messages are the
    messages the [createMessage] calls returned, in the order of the calls,
    each under its own id; their ids are 1, 2, 3, ... in that order, so no
    two messages share an id and none is ever overwritten or dropped. *)
Theorem message_ids_sequential (ops : list Op) :
  Js.map_values (messages (run ops empty)) = emitted ops empty
  /\ Js.map_keys (messages (run ops empty)) = map msg_id (emitted ops empty)
  /\ map msg_id (emitted ops empty) = ids_from 1 (length (emitted ops empty))
  /\ NoDup (map msg_id (emitted ops empty))
  /\ currentMessageId (run ops empty) = 1 + Z.of_nat (length (emitted ops empty)).
Proof.
  assert (Hv : Js.map_values (messages (run ops empty)) = emitted ops empty)
    by (rewrite messages_run by apply keys_below_empty; reflexivity).
  split; [exact Hv|]. split; [|split; [|split]].
  - rewrite <- Hv. apply keys_are_ids; [apply keys_below_empty|reflexivity].
  - apply (emitted_ids ops empty).
  - rewrite (emitted_ids ops empty). apply ids_from_NoDup.
  - apply (currentMessageId_run ops empty).
Qed.

End StoreMessages.

Section SortAppend.
Context {A : Type} (key : A -> Z).

Let cmp (a b : A) : Z := key a - key b.

Lemma sort_insert_snoc (y x : A) (l : list A) :
  key y <= key x ->
  Js.sort_insert cmp y (l ++ [x]) = (Js.sort_insert cmp y l ++ [x])%list.
Proof.
  intros Hyx. induction l as [|z l IH]; cbn [Js.sort_insert app].
  - destruct (Z.leb_spec (cmp y x) 0) as [_|H]; [reflexivity|]. unfold cmp in H. lia.
  - destruct (cmp y z <=? 0); [reflexivity|]. cbn [app]. now rewrite IH.
Qed.

(** An element that is not smaller than any element of the list stays
    last. *)
Lemma sort_snoc (x : A) (l : list A) :
  (forall y, In y l -> key y <= key x) ->
  Js.sort cmp (l ++ [x]) = (Js.sort cmp l ++ [x])%list.
Proof.
  induction l as [|y l IH]; intros H; [reflexivity|].
  cbn [Js.sort app]. rewrite IH by (intros z Hz; apply H; now right).
  apply sort_insert_snoc. apply H. now left.
Qed.

End SortAppend.

Section StoreLookups.
Import Storage.

Lemma keys_below_run (ops : list Op) (st : MemStorage) :
  keys_below st -> keys_below (run ops st).
Proof.
  revert st. induction ops as [|op ops IH]; intros st H; [exact H|].
  rewrite run_cons. apply IH. now apply keys_below_apply.
Qed.

Lemma getTaskMessages_In (taskId : Z) (st : MemStorage) (m : Message) :
  In m (getTaskMessages taskId st)
  <-> In m (Js.map_values (messages st)) /\ msg_taskId m = taskId.
Proof.
  pose proof (getTaskMessages_permutation taskId st) as P.
  assert (Hin : In m (getTaskMessages taskId st)
                <-> In m (List.filter (for_task taskId) (Js.map_values (messages st)))).
  { split; [apply Permutation_in; now symmetry|now apply Permutation_in]. }
  rewrite Hin, filter_In. unfold for_task. now rewrite Z.eqb_eq.
Qed.

(** X8.  [getTaskMessages] returns exactly the stored messages of the
    task, each once: nothing of another task, nothing left out.
    [getLatestMessage] is its last element, and is [undefined] exactly when
    the task has no message. *)
Theorem getTaskMessages_exact (taskId : Z) (st : MemStorage) :
  (forall m, In m (getTaskMessages taskId st)
             <-> In m (Js.map_values (messages st)) /\ msg_taskId m = taskId)
  /\ length (getTaskMessages taskId st)
     = length (List.filter (for_task taskId) (Js.map_values (messages st)))
  /\ (getLatestMessage taskId st = None
      <-> forall m, In m (Js.map_values (messages st)) -> msg_taskId m <> taskId).
Proof.
  split; [intros m; apply getTaskMessages_In|]. split.
  - symmetry. apply Permutation_length, getTaskMessages_permutation.
  - unfold getLatestMessage, Js.last_elem. rewrite last_None. split.
    + intros Hnil m Hm Ht.
      assert (Hin : In m (getTaskMessages taskId st)) by (apply getTaskMessages_In; auto).
      rewrite Hnil in Hin. contradiction.
    + intros Hno. destruct (getTaskMessages taskId st) as [|m l] eqn:E; [reflexivity|].
      assert (Hin : In m (getTaskMessages taskId st)) by (rewrite E; now left).
      apply getTaskMessages_In in Hin as [Hm Ht]. now destruct (Hno m Hm).
Qed.

Lemma getTaskMessages_exact_witness :
  getLatestMessage 7 (run sample_history empty) = None
  /\ length (getTaskMessages 1 (run sample_history empty)) = 3%nat.
Proof.
  destruct (getTaskMessages_exact 7 (run sample_history empty)) as (_ & _ & Hnone).
  destruct (getTaskMessages_exact 1 (run sample_history empty)) as (_ & Hlen & _).
  split; [|exact Hlen].
  apply Hnone. intros m Hm.
  vm_compute in Hm. intuition (subst; discriminate).
Defined.

(** X9.  Along every history of the store, a [createMessage] whose clock
    reading is not earlier than the timestamps of the messages the task
    already has appends to the task's sequence, and [getLatestMessage] then
    returns the message just created.  The write is accepted whether or not
    a task with that id exists, and it changes no task. *)
Theorem createMessage_latest (ops : list Op) (insertMessage : InsertMessage) (now : Z) :
  let st := run ops empty in
  let taskId := im_taskId insertMessage in
  (forall m, In m (getTaskMessages taskId st) -> msg_timestamp m <= now) ->
  getTaskMessages taskId (snd (createMessage insertMessage now st))
  = (getTaskMessages taskId st ++ [fst (createMessage insertMessage now st)])%list
  /\ getLatestMessage taskId (snd (createMessage insertMessage now st))
     = Some (fst (createMessage insertMessage now st))
  /\ tasks (snd (createMessage insertMessage now st)) = tasks st.
Proof.
  intros st taskId Hclock.
  assert (Hk : keys_below st) by apply keys_below_run, keys_below_empty.
  assert (Hseq : getTaskMessages taskId (snd (createMessage insertMessage now st))
                 = (getTaskMessages taskId st ++ [fst (createMessage insertMessage now st)])%list).
  { unfold getTaskMessages at 1. rewrite createMessage_messages by exact Hk.
    rewrite List.filter_app. cbn [List.filter].
    replace (for_task taskId (fst (createMessage insertMessage now st))) with true
      by (unfold for_task, taskId; cbn; now rewrite Z.eqb_refl).
    apply (sort_snoc msg_timestamp).
    intros y Hy. cbn [fst createMessage msg_timestamp]. apply Hclock.
    apply (Permutation_in _ (getTaskMessages_permutation taskId st)). exact Hy. }
  split; [exact Hseq|]. split; [|reflexivity].
  unfold getLatestMessage, Js.last_elem. rewrite Hseq. apply last_snoc.
Qed.

Lemma createMessage_latest_witness :
  msg_message <$> getLatestMessage 1
                    (snd (createMessage (mkInsertMessage 1 "phone" "fourth" "success" None) 12
                            (run sample_history empty)))
  = Some "fourth"
  /\ getTask 9 (snd (createMessage (mkInsertMessage 9 "phone" "orphan" "success" None) 0
                       (run sample_history empty))) = None.
Proof.
  split.
  - destruct (createMessage_latest sample_history
                (mkInsertMessage 1 "phone" "fourth" "success" None) 12) as (_ & H & _).
    + intros m Hm. vm_compute in Hm. intuition (subst; cbn; lia).
    + cbn [im_taskId] in H. rewrite H. reflexivity.
  - destruct (createMessage_latest sample_history
                (mkInsertMessage 9 "phone" "orphan" "success" None) 0) as (_ & _ & Htasks).
    + intros m Hm. vm_compute in Hm. contradiction.
    + unfold getTask. rewrite Htasks. reflexivity.
Defined.

(** X10.  Two [updateTaskStatus] calls on the same task amount to the
    second one alone (the last write wins, for the status and for
    [completedAt]); calls on different tasks commute. *)
Theorem updateTaskStatus_compose (id id' : Z) (s1 s2 : TaskStatus) (c1 c2 : option Z)
    (st : MemStorage) :
  updateTaskStatus id s2 c2 (snd (updateTaskStatus id s1 c1 st)) = updateTaskStatus id s2 c2 st
  /\ (id <> id' ->
      snd (updateTaskStatus id s1 c1 (snd (updateTaskStatus id' s2 c2 st)))
      = snd (updateTaskStatus id' s2 c2 (snd (updateTaskStatus id s1 c1 st)))).
Proof.
  split.
  - unfold updateTaskStatus at 2 3.
    destruct (tasks st !! id) as [task|] eqn:E.
    + unfold updateTaskStatus. cbn [snd tasks]. rewrite lookup_insert_eq.
      cbn [task_id task_prompt task_createdAt messages currentTaskId currentMessageId].
      now rewrite insert_insert_eq.
    + cbn [snd]. unfold updateTaskStatus. now rewrite E.
  - intros Hne. unfold updateTaskStatus.
    destruct (tasks st !! id) as [task|] eqn:E, (tasks st !! id') as [task'|] eqn:E';
      cbn [snd tasks messages currentTaskId currentMessageId];
      rewrite ?lookup_insert_ne by congruence; rewrite ?E, ?E';
      cbn [snd tasks messages currentTaskId currentMessageId]; try reflexivity.
    f_equal. apply insert_insert_ne. congruence.
Qed.

Lemma updateTaskStatus_compose_witness :
  task_status <$> getTask 1 (snd (updateTaskStatus 1 failed None
                                    (snd (updateTaskStatus 1 processing None completed_store))))
  = Some failed.
Proof.
  destruct (updateTaskStatus_compose 1 2 processing failed None None completed_store)
    as [-> _].
  reflexivity.
Defined.

End StoreLookups.

(** ** Normalising the oracle's reply *)

Section ReplyFacts.
Import ExternalGen.

Lemma getMessageType_range (message : string) : In (getMessageType message) external_types.
Proof.
  unfold getMessageType, external_types.
  repeat match goal with |- context [if ?b then _ else _] => destruct b end; cbn; tauto.
Qed.

Lemma parseItem_facts (item : string * string) :
  step_message (parseItem item) = snd item
  /\ step_metadata (parseItem item) = None
  /\ In (step_messageType (parseItem item)) external_types.
Proof.
  destruct item as [agentKey message]. unfold parseItem.
  repeat match goal with |- context [if String.eqb ?a ?b then _ else _] =>
           destruct (String.eqb a b) end;
    cbn [step_message step_metadata step_messageType snd];
    (split; [reflexivity|split; [reflexivity|]]);
    first [apply getMessageType_range | cbn; tauto].
Qed.

Lemma typed_entry_first (x : Json) (key message : string) :
  typed_entry x = Some (key, message) <-> first_entry x = FirstEntry key (JString message).
Proof.
  unfold typed_entry. split.
  - destruct (first_entry x) as [| |k [| | |m| |]|]; try discriminate. now intros [= -> ->].
  - now intros ->.
Qed.

Lemma parseElement_throws (x : Json) (t : Thrown) :
  parseElement x = ItemThrows t <-> ThrowsOn x t.
Proof.
  unfold parseElement. split.
  - destruct (first_entry x) as [| |key value|text] eqn:E.
    + intros [= <-]. now apply ThrowsOnNull.
    + intros [= <-]. now apply ThrowsOnNoEntry.
    + destruct value; try discriminate;
        (destruct (agent_key key) eqn:Hkey; [|discriminate]);
        intros [= <-]; now apply (ThrowsOnValue x key _ E).
    + discriminate.
  - intros [x' E|x' E|x' key value E Hkey Hvalue]; rewrite E; try reflexivity.
    destruct value; try discriminate; now rewrite Hkey.
Qed.

Lemma parseElement_step (x : Json) (step : Step) :
  parseElement x = ItemStep step <->
  exists entry, typed_entry x = Some entry /\ step = parseItem entry.
Proof.
  unfold parseElement, typed_entry. split.
  - destruct (first_entry x) as [| |key [| | |m| |]|]; try discriminate;
      try (destruct (agent_key key); discriminate).
    intros [= <-]. now exists (key, m).
  - intros ([key m] & E & ->).
    destruct (first_entry x) as [| |k [| | |m'| |]|]; try discriminate.
    now injection E as -> ->.
Qed.

Lemma parseItems_threw (items : list Json) (t : Thrown) :
  parseItems items = Threw t <->
  exists pre x post,
    items = (pre ++ x :: post)%list /\ ThrowsOn x t
    /\ Forall (fun y => forall t', ~ ThrowsOn y t') pre.
Proof.
  induction items as [|item items IH]; cbn [parseItems].
  - split; [discriminate|]. intros (pre & x & post & E & _). now destruct pre.
  - split.
    + destruct (parseElement item) as [step|t0|] eqn:Hitem.
      * intros H. assert (Hrest : parseItems items = Threw t)
          by (destruct (parseItems items); congruence).
        apply IH in Hrest as (pre & x & post & -> & Hx & Hpre).
        exists (item :: pre), x, post. split; [reflexivity|]. split; [exact Hx|].
        constructor; [|exact Hpre]. intros t' Ht'. apply parseElement_throws in Ht'.
        congruence.
      * intros [= <-]. exists [], item, items. split; [reflexivity|].
        split; [now apply parseElement_throws|constructor].
      * intros H. assert (Hrest : parseItems items = Threw t)
          by (destruct (parseItems items); congruence).
        apply IH in Hrest as (pre & x & post & -> & Hx & Hpre).
        exists (item :: pre), x, post. split; [reflexivity|]. split; [exact Hx|].
        constructor; [|exact Hpre]. intros t' Ht'. apply parseElement_throws in Ht'.
        congruence.
    + intros (pre & x & post & E & Hx & Hpre). destruct pre as [|y pre].
      * injection E as -> ->. apply parseElement_throws in Hx. now rewrite Hx.
      * injection E as -> ->. inversion Hpre as [|? ? Hy Hpre']; subst.
        assert (Hrest : parseItems (pre ++ x :: post) = Threw t)
          by (apply IH; now exists pre, x, post).
        rewrite Hrest. destruct (parseElement y) as [step|t0|] eqn:Hitem; try reflexivity.
        apply parseElement_throws in Hitem. now destruct (Hy t0).
Qed.

Lemma parseItems_flow (items : list Json) (flow : list Step) :
  parseItems items = Flow flow <->
  exists entries, map typed_entry items = map Some entries /\ flow = map parseItem entries.
Proof.
  revert flow. induction items as [|item items IH]; intros flow; cbn [parseItems].
  - split.
    + intros [= <-]. now exists [].
    + intros (entries & E & ->). now destruct entries.
  - split.
    + destruct (parseElement item) as [step|t0|] eqn:Hitem.
      * destruct (parseItems items) as [flow'| |]; try discriminate. intros [= <-].
        apply parseElement_step in Hitem as (entry & He & ->).
        destruct (proj1 (IH flow') eq_refl) as (entries & Hes & ->).
        exists (entry :: entries). cbn [map]. now rewrite He, Hes.
      * discriminate.
      * destruct (parseItems items); discriminate.
    + intros (entries & E & ->). destruct entries as [|entry entries]; [discriminate|].
      cbn [map] in E. injection E as He Hes.
      assert (Hitem : parseElement item = ItemStep (parseItem entry))
        by (apply parseElement_step; now exists entry).
      rewrite Hitem.
      assert (Hrest : parseItems items = Flow (map parseItem entries))
        by (apply IH; now exists entries).
      now rewrite Hrest.
Qed.

(** X11.  [parseAPIResponse] on the reply of the oracle.  A reply that is
    [null], a boolean, a number or an object is not iterable, and the call
    throws.  On an array it throws exactly when an element makes it throw:
    a [null], an element without entry, or a value that is no string under
    Supervisor, phone_agent or venmo_agent; what is thrown is what the
    first such element throws.  It returns a flow of well-typed steps
    exactly when every element has a string under its first key, and then
    it yields one step per element, in the same order, with that string as
    message, no metadata, and a step type among input, delegation, success,
    action, processing and completion. *)
Theorem parseAPIResponse_spec (items : list Json) :
  (forall v, not_iterable v = true -> parseAPIResponse v = Threw EngineTypeError)
  /\ (forall t,
        parseAPIResponse (JArray items) = Threw t <->
        exists pre x post,
          items = (pre ++ x :: post)%list /\ ThrowsOn x t
          /\ Forall (fun y => forall t', ~ ThrowsOn y t') pre)
  /\ (forall flow,
        parseAPIResponse (JArray items) = Flow flow <->
        exists entries,
          map typed_entry items = map Some entries /\ flow = map parseItem entries)
  /\ (forall entries,
        map typed_entry items = map Some entries ->
        length (map parseItem entries) = length items
        /\ map step_message (map parseItem entries) = map snd entries
        /\ Forall (fun step => step_metadata step = None
                               /\ In (step_messageType step) external_types)
             (map parseItem entries)).
Proof.
  split; [intros [| | | | |] H; try discriminate; reflexivity|].
  split; [intros t; apply parseItems_threw|].
  split; [intros flow; apply parseItems_flow|].
  intros entries E. split; [|split].
  - rewrite length_map. rewrite <- (length_map typed_entry items), E. now rewrite length_map.
  - rewrite map_map. apply map_ext. intros entry. apply parseItem_facts.
  - apply List.Forall_forall. intros step Hin. apply in_map_iff in Hin as (entry & <- & _).
    destruct (parseItem_facts entry) as (_ & Hmeta & Htype). now split.
Qed.

Lemma parseAPIResponse_spec_witness :
  parseAPIResponse (JArray [JObject [("User", JString "hi")]; JObject []]) = Threw EngineTypeError
  /\ parseAPIResponse (JArray [JObject [("User", JString "hi")];
                               JObject [("Supervisor", JString "Delegating")]])
     = Flow [mkStep "user" "hi" "input" None; mkStep "supervisor" "Delegating" "delegation" None].
Proof.
  destruct (parseAPIResponse_spec [JObject [("User", JString "hi")]; JObject []])
    as (_ & Hthrows & _).
  destruct (parseAPIResponse_spec [JObject [("User", JString "hi")];
                                   JObject [("Supervisor", JString "Delegating")]])
    as (_ & _ & Hflow & _).
  split.
  - apply Hthrows. exists [JObject [("User", JString "hi")]], (JObject []), [].
    split; [reflexivity|]. split; [now apply ThrowsOnNoEntry|].
    constructor; [|constructor].
    intros t' H. inversion H as [x E|x E|x key value E Hkey Hvalue]; subst;
      cbn in E; try discriminate.
    injection E as <- <-. discriminate.
  - apply Hflow. exists [("User", "hi"); ("Supervisor", "Delegating")]. split; reflexivity.
Defined.

End ReplyFacts.

(** ** Progress snapshots, whatever the store holds *)

Section SnapshotFacts.
Import Storage Processor.

(** X12.  In every snapshot [getTaskProgress] returns, the task id and
    the status are those of the task, progress lies between 0 and 100 (the
    range of [taskProgressSchema]) and is 100 exactly when the task is
    completed; either all three agents are complete (exactly when the task
    is completed) or none is complete and at most one is active, namely the
    agent of the latest message. *)
Theorem snapshot_well_formed (svc : Service) (taskId : Z) (st : MemStorage)
    (tp : TaskProgress) :
  getTaskProgress svc taskId st = Some tp ->
  tp_taskId tp = taskId
  /\ task_status <$> getTask taskId st = Some (tp_status tp)
  /\ (0 <= tp_progress tp <= 100)%Q
  /\ ((tp_progress tp == 100)%Q <-> tp_status tp = completed)
  /\ (tp_status tp = completed -> tp_agentStatus tp = mkAgentStatus complete complete complete)
  /\ (tp_status tp <> completed ->
      agents_in complete (tp_agentStatus tp) = 0%nat
      /\ (agents_in active (tp_agentStatus tp) <= 1)%nat
      /\ (as_supervisor (tp_agentStatus tp) = active ->
          msg_agent <$> getLatestMessage taskId st = Some "supervisor")
      /\ (as_phone (tp_agentStatus tp) = active ->
          msg_agent <$> getLatestMessage taskId st = Some "phone")
      /\ (as_venmo (tp_agentStatus tp) = active ->
          msg_agent <$> getLatestMessage taskId st = Some "venmo")).
Proof.
  unfold getTaskProgress, getLatestMessage.
  destruct (getTask taskId st) as [task|]; [|discriminate].
  intros [= <-]. cbn [tp_taskId tp_status tp_progress tp_agentStatus].
  split; [reflexivity|]. split; [reflexivity|].
  split; [split; [apply progress_of_nonneg|apply progress_of_le_100]|].
  split; [|split].
  - destruct (task_status task) eqn:E; cbn [progress_of]; split;
      try discriminate; try reflexivity; intros H; exfalso.
    pose proof (Q.le_min_r
                  (inject_Z (Z.of_nat (length (getTaskMessages taskId st)))
                   / inject_Z (expectedSteps svc) * 100) 95) as Hle.
    rewrite H in Hle. now apply Hle.
  - now intros ->.
  - intros Hstatus.
    assert (Hagents : agentStatus_of (task_status task) (Js.last_elem (getTaskMessages taskId st))
                      = match Js.last_elem (getTaskMessages taskId st) with
                        | Some m =>
                            if String.eqb (msg_agent m) "supervisor" then mkAgentStatus active idle idle
                            else if String.eqb (msg_agent m) "phone" then mkAgentStatus idle active idle
                            else if String.eqb (msg_agent m) "venmo" then mkAgentStatus idle idle active
                            else mkAgentStatus idle idle idle
                        | None => mkAgentStatus idle idle idle
                        end)
      by (destruct (task_status task); first [reflexivity | congruence]).
    rewrite Hagents.
    destruct (Js.last_elem (getTaskMessages taskId st)) as [m|];
      [|repeat split; first [reflexivity | intros; discriminate | vm_compute; lia]].
    destruct (String.eqb_spec (msg_agent m) "supervisor") as [Heq|_];
      [|destruct (String.eqb_spec (msg_agent m) "phone") as [Heq|_];
        [|destruct (String.eqb_spec (msg_agent m) "venmo") as [Heq|_]]];
      repeat split;
      first [ reflexivity | intros; discriminate | vm_compute; lia
            | intros _; cbn; congruence ].
Qed.

Lemma snapshot_well_formed_witness :
  exists tp,
    getTaskProgress External 1 (store_of three_messages) = Some tp
    /\ as_venmo (tp_agentStatus tp) = active
    /\ agents_in active (tp_agentStatus tp) = 1%nat
    /\ msg_agent <$> getLatestMessage 1 (store_of three_messages) = Some "venmo".
Proof.
  eexists. split; [vm_compute; reflexivity|].
  split; [reflexivity|]. split; [reflexivity|].
  refine (proj2 (proj2 (proj2 (proj2
            (proj2 (proj2 (proj2 (proj2 (proj2
               (snapshot_well_formed External 1 (store_of three_messages) _ eq_refl)))))
               _)))) eq_refl).
  discriminate.
Defined.

End SnapshotFacts.

(** ** Complete runs of [processTask] *)

Section CompleteRuns.
Import Storage Processor.

Lemma drive_cons (svc : Service) (inp : Input) (rest : list Input) (taskId : Z)
    (prompt : string) (w : World) (pc : Pc) :
  drive svc (inp :: rest) taskId prompt (w, Suspended pc)
  = drive svc rest taskId prompt (resume svc inp taskId prompt pc w).
Proof. reflexivity. Qed.

Lemma drive_ended (svc : Service) (inps : list Input) (taskId : Z) (prompt : string)
    (res : World * Outcome) :
  (forall pc, snd res <> Suspended pc) -> drive svc inps taskId prompt res = res.
Proof.
  intros H. destruct inps as [|inp rest]; [reflexivity|].
  cbn [drive]. destruct (snd res) as [pc| |error] eqn:E; [now destruct (H pc)| |]; reflexivity.
Qed.

(** The loop, from its head at index [i] to the end of the run. *)
Lemma drive_loop (svc : Service) (taskId : Z) (prompt : string) (flow : list Step) :
  forall (pairs : list (Input * Input)) (i : nat) (now0 : Z) (c : Input) (w : World),
    (i + length pairs = length flow)%nat ->
    drive svc (interleave pairs ++ [c]) taskId prompt (loop_head taskId flow i now0 w)
    = ({| store := run (writes taskId (drop i flow) pairs
                          ++ [OpUpdateTaskStatus taskId completed (Some (end_time now0 pairs))])
                     (store w);
          activeProcessing := <[taskId := false]> (activeProcessing w) |},
       Resolved).
Proof.
  induction pairs as [|[a b] pairs IH]; intros i now0 c w Hlen.
  - cbn [length] in Hlen. unfold loop_head.
    rewrite (proj2 (nth_error_None flow i)) by lia.
    cbn [interleave flat_map app]. rewrite drive_cons. cbn [resume].
    rewrite drive_ended by (intros pc; discriminate).
    destruct (drop i flow); reflexivity.
  - cbn [length] in Hlen. unfold loop_head at 1.
    destruct (nth_error flow i) as [step|] eqn:Hstep;
      [|apply nth_error_None in Hstep; lia].
    cbn [interleave flat_map app fst snd]. rewrite drive_cons. cbn [resume].
    rewrite drive_cons. cbn [resume].
    change (flat_map (fun ab => [fst ab; snd ab]) pairs) with (interleave pairs).
    rewrite (IH (S i) (in_now b) c) by lia.
    assert (Hdrop : drop i flow = step :: drop (S i) flow).
    { apply nth_error_split in Hstep as (l1 & l2 & -> & <-).
      rewrite drop_app_length. cbn [drop].
      replace (S (length l1)) with (length (l1 ++ [step])%list)
        by (rewrite length_app; cbn; lia).
      change (l1 ++ step :: l2)%list with (l1 ++ [step] ++ l2)%list.
      rewrite app_assoc, drop_app_length. reflexivity. }
    rewrite Hdrop. reflexivity.
Qed.

(** X13.  A run of [AgentService.processTask] that is not refused,
    followed to its end, does exactly this to the store: it marks the task
    processing, writes the steps of the generated flow as messages, in
    order, each stamped with the clock reading at the end of its delay, and
    marks the task completed at the clock reading at which the loop is left;
    the promise resolves and the active flag is cleared. *)
Theorem local_run_complete (taskId : Z) (prompt : string) (i0 c : Input)
    (pairs : list (Input * Input)) (w : World) :
  is_active taskId w = false ->
  length pairs = length (Generator.generateConversationFlow prompt (in_random i0)) ->
  drive Local (i0 :: interleave pairs ++ [c]) taskId prompt (processTask taskId prompt w)
  = ({| store :=
          run (OpUpdateTaskStatus taskId processing None
                 :: writes taskId (Generator.generateConversationFlow prompt (in_random i0)) pairs
                 ++ [OpUpdateTaskStatus taskId completed (Some (end_time (in_now i0) pairs))])
            (store w);
        activeProcessing := <[taskId := false]> (activeProcessing w) |},
     Resolved).
Proof.
  intros Hactive Hlen. unfold processTask. rewrite Hactive.
  rewrite drive_cons. cbn [resume].
  rewrite drive_loop by exact Hlen.
  cbn [drop with_store set_active store activeProcessing].
  rewrite insert_insert_eq. reflexivity.
Qed.

Lemma local_run_complete_witness :
  let pairs := [(at_time 2, at_time 3); (at_time 4, at_time 5); (at_time 6, at_time 7)] in
  let final := drive Local (at_time 1 :: interleave pairs ++ [at_time 8]) 1 "hello"
                 (processTask 1 "hello" (System.world hello_created)) in
  snd final = Resolved
  /\ map msg_timestamp (getTaskMessages 1 (store (fst final))) = [2; 4; 6]
  /\ getTask 1 (store (fst final)) = Some (mkTask 1 "hello" completed 0 (Some 7))
  /\ is_active 1 (fst final) = false.
Proof.
  cbn zeta.
  rewrite (local_run_complete 1 "hello" (at_time 1) (at_time 8)
             [(at_time 2, at_time 3); (at_time 4, at_time 5); (at_time 6, at_time 7)]
             (System.world hello_created) eq_refl eq_refl).
  vm_compute. repeat split.
Defined.

Lemma drive_failed (svc : Service) (inp : Input) (rest : list Input) (taskId : Z)
    (prompt error : string) (w : World) :
  drive svc (inp :: rest) taskId prompt (catch taskId error w)
  = ({| store := run [OpUpdateTaskStatus taskId failed None] (store w);
        activeProcessing := <[taskId := false]> (activeProcessing w) |},
     Rejected error).
Proof.
  unfold catch. rewrite drive_cons. cbn [resume].
  now rewrite drive_ended by (intros pc; discriminate).
Qed.

(** What [reply_flow] is on an array, from what its elements are. *)
Lemma reply_flow_array (i1 i2 : Input) (r : Response) (items : list Json) :
  in_fetch i1 = Fetched r -> resp_ok r = true ->
  resp_body r = JsonValue (JArray items) ->
  (forall pre x post t,
      items = (pre ++ x :: post)%list -> ThrowsOn x t ->
      Forall (fun y => forall t', ~ ThrowsOn y t') pre ->
      reply_flow (in_fetch i1) i2 = Fails (thrown_message i2 t))
  /\ (forall entries,
        map typed_entry items = map Some entries ->
        reply_flow (in_fetch i1) i2 = Gives (map ExternalGen.parseItem entries)).
Proof.
  intros Hfetch Hok Hbody. unfold reply_flow. rewrite Hfetch, Hok, Hbody.
  cbn [ExternalGen.parseAPIResponse]. split.
  - intros pre x post t Hitems Hx Hpre.
    assert (H : ExternalGen.parseItems items = ExternalGen.Threw t)
      by (apply parseItems_threw; now exists pre, x, post).
    now rewrite H.
  - intros entries Hentries.
    assert (H : ExternalGen.parseItems items
                = ExternalGen.Flow (map ExternalGen.parseItem entries))
      by (apply parseItems_flow; now exists entries).
    now rewrite H.
Qed.

(** X14.  A run of [ExternalAgentService.processTask] that is not
    refused, followed to its end.  When the request fails, the status is
    not a success, the body is not JSON, the reply is not iterable or an
    element of it makes [parseAPIResponse] throw, the store only sees the
    task marked processing and then failed (no message is written), and the
    promise is rejected with that error.  When [parseAPIResponse] returns a
    flow, its steps are written in order, each stamped at the end of its
    delay, and the task is marked completed.  In both cases the active flag
    is cleared.  For a reply that is an array, the first case is that of an
    element that is [null], has no entry, or has a value that is no string
    under Supervisor, phone_agent or venmo_agent, and the second case that
    of elements that all have a string under their first key.  (A reply with
    a value that is no string under another key is neither.) *)
Theorem external_run_complete (taskId : Z) (prompt : string) (i0 i1 i2 c : Input)
    (pairs : list (Input * Input)) (w : World) :
  is_active taskId w = false ->
  (forall error,
      reply_flow (in_fetch i1) i2 = Fails error ->
      drive External (i0 :: i1 :: i2 :: interleave pairs ++ [c]) taskId prompt
        (processTask taskId prompt w)
      = ({| store := run [ OpUpdateTaskStatus taskId processing None;
                           OpUpdateTaskStatus taskId failed None ] (store w);
            activeProcessing := <[taskId := false]> (activeProcessing w) |},
         Rejected error))
  /\ (forall flow,
        reply_flow (in_fetch i1) i2 = Gives flow ->
        length pairs = length flow ->
        drive External (i0 :: i1 :: i2 :: interleave pairs ++ [c]) taskId prompt
          (processTask taskId prompt w)
        = ({| store := run (OpUpdateTaskStatus taskId processing None
                              :: writes taskId flow pairs
                              ++ [OpUpdateTaskStatus taskId completed
                                    (Some (end_time (in_now i2) pairs))])
                         (store w);
              activeProcessing := <[taskId := false]> (activeProcessing w) |},
           Resolved))
  /\ (forall r items,
        in_fetch i1 = Fetched r -> resp_ok r = true ->
        resp_body r = JsonValue (JArray items) ->
        (forall pre x post t,
            items = (pre ++ x :: post)%list -> ThrowsOn x t ->
            Forall (fun y => forall t', ~ ThrowsOn y t') pre ->
            reply_flow (in_fetch i1) i2 = Fails (thrown_message i2 t))
        /\ (forall entries,
              map typed_entry items = map Some entries ->
              reply_flow (in_fetch i1) i2 = Gives (map ExternalGen.parseItem entries))).
Proof.
  intros Hactive.
  match goal with
  | |- ?A /\ ?B /\ _ =>
      assert (Hruns : A /\ B);
        [|destruct Hruns as [Hfails Hgives]; split; [exact Hfails|]; split; [exact Hgives|];
          intros r items; apply reply_flow_array]
  end.
  unfold processTask. rewrite Hactive.
  rewrite drive_cons. cbn [resume]. rewrite drive_cons. cbn [resume].
  unfold reply_flow.
  assert (Hnext : exists inp rest, (interleave pairs ++ [c])%list = inp :: rest).
  { destruct pairs as [|[a b] pairs]; cbn; eauto. }
  assert (Hfailed : forall inp rest error,
            drive External (inp :: rest) taskId prompt
              (catch taskId error
                 (with_store (fun st => snd (updateTaskStatus taskId processing None st))
                    (set_active taskId true w)))
            = ({| store := run [ OpUpdateTaskStatus taskId processing None;
                                 OpUpdateTaskStatus taskId failed None ] (store w);
                  activeProcessing := <[taskId := false]> (activeProcessing w) |},
               Rejected error)).
  { intros inp rest error. rewrite drive_failed.
    cbn [with_store set_active store activeProcessing]. now rewrite insert_insert_eq. }
  destruct (in_fetch i1) as [message|r].
  - split; [|discriminate]. intros error [= <-]. apply Hfailed.
  - destruct (resp_ok r).
    + rewrite drive_cons. cbn [resume]. destruct (resp_body r) as [message|response].
      * split; [|discriminate]. intros error [= <-].
        destruct Hnext as (inp & rest & ->). apply Hfailed.
      * destruct (ExternalGen.parseAPIResponse response) as [flow|thrown|].
        -- split; [discriminate|]. intros flow' [= <-] Hlen.
           rewrite drive_loop by exact Hlen.
           cbn [drop with_store set_active store activeProcessing].
           now rewrite insert_insert_eq.
        -- split; [|discriminate]. intros error [= <-].
           destruct Hnext as (inp & rest & ->). apply Hfailed.
        -- split; discriminate.
    + split; [|discriminate]. intros error [= <-]. apply Hfailed.
Qed.

Lemma external_run_complete_witness :
  let w := System.world hello_created in
  let broken := drive External
                  [at_time 1; reply_at 2 broken_reply; at_time 3; at_time 4] 1 "hello"
                  (processTask 1 "hello" w) in
  let entryless := drive External
                     [at_time 1; reply_at 2 entryless_reply; raising_at 3 undefined_not_iterable;
                      at_time 4] 1 "hello"
                     (processTask 1 "hello" w) in
  let good := drive External
                (at_time 1 :: reply_at 2 good_reply :: at_time 3
                   :: interleave [(at_time 4, at_time 5); (at_time 6, at_time 7);
                                  (at_time 8, at_time 9)] ++ [at_time 10])
                1 "hello" (processTask 1 "hello" w) in
  snd broken = Rejected null_item_error
  /\ getTaskMessages 1 (store (fst broken)) = []
  /\ task_status <$> getTask 1 (store (fst broken)) = Some failed
  /\ snd entryless = Rejected undefined_not_iterable
  /\ task_status <$> getTask 1 (store (fst entryless)) = Some failed
  /\ snd good = Resolved
  /\ map msg_agent (getTaskMessages 1 (store (fst good))) = ["user"; "supervisor"; "venmo"].
Proof.
  cbn zeta.
  destruct (external_run_complete 1 "hello" (at_time 1) (reply_at 2 broken_reply)
              (at_time 3) (at_time 4) [] (System.world hello_created) eq_refl)
    as (Hbroken & _ & _).
  destruct (external_run_complete 1 "hello" (at_time 1) (reply_at 2 entryless_reply)
              (raising_at 3 undefined_not_iterable) (at_time 4) [] (System.world hello_created)
              eq_refl) as (Hentryless & _ & _).
  destruct (external_run_complete 1 "hello" (at_time 1) (reply_at 2 good_reply)
              (at_time 3) (at_time 10)
              [(at_time 4, at_time 5); (at_time 6, at_time 7); (at_time 8, at_time 9)]
              (System.world hello_created) eq_refl) as (_ & Hgood & _).
  specialize (Hbroken null_item_error eq_refl).
  specialize (Hentryless undefined_not_iterable eq_refl).
  specialize (Hgood _ eq_refl eq_refl).
  cbn [interleave flat_map app] in Hbroken, Hentryless. rewrite Hbroken, Hentryless, Hgood.
  vm_compute. repeat split.
Defined.

End CompleteRuns.

(** ** The active flags of a service instance *)

Section ActiveFlags.
Import Storage Processor System.

Lemma in_flight_insert (t : Z) (k : nat) (r : Run) (pc : Pc) (s : State) (w : World) :
  runs s !! k = Some r ->
  in_flight t s ->
  in_flight t {| world := w; runs := <[k := mkRun (run_task r) (run_prompt r) pc]> (runs s) |}.
Proof.
  intros Hk (r' & Hr' & Ht).
  destruct (lookup_split _ _ _ Hk) as (l1 & l2 & Hruns & _ & Hins).
  unfold in_flight. cbn [runs]. rewrite Hins. rewrite Hruns in Hr'.
  rewrite elem_of_app, elem_of_cons in Hr'.
  destruct Hr' as [Hr'|[->|Hr']].
  - exists r'. rewrite elem_of_app. auto.
  - eexists. rewrite elem_of_app, elem_of_cons. split; [right; left; reflexivity|exact Ht].
  - exists r'. rewrite elem_of_app, elem_of_cons. auto.
Qed.

Lemma in_flight_delete (t : Z) (k : nat) (r : Run) (s : State) (w : World) :
  runs s !! k = Some r ->
  run_task r <> t ->
  in_flight t s ->
  in_flight t {| world := w; runs := delete k (runs s) |}.
Proof.
  intros Hk Hne (r' & Hr' & Ht).
  destruct (lookup_split _ _ _ Hk) as (l1 & l2 & Hruns & Hdel & _).
  unfold in_flight. cbn [runs]. rewrite Hdel. rewrite Hruns in Hr'.
  rewrite elem_of_app, elem_of_cons in Hr'. exists r'. rewrite elem_of_app.
  destruct Hr' as [Hr'|[->|Hr']]; [auto|congruence|auto].
Qed.

Lemma flags_step (svc : Service) (ev : Event) (s : State) :
  (forall t, is_active t (world s) = true -> in_flight t s) ->
  forall t, is_active t (world (step svc ev s)) = true -> in_flight t (step svc ev s).
Proof.
  intros Hflags t. destruct ev as [prompt now|t' prompt|k inp]; cbn [step].
  - cbn [world]. intros H. rewrite (is_active_ext _ (world s)) in H by reflexivity.
    destruct (Hflags t H) as (r & Hr & Ht). now exists r.
  - unfold processTask. destruct (is_active t' (world s)) eqn:Hact.
    + cbn [world]. intros H. destruct (Hflags t H) as (r & Hr & Ht). now exists r.
    + cbn [world]. intros H.
      rewrite (is_active_ext _ (set_active t' true (world s))) in H by reflexivity.
      unfold in_flight. cbn [runs].
      destruct (Z.eq_dec t t') as [->|Hne].
      * eexists. rewrite elem_of_app, list_elem_of_singleton. split; [right; reflexivity|].
        reflexivity.
      * rewrite is_active_set_ne in H by exact Hne.
        destruct (Hflags t H) as (r & Hr & Ht). exists r. rewrite elem_of_app. auto.
  - destruct (runs s !! k) as [r|] eqn:Hk; [|apply Hflags].
    unfold settle.
    destruct (resume_cases svc inp (run_task r) (run_prompt r) (run_pc r) (world s))
      as [(pc' & Ho & _ & _ & _ & _ & Hact)
         |[(pc' & status & c & Ho & _ & _ & _ & _ & Hact)
          |(Ho & _ & Hw)]].
    + rewrite Ho. cbn [world]. intros H. rewrite (is_active_ext _ _ _ Hact) in H.
      apply (in_flight_insert t k r pc' s _ Hk); auto.
    + rewrite Ho. cbn [world]. intros H. rewrite (is_active_ext _ _ _ Hact) in H.
      apply (in_flight_insert t k r pc' s _ Hk); auto.
    + destruct (snd (resume svc inp (run_task r) (run_prompt r) (run_pc r) (world s)))
        as [pc'| |error] eqn:Ho'; [now destruct (Ho pc')| |];
        cbn [world]; rewrite Hw; intros H;
        (destruct (Z.eq_dec (run_task r) t) as [<-|Hne];
         [rewrite is_active_set_eq in H; discriminate|]);
        rewrite is_active_set_ne in H by congruence;
        apply (in_flight_delete t k r s _ Hk); auto.
Qed.

Lemma flags_exec (svc : Service) (evs : list Event) (s : State) :
  (forall t, is_active t (world s) = true -> in_flight t s) ->
  forall t, is_active t (world (exec svc evs s)) = true -> in_flight t (exec svc evs s).
Proof.
  revert s. induction evs as [|ev evs IH]; intros s H; [exact H|].
  apply IH. now apply flags_step.
Qed.

(** X15.  In every state a service instance reaches, a task id is marked
    active exactly when a run for it is in flight: the flag is set when a
    run starts and is always cleared when the run ends, whether it resolves
    or is rejected, so a finished task can be processed again and a flag is
    never left behind. *)
Theorem active_iff_in_flight (svc : Service) (s : State) (taskId : Z) :
  reachable svc s ->
  (is_active taskId (world s) = true <-> in_flight taskId s).
Proof.
  intros Hreach. split.
  - destruct Hreach as [evs ->]. apply flags_exec.
    intros t H. unfold is_active in H. cbn in H. rewrite lookup_empty in H. discriminate.
  - intros (r & Hr & <-). apply reachable_consistent in Hreach.
    now apply (runs_active _ Hreach).
Qed.

Lemma active_iff_in_flight_witness :
  is_active 1 (world hello_started) = true /\ ~ in_flight 1 hello_done.
Proof.
  assert (H1 : reachable Local hello_started).
  { exists [CreateTask "hello" 0; Call 1 "hello"; Resume 0 (at_time 1)]. reflexivity. }
  assert (H2 : reachable Local hello_done).
  { exists (CreateTask "hello" 0 :: hello_run). reflexivity. }
  split.
  - apply (active_iff_in_flight Local hello_started 1 H1).
    eexists. split; [apply list_elem_of_here|reflexivity].
  - intros H. apply (active_iff_in_flight Local hello_done 1 H2) in H.
    vm_compute in H. discriminate.
Defined.

End ActiveFlags.

(** ** Complete runs of [processTaskWithUpdates] *)

Section RouteRuns.
Import Storage Routes.

Lemma route_drive_cons (inp : Input) (rest : list Input) (taskId : Z) (prompt : string)
    (srv : Server) (pc : Pc) :
  route_drive (inp :: rest) taskId prompt (srv, Suspended pc)
  = route_drive rest taskId prompt (resume inp taskId prompt pc srv).
Proof. reflexivity. Qed.

Lemma route_drive_finished (inps : list Input) (taskId : Z) (prompt : string) (srv : Server) :
  route_drive inps taskId prompt (srv, Finished) = (srv, Finished).
Proof. now destruct inps. Qed.

Lemma nth_error_middle {A : Type} (pre rest : list A) :
  nth_error (pre ++ rest) (length pre) = hd_error rest.
Proof.
  induction pre as [|x pre IH]; [now destruct rest|exact IH].
Qed.

Lemma stop_at_throws (taskId : Z) (x : Json) (ending : Ending) (inp : Input) (srv : Server)
    (flow : list Json) (i : nat) :
  nth_error flow i = Some x ->
  typed_entry x = None ->
  stop_at x = Some ending ->
  exists t, ending = Throws t
            /\ loop_head taskId flow i inp srv = catch taskId (thrown_message inp t) srv.
Proof.
  intros Hnth Htyped Hstop. unfold loop_head. rewrite Hnth.
  unfold typed_entry, stop_at in *.
  destruct (first_entry x) as [| |key [| | |message| |]|]; try discriminate;
    injection Hstop as <-; eexists; (split; [reflexivity|reflexivity]).
Qed.

(** The loop, from its head at the element that follows [pre]. *)
Lemma route_loop (taskId : Z) (prompt : string) (c : Input) (ending : Ending) :
  forall (rest pre : list Json) (pairs : list (Input * Input)) (inp0 : Input) (srv : Server),
    length pairs = length (stored rest) ->
    route_stop rest = Some ending ->
    route_drive (interleave pairs ++ [c]) taskId prompt
      (loop_head taskId (pre ++ rest) (length pre) inp0 srv)
    = ({| store := run (route_writes taskId (stored rest) (in_now inp0) pairs
                          ++ [route_end_op taskId ending (in_now (end_input inp0 pairs))])
                     (store srv);
          sent := (sent srv
                     ++ route_events taskId (length (pre ++ rest)) (length pre)
                          (stored rest) pairs
                     ++ [route_end_event taskId ending (end_input inp0 pairs)])%list |},
       Finished).
Proof.
  induction rest as [|x rest IH]; intros pre pairs inp0 srv Hlen Hstop.
  - cbn [route_stop] in Hstop. injection Hstop as <-.
    unfold loop_head. rewrite nth_error_middle. cbn [hd_error].
    destruct pairs; [|discriminate]. cbn [interleave flat_map app].
    rewrite route_drive_cons. cbn [resume]. rewrite route_drive_finished.
    reflexivity.
  - unfold stored in Hlen |- *. cbn [map route_stop] in Hlen, Hstop |- *.
    destruct (typed_entry x) as [[stepKey stepMessage]|] eqn:Hx.
    + cbn [leading] in Hlen |- *.
      destruct pairs as [|[a b] pairs]; [discriminate|]. injection Hlen as Hlen.
      apply typed_entry_first in Hx.
      unfold loop_head. rewrite nth_error_middle. cbn [hd_error]. rewrite Hx.
      cbn [interleave flat_map app fst snd].
      rewrite route_drive_cons. cbn [resume]. rewrite route_drive_cons. cbn [resume].
      change (flat_map (fun ab => [fst ab; snd ab]) pairs) with (interleave pairs).
      match goal with
      | |- route_drive _ _ _ (loop_head _ _ _ _ ?srv') = _ =>
          pose proof (IH (pre ++ [x])%list pairs b srv' Hlen Hstop) as H
      end.
      rewrite <- app_assoc in H. cbn [app] in H.
      replace (length (pre ++ [x])%list) with (S (length pre)) in H
        by (rewrite length_app; cbn; lia).
      rewrite H. unfold broadcast, with_store, stored. cbn [store sent].
      cbn [route_writes route_events end_input app].
      rewrite <- !app_assoc. reflexivity.
    + cbn [leading] in Hlen |- *. destruct pairs; [|discriminate].
      destruct (stop_at_throws taskId x ending inp0 srv (pre ++ x :: rest) (length pre))
        as (t & -> & ->); [now rewrite nth_error_middle|exact Hx|exact Hstop|].
      cbn [interleave flat_map app].
      unfold catch. rewrite route_drive_cons. cbn [resume]. rewrite route_drive_finished.
      reflexivity.
Qed.

(** X16.  A run of [processTaskWithUpdates] whose request is answered
    with a success status and a JSON array, followed to its end.  The task
    is marked processing and the progress event announcing the call is
    broadcast; then the elements are stored as messages, in order, each
    followed by one progress event carrying it, up to the first element
    whose first entry has no string value; then the run ends: with the task
    completed and one [taskCompleted] event when there is no such element,
    with the task failed and one [taskError] event carrying the error
    thrown when that element is [null], has no entry (as [{}] or a number),
    or has a value that is [null], a boolean, a number or an object.
    Nothing after that element is written.  (An element whose value is an
    array is not covered.) *)
Theorem route_run_complete (taskId : Z) (prompt : string) (i1 i2 i3 c : Input) (r : Response)
    (flow : list Json) (ending : Ending) (pairs : list (Input * Input)) (srv : Server) :
  in_fetch i2 = Fetched r ->
  resp_ok r = true ->
  resp_body r = JsonValue (JArray flow) ->
  route_stop flow = Some ending ->
  length pairs = length (stored flow) ->
  route_drive (i1 :: i2 :: i3 :: interleave pairs ++ [c]) taskId prompt
    (processTaskWithUpdates taskId prompt srv)
  = ({| store := run (OpUpdateTaskStatus taskId processing None
                        :: route_writes taskId (stored flow) (in_now i3) pairs
                        ++ [route_end_op taskId ending (in_now (end_input i3 pairs))])
                   (store srv);
        sent := (sent srv
                   ++ TaskProgressEvent (initial_progress taskId (in_now i1))
                   :: route_events taskId (length flow) 0 (stored flow) pairs
                   ++ [route_end_event taskId ending (end_input i3 pairs)])%list |},
     Finished).
Proof.
  intros Hfetch Hok Hbody Hstop Hlen. unfold processTaskWithUpdates.
  rewrite route_drive_cons. cbn [resume]. rewrite route_drive_cons. cbn [resume].
  rewrite Hfetch, Hok. rewrite route_drive_cons. cbn [resume]. rewrite Hbody.
  cbn [loop_enter].
  rewrite (route_loop taskId prompt c ending flow [] pairs i3) by assumption.
  unfold broadcast, with_store. cbn [store sent app length].
  rewrite <- app_assoc. reflexivity.
Qed.

Lemma route_run_complete_witness :
  let start := server (Routes.exec [Post sample_body 0] Routes.init) in
  let broken := route_drive (at_time 1 :: reply_at 2 broken_reply :: at_time 3
                               :: interleave [(at_time 4, at_time 5)] ++ [at_time 6])
                  1 "Send the money back to Cory"
                  (processTaskWithUpdates 1 "Send the money back to Cory" start) in
  let entryless := route_drive (at_time 1 :: reply_at 2 entryless_reply
                                  :: raising_at 3 undefined_toLowerCase
                                  :: interleave [] ++ [at_time 4])
                     1 "Send the money back to Cory"
                     (processTaskWithUpdates 1 "Send the money back to Cory" start) in
  snd broken = Finished
  /\ length (getTaskMessages 1 (store (fst broken))) = 1%nat
  /\ task_status <$> getTask 1 (store (fst broken)) = Some failed
  /\ List.filter (is_taskError 1) (sent (fst broken)) = [TaskErrorEvent 1 null_item_error]
  /\ getTaskMessages 1 (store (fst entryless)) = []
  /\ task_status <$> getTask 1 (store (fst entryless)) = Some failed
  /\ List.filter (is_taskError 1) (sent (fst entryless))
     = [TaskErrorEvent 1 undefined_toLowerCase].
Proof.
  cbn zeta.
  rewrite (route_run_complete 1 "Send the money back to Cory" (at_time 1)
             (reply_at 2 broken_reply) (at_time 3) (at_time 6) broken_reply
             (map item_json [Some ("Supervisor", "Let's go to the venmo agent"); None])
             (Throws NullToObject)
             [(at_time 4, at_time 5)] _ eq_refl eq_refl eq_refl eq_refl eq_refl).
  rewrite (route_run_complete 1 "Send the money back to Cory" (at_time 1)
             (reply_at 2 entryless_reply) (raising_at 3 undefined_toLowerCase) (at_time 4)
             entryless_reply [JObject []] (Throws EngineTypeError)
             [] _ eq_refl eq_refl eq_refl eq_refl eq_refl).
  vm_compute. repeat split.
Defined.

End RouteRuns.

Section LoopProgress.
Import Routes.

Lemma ratio_bounds (i len : nat) :
  (0 < len)%nat ->
  (0 <= inject_Z (Z.of_nat i) / inject_Z (Z.of_nat len))%Q
  /\ ((i < len)%nat -> (inject_Z (Z.of_nat i) / inject_Z (Z.of_nat len) < 1)%Q).
Proof.
  intros Hlen.
  assert (Hpos : (0 < inject_Z (Z.of_nat len))%Q)
    by (change 0%Q with (inject_Z 0); rewrite <- Zlt_Qlt; lia).
  split.
  - apply Qle_shift_div_l; [exact Hpos|]. rewrite Qmult_0_l.
    change 0%Q with (inject_Z 0). rewrite <- Zle_Qle. lia.
  - intros Hi. apply Qlt_shift_div_r; [exact Hpos|]. rewrite Qmult_1_l.
    rewrite <- Zlt_Qlt. lia.
Qed.

Lemma ratio_mono (i j len : nat) :
  (0 < len)%nat -> (i <= j)%nat ->
  (inject_Z (Z.of_nat i) / inject_Z (Z.of_nat len)
   <= inject_Z (Z.of_nat j) / inject_Z (Z.of_nat len))%Q.
Proof.
  intros Hlen Hij. apply Qmult_le_compat_r.
  - rewrite <- Zle_Qle. lia.
  - apply Qinv_le_0_compat. change 0%Q with (inject_Z 0). rewrite <- Zle_Qle. lia.
Qed.

(** X17.  The progress [processTaskWithUpdates] broadcasts after step [i]
    of a reply of [len] elements starts at 20, never decreases from one
    step to the next, and stays strictly below 95: inside the loop the cap
    of [Math.min] is never reached, and the value is between the 10 of the
    first event and the 100 of the completion event. *)
Theorem loop_progress_bounds (i j len : nat) :
  (i <= j)%nat -> (j < len)%nat ->
  (loop_progress 0 len == 20)%Q
  /\ (loop_progress i len == 20 + inject_Z (Z.of_nat i) / inject_Z (Z.of_nat len) * 75)%Q
  /\ (10 < 20 <= loop_progress i len)%Q
  /\ (loop_progress i len <= loop_progress j len)%Q
  /\ (loop_progress j len < 95 < 100)%Q.
Proof.
  intros Hij Hj.
  assert (Hlen : (0 < len)%nat) by lia.
  assert (Hcap : forall k, (k < len)%nat ->
            (20 + inject_Z (Z.of_nat k) / inject_Z (Z.of_nat len) * 75 < 95)%Q).
  { intros k Hk. destruct (ratio_bounds k len Hlen) as [_ Hlt]. specialize (Hlt Hk).
    apply Qlt_le_trans with (20 + 1 * 75)%Q; [|discriminate].
    apply Qplus_lt_r. now apply Qmult_lt_compat_r. }
  assert (Hval : forall k, (k < len)%nat ->
            (loop_progress k len
             == 20 + inject_Z (Z.of_nat k) / inject_Z (Z.of_nat len) * 75)%Q).
  { intros k Hk. unfold loop_progress. apply Q.min_l. apply Qlt_le_weak. now apply Hcap. }
  assert (Hlow : forall k,
            (20 <= 20 + inject_Z (Z.of_nat k) / inject_Z (Z.of_nat len) * 75)%Q).
  { intros k. apply Qle_trans with (20 + 0)%Q; [discriminate|].
    apply Qplus_le_r. apply Qmult_le_0_compat; [|discriminate].
    now destruct (ratio_bounds k len Hlen). }
  split; [|split; [|split; [|split]]].
  - rewrite Hval by lia. change (inject_Z (Z.of_nat 0)) with 0%Q.
    unfold Qdiv. rewrite !Qmult_0_l, Qplus_0_r. reflexivity.
  - apply Hval. lia.
  - split; [reflexivity|]. rewrite Hval by lia. apply Hlow.
  - rewrite !Hval by lia. apply Qplus_le_r. apply Qmult_le_compat_r; [|discriminate].
    now apply ratio_mono.
  - split; [|reflexivity]. rewrite Hval by lia. now apply Hcap.
Qed.

Lemma loop_progress_bounds_witness :
  (loop_progress 1 3 == 45)%Q /\ (loop_progress 1 3 <= loop_progress 2 3)%Q.
Proof.
  destruct (loop_progress_bounds 1 2 3) as (_ & Hval & _ & Hmono & _); [lia|lia|].
  split; [rewrite Hval; reflexivity|exact Hmono].
Defined.

End LoopProgress.

(** ** The registry of observers and [broadcast] *)

Section HubFacts.
Import Hub.

Lemma broadcast_closed_form (data : Routes.WsEvent) (clients : list (string * Socket)) :
  broadcast data clients = map (deliver (EventFrame data)) (List.filter live clients).
Proof.
  induction clients as [|[clientId ws] rest IH]; [reflexivity|].
  cbn [broadcast List.filter]. unfold live at 1, send. cbn [snd].
  destruct (readyState ws =? 1); [|exact IH].
  destruct (send_raises ws) eqn:Hraises; cbn [andb negb map]; rewrite IH; [reflexivity|].
  unfold deliver. cbn [fst snd]. now rewrite Hraises.
Qed.

Lemma filter_live_deliver (frame : Frame) (clients : list (string * Socket)) :
  List.filter live (map (deliver frame) (List.filter live clients))
  = map (deliver frame) (List.filter live clients).
Proof.
  induction clients as [|entry rest IH]; [reflexivity|].
  cbn [List.filter]. destruct (live entry) eqn:E; [|exact IH].
  cbn [map List.filter].
  replace (live (deliver frame entry)) with true by (symmetry; exact E).
  now rewrite IH.
Qed.

(** X18.  [broadcast] hands the event to every registered connection
    that is open and whose [send] does not raise, in registration order,
    and drops every other connection from the registry; it never raises;
    with no connection registered it does nothing.  What is left after a
    broadcast are live connections only, so a second broadcast, the
    connections being as they were left, reaches all of them and drops
    none. *)
Theorem broadcast_delivers (data data' : Routes.WsEvent) (clients : list (string * Socket)) :
  broadcast data clients = map (deliver (EventFrame data)) (List.filter live clients)
  /\ broadcast data [] = []
  /\ Forall (fun entry => live entry = true) (broadcast data clients)
  /\ (forall clientId ws,
        In (clientId, ws) clients -> live (clientId, ws) = false ->
        ~ In (clientId, ws) (broadcast data clients))
  /\ broadcast data' (broadcast data clients)
     = map (deliver (EventFrame data')) (broadcast data clients).
Proof.
  split; [apply broadcast_closed_form|]. split; [reflexivity|]. split; [|split].
  - rewrite broadcast_closed_form. apply List.Forall_forall. intros entry Hin.
    apply in_map_iff in Hin as (e & <- & He). apply filter_In in He as [_ He]. exact He.
  - intros clientId ws Hin Hdead Hin'. rewrite broadcast_closed_form in Hin'.
    apply in_map_iff in Hin' as (e & He & Hf). apply filter_In in Hf as [_ Hlive].
    destruct e as [k s]. unfold deliver in He. cbn [fst snd] in He.
    injection He as -> <-. unfold live in *. cbn [snd readyState send_raises] in *.
    congruence.
  - rewrite (broadcast_closed_form data'), (broadcast_closed_form data).
    now rewrite filter_live_deliver.
Qed.

Lemma broadcast_delivers_witness :
  let ev := Routes.TaskErrorEvent 1 "x" in
  broadcast ev [ ("a", mkSocket 1 false []); ("b", mkSocket 3 false []);
                 ("c", mkSocket 1 true []); ("d", mkSocket 1 false []) ]
  = [ ("a", mkSocket 1 false [EventFrame ev]); ("d", mkSocket 1 false [EventFrame ev]) ].
Proof.
  cbn zeta.
  rewrite (proj1 (broadcast_delivers (Routes.TaskErrorEvent 1 "x") (Routes.TaskErrorEvent 1 "x")
                    [ ("a", mkSocket 1 false []); ("b", mkSocket 3 false []);
                      ("c", mkSocket 1 true []); ("d", mkSocket 1 false []) ])).
  reflexivity.
Defined.

Lemma map_get_set_eq (k : string) (ws : Socket) (clients : list (string * Socket)) :
  map_get k (map_set k ws clients) = Some ws.
Proof.
  induction clients as [|[k' ws'] rest IH]; cbn [map_set map_get].
  - now rewrite String.eqb_refl.
  - destruct (String.eqb k' k) eqn:E; cbn [map_get]; rewrite ?E, ?String.eqb_refl; auto.
Qed.

Lemma map_get_set_ne (k k' : string) (ws : Socket) (clients : list (string * Socket)) :
  k' <> k -> map_get k' (map_set k ws clients) = map_get k' clients.
Proof.
  intros Hne. induction clients as [|[k0 ws0] rest IH]; cbn [map_set map_get].
  - destruct (String.eqb_spec k k'); [congruence|reflexivity].
  - destruct (String.eqb_spec k0 k) as [->|Hk0]; cbn [map_get].
    + destruct (String.eqb_spec k k'); [congruence|reflexivity].
    + destruct (String.eqb k0 k'); [reflexivity|exact IH].
Qed.

Lemma map_set_fresh_key (k : string) (ws : Socket) (clients : list (string * Socket)) :
  map_get k clients = None -> map_set k ws clients = (clients ++ [(k, ws)])%list.
Proof.
  induction clients as [|[k' ws'] rest IH]; cbn [map_set map_get app]; [reflexivity|].
  destruct (String.eqb k' k); [discriminate|]. intros H. now rewrite IH.
Qed.

Lemma map_set_length (k : string) (ws : Socket) (clients : list (string * Socket)) :
  length (map_set k ws clients)
  = match map_get k clients with
    | Some _ => length clients
    | None => S (length clients)
    end.
Proof.
  induction clients as [|[k' ws'] rest IH]; cbn [map_set map_get length]; [reflexivity|].
  destruct (String.eqb k' k); cbn [length]; [reflexivity|].
  rewrite IH. now destruct (map_get k rest).
Qed.

Lemma map_get_delete (k k' : string) (clients : list (string * Socket)) :
  map_get k' (map_delete k clients) = if String.eqb k k' then None else map_get k' clients.
Proof.
  induction clients as [|[k0 ws0] rest IH]; cbn [map_delete List.filter map_get fst].
  - now destruct (String.eqb k k').
  - fold (map_delete k rest).
    destruct (String.eqb_spec k0 k) as [->|Hk0]; cbn [negb map_get].
    + rewrite IH. destruct (String.eqb_spec k k') as [->|]; [reflexivity|].
      now destruct (String.eqb_spec k k').
    + rewrite IH. destruct (String.eqb_spec k k') as [<-|].
      * destruct (String.eqb_spec k0 k); [congruence|reflexivity].
      * reflexivity.
Qed.

Lemma connection_registers (random : string) (ws : Socket) (clients : list (string * Socket)) :
  connection random ws clients
  = map_set (Js.drop_chars 7 random) (greeted (Js.drop_chars 7 random) ws) clients.
Proof. unfold connection, send, greeted. now destruct (send_raises ws). Qed.

(** X19.  A new connection is registered under the id drawn for it and is
    found there, greeted with that id unless the greeting raised (it stays
    registered even then); the other entries are untouched.  Under an id
    not in use the entry is added last; under an id already in use it takes
    the place of the earlier connection, the registry does not grow, and the
    earlier connection is no longer registered.  When a connection closes,
    the entry under its id is removed, whichever connection holds it: after
    a collision, the close of the first connection unregisters the
    second. *)
Theorem connection_registry (random : string) (ws ws2 : Socket)
    (clients : list (string * Socket)) :
  let clientId := Js.drop_chars 7 random in
  map_get clientId (connection random ws clients) = Some (greeted clientId ws)
  /\ (forall other, other <> clientId ->
        map_get other (connection random ws clients) = map_get other clients)
  /\ (map_get clientId clients = None ->
      connection random ws clients = (clients ++ [(clientId, greeted clientId ws)])%list)
  /\ (map_get clientId clients <> None ->
      length (connection random ws clients) = length clients)
  /\ map_get clientId (connection random ws2 (connection random ws clients))
     = Some (greeted clientId ws2)
  /\ map_get clientId (closed clientId (connection random ws2 (connection random ws clients)))
     = None
  /\ (forall other, other <> clientId ->
        map_get other (closed clientId clients) = map_get other clients).
Proof.
  cbn zeta. rewrite !connection_registers.
  split; [apply map_get_set_eq|]. split; [intros other H; now apply map_get_set_ne|].
  split; [apply map_set_fresh_key|]. split; [|split; [|split]].
  - intros H. rewrite map_set_length. now destruct (map_get _ clients).
  - apply map_get_set_eq.
  - unfold closed. rewrite map_get_delete. now rewrite String.eqb_refl.
  - intros other H. unfold closed. rewrite map_get_delete.
    destruct (String.eqb_spec (Js.drop_chars 7 random) other); [congruence|reflexivity].
Qed.

Lemma connection_registry_witness :
  connection "0.4fzyo82mvyr" (mkSocket 1 false []) [("k3x9a", mkSocket 1 false [])]
  = [ ("k3x9a", mkSocket 1 false []);
      ("82mvyr", mkSocket 1 false [ConnectedFrame "82mvyr"]) ]
  /\ length (connection "0.5" (mkSocket 1 false []) [(EmptyString, mkSocket 1 false [])])
     = 1%nat.
Proof.
  destruct (connection_registry "0.4fzyo82mvyr" (mkSocket 1 false []) (mkSocket 1 false [])
              [("k3x9a", mkSocket 1 false [])]) as (_ & _ & Hfresh & _).
  destruct (connection_registry "0.5" (mkSocket 1 false []) (mkSocket 1 false [])
              [(EmptyString, mkSocket 1 false [])]) as (_ & _ & _ & Hused & _).
  split; [rewrite Hfresh by reflexivity; reflexivity|apply Hused; discriminate].
Defined.

End HubFacts.

(** ** The page: what it keeps of the frames it receives *)

Section PageFacts.
Import Page.

Lemma nth_error_snoc_last {A : Type} (l : list A) (x : A) :
  nth_error (l ++ [x]) (length (l ++ [x]) - 1) = Some x.
Proof.
  rewrite length_app. cbn [length].
  replace (length l + 1 - 1)%nat with (length l) by lia.
  rewrite nth_error_app2 by lia. now rewrite Nat.sub_diag.
Qed.

Lemma add_message_last (now : Z) (d : TaskProgress) (cm : CurrentMessage) (prev : list Message) :
  exists m,
    nth_error (add_message now d cm prev) (length (add_message now d cm prev) - 1) = Some m
    /\ msg_agent m = cm_agent cm /\ msg_message m = cm_message cm.
Proof.
  unfold add_message.
  destruct (nth_error prev (length prev - 1)) as [lastMessage|] eqn:Hlast.
  - destruct (String.eqb_spec (msg_agent lastMessage) (cm_agent cm)) as [Ha|Ha];
      cbn [negb orb].
    + destruct (String.eqb_spec (msg_message lastMessage) (cm_message cm)) as [Hm|Hm];
        cbn [negb].
      * exists lastMessage. auto.
      * eexists. rewrite nth_error_snoc_last. split; [reflexivity|]. split; reflexivity.
    + eexists. rewrite nth_error_snoc_last. split; [reflexivity|]. split; reflexivity.
  - eexists. rewrite nth_error_snoc_last. split; [reflexivity|]. split; reflexivity.
Qed.

Lemma add_message_absorbs (now now' : Z) (d d' : TaskProgress) (cm : CurrentMessage)
    (prev : list Message) :
  add_message now' d' cm (add_message now d cm prev) = add_message now d cm prev.
Proof.
  destruct (add_message_last now d cm prev) as (m & Hm & Ha & Ht).
  unfold add_message at 1. rewrite Hm, Ha, Ht, !String.eqb_refl. reflexivity.
Qed.

Lemma add_message_grows (now : Z) (d : TaskProgress) (cm : CurrentMessage) (prev : list Message) :
  exists added,
    add_message now d cm prev = (prev ++ added)%list /\ (length added <= 1)%nat.
Proof.
  unfold add_message. destruct (nth_error prev (length prev - 1)) as [lastMessage|].
  - destruct (_ || _)%bool.
    + eexists. split; [reflexivity|]. cbn. lia.
    + exists []. rewrite app_nil_r. split; [reflexivity|]. cbn. lia.
  - eexists. split; [reflexivity|]. cbn. lia.
Qed.

Lemma no_repeat_snoc (l : list Message) (x : Message) :
  no_repeat l = true ->
  match nth_error l (length l - 1) with
  | Some y => same_text y x = false
  | None => True
  end ->
  no_repeat (l ++ [x]) = true.
Proof.
  induction l as [|a [|b t] IH]; intros Hl Hlast.
  - reflexivity.
  - cbn in Hlast. cbn [app no_repeat]. now rewrite Hlast.
  - change (no_repeat (a :: b :: t)) with (negb (same_text a b) && no_repeat (b :: t))%bool in Hl.
    apply andb_true_iff in Hl as [Hab Hrest].
    change ((a :: b :: t) ++ [x])%list with (a :: b :: (t ++ [x]))%list.
    change (no_repeat (a :: b :: (t ++ [x])))
      with (negb (same_text a b) && no_repeat ((b :: t) ++ [x]))%bool.
    rewrite Hab. cbn [andb]. apply IH; [exact Hrest|].
    cbn [length] in Hlast |- *.
    replace (S (S (length t)) - 1)%nat with (S (length t)) in Hlast by lia.
    replace (S (length t) - 1)%nat with (length t) by lia.
    exact Hlast.
Qed.

Lemma add_message_no_repeat (now : Z) (d : TaskProgress) (cm : CurrentMessage)
    (prev : list Message) :
  no_repeat prev = true -> no_repeat (add_message now d cm prev) = true.
Proof.
  intros Hprev. unfold add_message.
  destruct (nth_error prev (length prev - 1)) as [lastMessage|] eqn:Hlast.
  - destruct (_ || _)%bool eqn:Hdiff; [|exact Hprev].
    apply no_repeat_snoc; [exact Hprev|]. rewrite Hlast. unfold same_text.
    cbn [msg_agent msg_message].
    destruct (String.eqb (msg_agent lastMessage) (cm_agent cm)),
             (String.eqb (msg_message lastMessage) (cm_message cm));
      cbn in Hdiff |- *; congruence.
  - apply no_repeat_snoc; [exact Hprev|]. now rewrite Hlast.
Qed.

Lemma onmessage_grows (now : Z) (frame : option Hub.Frame) (s : State) :
  exists added,
    messages (onmessage now frame s) = (messages s ++ added)%list /\ (length added <= 1)%nat.
Proof.
  assert (Hsame : exists added, messages s = (messages s ++ added)%list
                                /\ (length added <= 1)%nat)
    by (exists []; rewrite app_nil_r; split; [reflexivity|cbn; lia]).
  destruct frame as [[clientId|[d|d|taskId error]]|]; cbn [onmessage messages]; try exact Hsame.
  destruct (tp_currentMessage d); [apply add_message_grows|exact Hsame].
Qed.

Lemma onmessage_no_repeat (now : Z) (frame : option Hub.Frame) (s : State) :
  no_repeat (messages s) = true -> no_repeat (messages (onmessage now frame s)) = true.
Proof.
  intros Hs.
  destruct frame as [[clientId|[d|d|taskId error]]|]; cbn [onmessage messages]; try exact Hs.
  destruct (tp_currentMessage d); [now apply add_message_no_repeat|exact Hs].
Qed.


Lemma feed_grows (frames : list (Z * option Hub.Frame)) (s : State) :
  exists added,
    messages (feed frames s) = (messages s ++ added)%list
    /\ (length added <= length frames)%nat.
Proof.
  revert s. induction frames as [|[now frame] rest IH]; intros s; cbn [feed].
  - exists []. rewrite app_nil_r. split; [reflexivity|cbn; lia].
  - destruct (IH (onmessage now frame s)) as (added2 & H2 & Hlen2).
    destruct (onmessage_grows now frame s) as (added1 & H1 & Hlen1).
    exists (added1 ++ added2)%list. rewrite H2, H1, <- app_assoc. split; [reflexivity|].
    rewrite length_app. cbn [length]. lia.
Qed.

Lemma feed_no_repeat (frames : list (Z * option Hub.Frame)) (s : State) :
  no_repeat (messages s) = true -> no_repeat (messages (feed frames s)) = true.
Proof.
  revert s. induction frames as [|[now frame] rest IH]; intros s Hs; [exact Hs|].
  cbn [feed]. apply IH. now apply onmessage_no_repeat.
Qed.

Lemma shows_feed (frames : list (Z * option Hub.Frame)) (agent message : string) (s : State) :
  shows agent message s -> shows agent message (feed frames s).
Proof.
  intros (m & Hin & Ha & Ht). destruct (feed_grows frames s) as (added & Heq & _).
  exists m. rewrite Heq. split; [apply in_or_app; now left|]. split; assumption.
Qed.

Lemma feed_shows (frames : list (Z * option Hub.Frame)) (d : TaskProgress)
    (cm : CurrentMessage) (s : State) :
  In (Some (Hub.EventFrame (Routes.TaskProgressEvent d))) (map snd frames) ->
  tp_currentMessage d = Some cm ->
  shows (cm_agent cm) (cm_message cm) (feed frames s).
Proof.
  intros Hin Hcm. revert s.
  induction frames as [|[now frame] rest IH]; intros s; [destruct Hin|].
  cbn [map snd] in Hin. destruct Hin as [->|Hin]; [|cbn [feed]; now apply IH].
  cbn [feed]. apply shows_feed. cbn [onmessage]. rewrite Hcm.
  destruct (add_message_last now d cm (messages s)) as (m & Hm & Ha & Ht).
  exists m. cbn [messages]. split; [|split; assumption].
  eapply nth_error_In. exact Hm.
Qed.

(** X20.  A frame that arrives a second time, right after itself, changes
    nothing on the page, whatever the clock readings: the message of a
    progress frame is appended only when its agent or its text differs from
    the last message shown. *)
Theorem onmessage_absorbs_repeat (now now' : Z) (frame : option Hub.Frame) (s : State) :
  onmessage now' frame (onmessage now frame s) = onmessage now frame s.
Proof.
  destruct frame as [[clientId|[d|d|taskId error]]|]; cbn [onmessage]; try reflexivity.
  cbn [currentTask messages progress agentStatus isProcessing taskCompleted].
  destruct (tp_currentMessage d); [|reflexivity]. now rewrite add_message_absorbs.
Qed.

(** X21.  Over any sequence of frames, the page only appends to the
    messages it shows, at most one per frame; when no two neighbours among
    them agree in agent and text at the start (as after [onSuccess], which
    empties the list), none do at the end; and the message of every
    progress frame received is among the messages shown, by agent and text.
    The task id of a frame is not compared with the page's task. *)
Theorem page_messages (frames : list (Z * option Hub.Frame)) (s : State) :
  no_repeat (messages s) = true ->
  no_repeat (messages (feed frames s)) = true
  /\ (exists added,
        messages (feed frames s) = (messages s ++ added)%list
        /\ (length added <= length frames)%nat)
  /\ (forall d cm,
        In (Some (Hub.EventFrame (Routes.TaskProgressEvent d))) (map snd frames) ->
        tp_currentMessage d = Some cm ->
        shows (cm_agent cm) (cm_message cm) (feed frames s)).
Proof.
  intros Hs. split; [now apply feed_no_repeat|]. split; [apply feed_grows|].
  intros d cm. apply feed_shows.
Qed.

Lemma page_messages_witness :
  let hello := Routes.TaskProgressEvent (Routes.initial_progress 7 5) in
  let page := feed [ (10, Some (Hub.EventFrame hello)); (11, None);
                     (12, Some (Hub.EventFrame hello)) ]
                (onSuccess (mkTask 1 "hello" pending 0 None) initial) in
  no_repeat (messages page) = true /\ length (messages page) = 1%nat.
Proof.
  cbn zeta.
  destruct (page_messages
              [ (10, Some (Hub.EventFrame (Routes.TaskProgressEvent (Routes.initial_progress 7 5))));
                (11, None);
                (12, Some (Hub.EventFrame (Routes.TaskProgressEvent (Routes.initial_progress 7 5)))) ]
              (onSuccess (mkTask 1 "hello" pending 0 None) initial)) as (Hrep & _ & _);
    [reflexivity|].
  split; [exact Hrep|reflexivity].
Defined.

End PageFacts.

(** ** The page over a run of [processTaskWithUpdates] *)

Section PageOverRun.
Import Page.










End PageOverRun.

(** ** The message types the server stores and the page's styles *)

Section MessageStyles.

Lemma styled_types (messageType : string) :
  In messageType ["delegation"; "success"; "action"; "processing"; "completion"; "user_input"] ->
  Page.getMessageTypeClass messageType <> default_class.
Proof.
  cbn [In]. intros [<-|[<-|[<-|[<-|[<-|[<-|[]]]]]]]; vm_compute; discriminate.
Qed.

(** X23.  Every message [processTaskWithUpdates] stores has one of the
    four types success, delegation, user_input and processing, and the page
    has a style of its own for each of them.  The steps
    [ExternalAgentService.parseAPIResponse] builds are styled likewise,
    except those of the key [User]: their type is [input], which
    [getMessageTypeClass] does not know and renders with the fallback
    class. *)
Theorem message_types_styled (taskId : Z) (item : string * string) :
  In (im_messageType (route_message taskId item))
    ["success"; "delegation"; "user_input"; "processing"]
  /\ Page.getMessageTypeClass (im_messageType (route_message taskId item)) <> default_class
  /\ (Page.getMessageTypeClass (step_messageType (ExternalGen.parseItem item)) = default_class
      <-> fst item = "User").
Proof.
  assert (Hroute : In (im_messageType (route_message taskId item))
                     ["success"; "delegation"; "user_input"; "processing"]).
  { unfold route_message. cbn [im_messageType]. unfold Routes.messageType_of.
    repeat match goal with |- context [if ?b then _ else _] => destruct b end; cbn; tauto. }
  split; [exact Hroute|]. split.
  - apply styled_types. cbn [In] in Hroute |- *. tauto.
  - destruct item as [agentKey message]. cbn [fst]. unfold ExternalGen.parseItem.
    destruct (String.eqb_spec agentKey "User") as [->|Hkey].
    + cbn [step_messageType]. split; [reflexivity|]. intros _. reflexivity.
    + split; [|congruence]. intros Hdefault. exfalso. revert Hdefault.
      apply styled_types.
      assert (Hrange : In (ExternalGen.getMessageType message)
                         ["delegation"; "success"; "action"; "processing"; "completion"]).
      { unfold ExternalGen.getMessageType.
        repeat match goal with |- context [if ?b then _ else _] => destruct b end;
          cbn; tauto. }
      cbn [In] in Hrange |- *.
      repeat match goal with |- context [if ?b then _ else _] => destruct b end;
        cbn [step_messageType]; tauto.
Qed.

End MessageStyles.
